(** * ai-queuer: the scheduling and rate-limiting engine

    A shallow embedding of the class [RequestQueuer], of the usage
    strategies of [src/usage-strategy.ts] ([RAMUsageStrategy] and
    [pocketbaseUsageStrategy]) and of the queue selection of [index.ts],
    the properties of the specification that are settled against it, and
    further properties of the code.

    Conventions of the embedding.
    - JavaScript numbers that hold counts, limits and [Date.now()] readings
      are integers and are modelled in [Z].  Where the source leaves the
      integers the model follows it with a type of its own: a wait can be
      [NaN] (type [JsNumber]), the running minimum of a scan starts at
      [+Infinity] (type [MinWait]), and the moving average of execution
      times is a rational.  The estimator takes the estimated execution
      time per item as a parameter in whole milliseconds.
    - The wall clock is an input: [now] is a [Date.now()] reading taken by
      the caller, [clk] the reading that [new Date()] / [Date.now()] give
      inside [startOfNextMonth] and the initial-bucket factory.
    - A bucket is a shared object in the source: [getBucket] hands out a
      reference, and writes through that reference change the map entry and
      nothing else.  This is the operation [assign] of a usage strategy.
    - The outcome of the [execute] closure and of every network call is an
      input of the step that performs it; a run of [persist] is taken as
      one step.
    - The methods are modelled by what they return.  The code reads three
      plain objects by a name that comes from a request
      ([modelLimits[modelName]], [queuesByProvider[provider]],
      [clientsByProvider[provider]]); such a read also finds what the
      object inherits from [Object.prototype], and a method found there
      makes [getActiveLimits] or [chooseQueue] throw a TypeError.  The
      module [Throwing] has these methods and their callers with the
      exception; where they return, they return what the definitions of
      the same name outside the module give ([chooseQueue]: at a provider
      that both tables hold as an own property). *)

From Stdlib Require Import ZArith List Lia Bool QArith Lqa Sorted Permutation.
From stdpp Require Import base option gmap strings list fin_maps.
Import ListNotations.
Open Scope Z_scope.

(* ===================================================================== *)
(** ** JavaScript numbers that are not integers *)
(* ===================================================================== *)

Module JsNum.

(** The value of a wait: [Math.max] and [-] on an [undefined] operand give
    [NaN]. *)
Inductive JsNumber : Type :=
  | NaN
  | Num (z : Z).

(** [minWait] of a scan: [Number.POSITIVE_INFINITY] until a finite wait
    has been observed. *)
Inductive MinWait : Type :=
  | Infinity
  | Finite (z : Z).

(** [Math.max(a, b)]. *)
Definition jmax (a b : JsNumber) : JsNumber :=
  match a, b with
  | Num x, Num y => Num (Z.max x y)
  | _, _ => NaN
  end.

(** [len - (now - earliest)] where [earliest] is [arr[0]], [undefined] on
    an empty array. *)
Definition untilExpiry (len now : Z) (earliest : option Z) : JsNumber :=
  match earliest with
  | Some e => Num (len - (now - e))
  | None => NaN
  end.

(** [wait <= 0]. *)
Definition le0 (w : JsNumber) : bool :=
  match w with
  | Num z => z <=? 0
  | NaN => false
  end.

(** [wait < minWait]. *)
Definition ltMin (w : JsNumber) (m : MinWait) : bool :=
  match w, m with
  | NaN, _ => false
  | Num _, Infinity => true
  | Num z, Finite y => z <? y
  end.

(** [if (wait < minWait) minWait = wait]. *)
Definition lower (w : JsNumber) (m : MinWait) : MinWait :=
  match w with
  | Num z => if ltMin w m then Finite z else m
  | NaN => m
  end.

(** [Math.max(1, Math.min(minWait, 5_000))]. *)
Definition sleepMs (m : MinWait) : Z :=
  Z.max 1 (match m with
           | Infinity => 5000
           | Finite z => Z.min z 5000
           end).

#[global] Instance JsNumber_eq_dec : EqDecision JsNumber.
Proof. solve_decision. Defined.

#[global] Instance MinWait_eq_dec : EqDecision MinWait.
Proof. solve_decision. Defined.

End JsNum.
Export JsNum.

(* ===================================================================== *)
(** ** The calendar of [Date] *)
(* ===================================================================== *)

(** The day and month arithmetic of ECMAScript's [Date] objects
    (ECMA-262, "Time Values and Time Range" and [MakeDay]), as far as
    [startOfNextMonth] uses it. *)
Module Calendar.

Definition msPerDay : Z := 86400000.

(** [Day(t)]. *)
Definition Day (t : Z) : Z := t / msPerDay.

(** [DayFromYear(y)]: the day number of January 1st of year [y]. *)
Definition DayFromYear (y : Z) : Z :=
  365 * (y - 1970) + (y - 1969) / 4 - (y - 1901) / 100 + (y - 1601) / 400.

Definition DaysInYear (y : Z) : Z := DayFromYear (y + 1) - DayFromYear y.

Definition InLeapYear (y : Z) : bool := DaysInYear y =? 366.

(** [YearFromTime]: the largest [y] with [DayFromYear y <= d], found from
    an estimate that is off by at most one. *)
Definition YearFromDay (d : Z) : Z :=
  let y0 := 1970 + (400 * d) / 146097 in
  if d <? DayFromYear y0 then y0 - 1
  else if DayFromYear (y0 + 1) <=? d then y0 + 1
  else y0.

(** The day within the year on which month [m] (0 = January) starts; 12
    gives the length of the year. *)
Definition monthStart (leap : bool) (m : Z) : Z :=
  let l := if leap then 1 else 0 in
  if m <=? 0 then 0
  else if m =? 1 then 31
  else if m =? 2 then 59 + l
  else if m =? 3 then 90 + l
  else if m =? 4 then 120 + l
  else if m =? 5 then 151 + l
  else if m =? 6 then 181 + l
  else if m =? 7 then 212 + l
  else if m =? 8 then 243 + l
  else if m =? 9 then 273 + l
  else if m =? 10 then 304 + l
  else if m =? 11 then 334 + l
  else 365 + l.

(** [MonthFromTime], from the day within the year. *)
Definition MonthFromDayInYear (leap : bool) (diy : Z) : Z :=
  if diy <? monthStart leap 1 then 0
  else if diy <? monthStart leap 2 then 1
  else if diy <? monthStart leap 3 then 2
  else if diy <? monthStart leap 4 then 3
  else if diy <? monthStart leap 5 then 4
  else if diy <? monthStart leap 6 then 5
  else if diy <? monthStart leap 7 then 6
  else if diy <? monthStart leap 8 then 7
  else if diy <? monthStart leap 9 then 8
  else if diy <? monthStart leap 10 then 9
  else if diy <? monthStart leap 11 then 10
  else 11.

(** [getUTCFullYear()] of the time value [t]. *)
Definition getUTCFullYear (t : Z) : Z := YearFromDay (Day t).

(** [getUTCMonth()] of the time value [t] (0 = January). *)
Definition getUTCMonth (t : Z) : Z :=
  let d := Day t in
  let y := YearFromDay d in
  MonthFromDayInYear (InLeapYear y) (d - DayFromYear y).

(** [MakeDay(year, month, date)]: months beyond December carry into the
    year. *)
Definition MakeDay (year month date : Z) : Z :=
  let ym := year + month / 12 in
  let mn := month mod 12 in
  DayFromYear ym + monthStart (InLeapYear ym) mn + date - 1.

(** [Date.UTC(year, month, 1)]: midnight UTC of that day. *)
Definition utcMidnight (year month date : Z) : Z :=
  MakeDay year month date * msPerDay.

(** [new Date(year, month, date).getTime()]: the arguments are a LOCAL
    date, so the time value is the local midnight, [tzOffsetMs] (the
    zone's offset east of UTC) earlier than the UTC midnight. *)
Definition localMidnight (tzOffsetMs : Z) (year month date : Z) : Z :=
  utcMidnight year month date - tzOffsetMs.

End Calendar.

(* ===================================================================== *)
(** ** Usage buckets and limits *)
(* ===================================================================== *)

Record UsageBucket : Type := mkBucket {
  secondWindowTimestamps : list Z;
  minuteWindowTimestamps : list Z;
  dayWindowTimestamps : list Z;
  monthTokenCount : Z;
  monthTokenResetAt : Z;
  monthRequestCount : Z;
  monthRequestResetAt : Z;
  minuteTokenCount : Z;
  minuteTokenWindowStart : Z
}.

#[global] Instance UsageBucket_eq_dec : EqDecision UsageBucket.
Proof. solve_decision. Defined.

Inductive LimitType : Type := RPS | RPm | RPD | TPM | TPm | RPM.

#[global] Instance LimitType_eq_dec : EqDecision LimitType.
Proof. solve_decision. Defined.

Record RateLimitConfig : Type := mkLimit {
  type : LimitType;
  limit : Z
}.

#[global] Instance RateLimitConfig_eq_dec : EqDecision RateLimitConfig.
Proof. solve_decision. Defined.

Record QueuerOptions : Type := mkOptions {
  defaultLimits : option (list RateLimitConfig);
  modelLimits : option (gmap string (list RateLimitConfig));
  fallbackDelayMs : option Z;
  label : option string
}.

(** JavaScript truthiness of an optional string: [undefined] and the empty
    string are falsy. *)
Definition truthyString (s : option string) : option string :=
  match s with
  | Some EmptyString => None
  | _ => s
  end.

(** Truthiness of an optional number: [undefined] and [0] are falsy. *)
Definition truthyNumber (n : option Z) : option Z :=
  match n with
  | Some 0 => None
  | _ => n
  end.

(** [modelName || "__default__"], the key of [getUsageBucket] and of
    [getKey] in the estimator. *)
Definition bucketKey (modelName : option string) : string :=
  default "__default__"%string (truthyString modelName).

(** [modelSpecificLimits.find(l => l.type === defaultLimit.type) ||
    defaultLimit]. *)
Definition overrideOf (modelSpecificLimits : list RateLimitConfig)
    (defaultLimit : RateLimitConfig) : RateLimitConfig :=
  default defaultLimit
    (List.find (fun modelLimit => bool_decide (type modelLimit = type defaultLimit))
       modelSpecificLimits).

(** What [RequestQueuer.getActiveLimits] returns, when it returns; [None]
    is [undefined].  [modelLimits] is given by its own properties: the
    read [ml[modelName]] of a name that a plain object inherits, and the
    TypeError that it can lead to, are in [Throwing.getActiveLimits]
    below, which returns this value whenever it returns. *)
Definition getActiveLimits (opts : QueuerOptions) (modelName : option string)
    : option (list RateLimitConfig) :=
  let dl := default [] (defaultLimits opts) in
  let ml := default ∅ (modelLimits opts) in
  match truthyString modelName ≫= (fun m => ml !! m) with
  | Some (l :: ls) =>
      let modelSpecificLimits := l :: ls in
      Some (List.map (overrideOf modelSpecificLimits) dl ++
            List.filter
              (fun modelLimit =>
                 negb (List.existsb
                         (fun defaultLimit =>
                            bool_decide (type defaultLimit = type modelLimit)) dl))
              modelSpecificLimits)
  | _ => match dl with [] => None | _ => Some dl end
  end.

(** [!active || active.length === 0]. *)
Definition noLimits (active : option (list RateLimitConfig)) : bool :=
  match active with
  | None | Some [] => true
  | Some (_ :: _) => false
  end.

(* ===================================================================== *)
(** ** Maintenance of a bucket *)
(* ===================================================================== *)

Section Maintenance.

(** Offset of the process's local time zone east of UTC, in ms (taken as
    constant: no daylight-saving change is modelled). *)
Variable tzOffsetMs : Z.

(** [RequestQueuer.startOfNextMonth], with [clk] the reading of
    [new Date()]. *)
Definition startOfNextMonth (clk : Z) : Z :=
  Calendar.localMidnight tzOffsetMs
    (Calendar.getUTCFullYear clk) (Calendar.getUTCMonth clk + 1) 1.

(** [makeInitial] of the constructor, the [initialFactory] of the usage
    strategy. *)
Definition makeInitial (clk : Z) : UsageBucket :=
  {| secondWindowTimestamps := [];
     minuteWindowTimestamps := [];
     dayWindowTimestamps := [];
     monthTokenCount := 0;
     monthTokenResetAt := startOfNextMonth clk;
     monthRequestCount := 0;
     monthRequestResetAt := startOfNextMonth clk;
     minuteTokenCount := 0;
     minuteTokenWindowStart := clk |}.

(** [while (arr.length && arr[0] <= cut) arr.shift()]. *)
Fixpoint shiftExpired (cut : Z) (arr : list Z) : list Z :=
  match arr with
  | [] => []
  | t :: rest => if t <=? cut then shiftExpired cut rest else arr
  end.

Definition pruneWindows (now : Z) (usage : UsageBucket) : UsageBucket :=
  let oneSecAgo := now - 1000 in
  let oneMinAgo := now - 60000 in
  let oneDayAgo := now - 86400000 in
  {| secondWindowTimestamps := shiftExpired oneSecAgo (secondWindowTimestamps usage);
     minuteWindowTimestamps := shiftExpired oneMinAgo (minuteWindowTimestamps usage);
     dayWindowTimestamps := shiftExpired oneDayAgo (dayWindowTimestamps usage);
     monthTokenCount := monthTokenCount usage;
     monthTokenResetAt := monthTokenResetAt usage;
     monthRequestCount := monthRequestCount usage;
     monthRequestResetAt := monthRequestResetAt usage;
     minuteTokenCount := minuteTokenCount usage;
     minuteTokenWindowStart := minuteTokenWindowStart usage |}.

Definition maybeResetMonthlyTokens (clk now : Z) (usage : UsageBucket) : UsageBucket :=
  if monthTokenResetAt usage <=? now then
    {| secondWindowTimestamps := secondWindowTimestamps usage;
       minuteWindowTimestamps := minuteWindowTimestamps usage;
       dayWindowTimestamps := dayWindowTimestamps usage;
       monthTokenCount := 0;
       monthTokenResetAt := startOfNextMonth clk;
       monthRequestCount := monthRequestCount usage;
       monthRequestResetAt := monthRequestResetAt usage;
       minuteTokenCount := minuteTokenCount usage;
       minuteTokenWindowStart := minuteTokenWindowStart usage |}
  else usage.

Definition maybeResetMonthlyRequests (clk now : Z) (usage : UsageBucket) : UsageBucket :=
  if monthRequestResetAt usage <=? now then
    {| secondWindowTimestamps := secondWindowTimestamps usage;
       minuteWindowTimestamps := minuteWindowTimestamps usage;
       dayWindowTimestamps := dayWindowTimestamps usage;
       monthTokenCount := monthTokenCount usage;
       monthTokenResetAt := monthTokenResetAt usage;
       monthRequestCount := 0;
       monthRequestResetAt := startOfNextMonth clk;
       minuteTokenCount := minuteTokenCount usage;
       minuteTokenWindowStart := minuteTokenWindowStart usage |}
  else usage.

Definition maybeResetMinuteTokens (now : Z) (usage : UsageBucket) : UsageBucket :=
  if 60000 <=? now - minuteTokenWindowStart usage then
    {| secondWindowTimestamps := secondWindowTimestamps usage;
       minuteWindowTimestamps := minuteWindowTimestamps usage;
       dayWindowTimestamps := dayWindowTimestamps usage;
       monthTokenCount := monthTokenCount usage;
       monthTokenResetAt := monthTokenResetAt usage;
       monthRequestCount := monthRequestCount usage;
       monthRequestResetAt := monthRequestResetAt usage;
       minuteTokenCount := 0;
       minuteTokenWindowStart := now |}
  else usage.

(** The four maintenance calls that open [computeWaitMs], in its order. *)
Definition maintain (clk now : Z) (usage : UsageBucket) : UsageBucket :=
  pruneWindows now
    (maybeResetMinuteTokens now
       (maybeResetMonthlyRequests clk now
          (maybeResetMonthlyTokens clk now usage))).

(** The three maintenance calls that open [computeWaitSim], in its
    order. *)
Definition maintainSim (clk t : Z) (usage : UsageBucket) : UsageBucket :=
  pruneWindows t
    (maybeResetMonthlyRequests clk t
       (maybeResetMonthlyTokens clk t usage)).

(** One turn of the loop [for (const l of active)], the same text in
    [computeWaitMs] and in [computeWaitSim]. *)
Definition limitWait (now tokensNeeded : Z) (usage : UsageBucket)
    (waitMs : JsNumber) (l : RateLimitConfig) : JsNumber :=
  match type l with
  | RPS =>
      if limit l <=? Z.of_nat (length (secondWindowTimestamps usage)) then
        jmax waitMs (untilExpiry 1000 now (head (secondWindowTimestamps usage)))
      else waitMs
  | RPm =>
      if limit l <=? Z.of_nat (length (minuteWindowTimestamps usage)) then
        jmax waitMs (untilExpiry 60000 now (head (minuteWindowTimestamps usage)))
      else waitMs
  | RPD =>
      if limit l <=? Z.of_nat (length (dayWindowTimestamps usage)) then
        jmax waitMs (untilExpiry 86400000 now (head (dayWindowTimestamps usage)))
      else waitMs
  | TPM =>
      if limit l <? monthTokenCount usage + Z.max 0 tokensNeeded then
        jmax waitMs (Num (monthTokenResetAt usage - now))
      else waitMs
  | RPM =>
      if limit l <? monthRequestCount usage + 1 then
        jmax waitMs (Num (monthRequestResetAt usage - now))
      else waitMs
  | TPm =>
      let windowAge := now - minuteTokenWindowStart usage in
      if 60000 <=? windowAge then waitMs
      else if limit l <? minuteTokenCount usage + Z.max 0 tokensNeeded then
        let until := minuteTokenWindowStart usage + 60000 in
        jmax waitMs (Num (until - now))
      else waitMs
  end.

(** [let waitMs = 0; for (...) {...}; return Math.max(0, waitMs)]. *)
Definition waitLoop (now tokensNeeded : Z) (usage : UsageBucket)
    (active : list RateLimitConfig) : JsNumber :=
  jmax (Num 0) (fold_left (limitWait now tokensNeeded usage) active (Num 0)).

(** The body of [recordUsage], the same text in [recordUsageSim], on the
    bucket it is given. *)
Definition recordInto (now tokens : Z) (usage : UsageBucket) : UsageBucket :=
  let monthTok := if 0 <? tokens then monthTokenCount usage + tokens
                  else monthTokenCount usage in
  let stale := 60000 <=? now - minuteTokenWindowStart usage in
  let start := if stale then now else minuteTokenWindowStart usage in
  let count := if stale then 0 else minuteTokenCount usage in
  let count := if 0 <? tokens then count + tokens else count in
  pruneWindows now
    {| secondWindowTimestamps := secondWindowTimestamps usage ++ [now];
       minuteWindowTimestamps := minuteWindowTimestamps usage ++ [now];
       dayWindowTimestamps := dayWindowTimestamps usage ++ [now];
       monthTokenCount := monthTok;
       monthTokenResetAt := monthTokenResetAt usage;
       monthRequestCount := monthRequestCount usage + 1;
       monthRequestResetAt := monthRequestResetAt usage;
       minuteTokenCount := count;
       minuteTokenWindowStart := start |}.

End Maintenance.

(* ===================================================================== *)
(** ** Usage strategies *)
(* ===================================================================== *)

(** The fields of [pocketbaseUsageStrategy] that its methods read and
    write.  [changed] is a JavaScript [Set]: it keeps the order in which
    keys were first added. *)
Record PocketbaseState : Type := mkPocketbase {
  pb_map : gmap string UsageBucket;
  pb_recordIds : gmap string string;
  pb_changed : list string;
  pb_auth : option string;
  pb_disposed : bool;
  pb_label : option string
}.

(** [this.usage]: an object of one of the two classes that implement the
    interface [UsageStrategy]. *)
Inductive UsageStrategy : Type :=
| RAMUsageStrategy (map : gmap string UsageBucket)
| pocketbaseUsageStrategy (pb : PocketbaseState).

(** [Set.prototype.add]. *)
Definition setAdd (key : string) (s : list string) : list string :=
  if bool_decide (key ∈ s) then s else s ++ [key].

(** [pocketbaseUsageStrategy.makeKey]. *)
Definition makeKey (label : option string) (modelKey : string) : string :=
  match truthyString label with
  | Some l => String.append l (String.append "::" modelKey)
  | None => modelKey
  end.

(** [k.startsWith(p) ? k.slice(p.length) : k]. *)
Fixpoint stripPrefix (p k : string) : option string :=
  match p, k with
  | EmptyString, _ => Some k
  | String a p', String b k' =>
      if bool_decide (a = b) then stripPrefix p' k' else None
  | String _ _, EmptyString => None
  end.

Definition plainKey (label : option string) (k : string) : string :=
  match truthyString label with
  | Some l => default k (stripPrefix (String.append l "::") k)
  | None => k
  end.

(** [getBucket(modelKey)]; [init] is what [initialFactory()] returns at the
    time of the call. *)
Definition getBucket (init : UsageBucket) (modelKey : string)
    (u : UsageStrategy) : UsageBucket * UsageStrategy :=
  match u with
  | RAMUsageStrategy map =>
      match map !! modelKey with
      | Some b => (b, u)
      | None => (init, RAMUsageStrategy (<[modelKey := init]> map))
      end
  | pocketbaseUsageStrategy pb =>
      let key := makeKey (pb_label pb) modelKey in
      match pb_map pb !! key with
      | Some b => (b, u)
      | None =>
          (init,
           pocketbaseUsageStrategy
             {| pb_map := <[key := init]> (pb_map pb);
                pb_recordIds := pb_recordIds pb;
                pb_changed := setAdd key (pb_changed pb);
                pb_auth := pb_auth pb;
                pb_disposed := pb_disposed pb;
                pb_label := pb_label pb |})
      end
  end.

(** [setBucket(modelKey, bucket)]. *)
Definition setBucket (modelKey : string) (bucket : UsageBucket)
    (u : UsageStrategy) : UsageStrategy :=
  match u with
  | RAMUsageStrategy map => RAMUsageStrategy (<[modelKey := bucket]> map)
  | pocketbaseUsageStrategy pb =>
      let key := makeKey (pb_label pb) modelKey in
      pocketbaseUsageStrategy
        {| pb_map := <[key := bucket]> (pb_map pb);
           pb_recordIds := pb_recordIds pb;
           pb_changed := setAdd key (pb_changed pb);
           pb_auth := pb_auth pb;
           pb_disposed := pb_disposed pb;
           pb_label := pb_label pb |}
  end.

(** [entries()]; the pocketbase strategy strips its label prefix. *)
Definition entries (u : UsageStrategy) : list (string * UsageBucket) :=
  match u with
  | RAMUsageStrategy map => map_to_list map
  | pocketbaseUsageStrategy pb =>
      List.map (fun kv => (plainKey (pb_label pb) (fst kv), snd kv))
        (map_to_list (pb_map pb))
  end.

(** The bucket stored under a model key, [map.get(...)]. *)
Definition peek (modelKey : string) (u : UsageStrategy) : option UsageBucket :=
  match u with
  | RAMUsageStrategy map => map !! modelKey
  | pocketbaseUsageStrategy pb => pb_map pb !! makeKey (pb_label pb) modelKey
  end.

(** A write through the reference that [getBucket] returned: the object in
    the map changes, no method of the strategy is called. *)
Definition assign (modelKey : string) (bucket : UsageBucket)
    (u : UsageStrategy) : UsageStrategy :=
  match u with
  | RAMUsageStrategy map => RAMUsageStrategy (<[modelKey := bucket]> map)
  | pocketbaseUsageStrategy pb =>
      pocketbaseUsageStrategy
        {| pb_map := <[makeKey (pb_label pb) modelKey := bucket]> (pb_map pb);
           pb_recordIds := pb_recordIds pb;
           pb_changed := pb_changed pb;
           pb_auth := pb_auth pb;
           pb_disposed := pb_disposed pb;
           pb_label := pb_label pb |}
  end.

(** [this.changed.has(makeKey(modelKey))]: the key is tagged dirty. *)
Definition isDirty (modelKey : string) (u : UsageStrategy) : bool :=
  match u with
  | RAMUsageStrategy _ => false
  | pocketbaseUsageStrategy pb =>
      bool_decide (makeKey (pb_label pb) modelKey ∈ pb_changed pb)
  end.

(* --------------------------------------------------------------------- *)
(** *** [persist] of the pocketbase strategy *)
(* --------------------------------------------------------------------- *)

Module Net.

(** Answer to [auth-with-password]. *)
Inductive AuthReply : Type :=
  | AuthToken (token : string)
  | AuthFailed.

(** Answer to a [PATCH] of a record. *)
Inductive PatchReply : Type :=
  | PatchOk
  | PatchNotOk
  | PatchThrows.

(** Answer to a [POST] that creates a record; [PostOk] carries the [id] of
    the answer when it is a string. *)
Inductive PostReply : Type :=
  | PostOk (id : option string)
  | PostNotOk
  | PostThrows.

(** What the remote end answers, per key. *)
Record Oracle : Type := mkOracle {
    authReply : AuthReply;
    patchReply : string -> PatchReply;
    postReply : string -> PostReply
  }.

(** What a run of [persist] did that is visible outside the strategy. *)
Inductive Event : Type :=
  | Patched (recId key : string) (data : UsageBucket)
  | Created (key : string) (data : UsageBucket)
  | Logged (key : string).

End Net.

(** [createRecord]: the events it produces, the record id it remembers, and
    whether it threw. *)
Definition createRecord (net : Net.Oracle) (key : string) (bucket : UsageBucket)
    (recordIds : gmap string string)
    : list Net.Event * gmap string string * bool :=
  match Net.postReply net key with
  | Net.PostOk (Some id) => ([Net.Created key bucket], <[key := id]> recordIds, false)
  | Net.PostOk None => ([Net.Created key bucket], recordIds, false)
  | Net.PostNotOk => ([Net.Logged key], recordIds, false)
  | Net.PostThrows => ([], recordIds, true)
  end.

(** The body of [for (const key of toPersist)] for one key, with its
    [try]/[catch]. *)
Definition persistKey (net : Net.Oracle) (map : gmap string UsageBucket)
    (acc : list Net.Event * gmap string string) (key : string)
    : list Net.Event * gmap string string :=
  let '(events, recordIds) := acc in
  match map !! key with
  | None => acc
  | Some bucket =>
      let '(evs, recordIds', threw) :=
        match truthyString (recordIds !! key) with
        | Some recId =>
            match Net.patchReply net key with
            | Net.PatchOk => ([Net.Patched recId key bucket], recordIds, false)
            | Net.PatchNotOk => createRecord net key bucket recordIds
            | Net.PatchThrows => ([], recordIds, true)
            end
        | None => createRecord net key bucket recordIds
        end in
      (events ++ evs ++ (if threw then [Net.Logged key] else []), recordIds')
  end.

(** Outcome of the promise that [persist] returns. *)
Inductive PersistOutcome : Type :=
| PersistDone
| PersistRejected.

(** [pocketbaseUsageStrategy.persist]. *)
Definition persistPocketbase (net : Net.Oracle) (pb : PocketbaseState)
    : PersistOutcome * list Net.Event * PocketbaseState :=
  if pb_disposed pb then (PersistDone, [], pb)
  else
    (* ensureAuth *)
    let auth :=
      match truthyString (pb_auth pb) with
      | Some token => Some token
      | None =>
          match Net.authReply net with
          | Net.AuthToken token => truthyString (Some token)
          | Net.AuthFailed => None
          end
      end in
    match auth with
    | None => (PersistRejected, [], pb)
    | Some token =>
        let toPersist := pb_changed pb in
        let '(events, recordIds) :=
          fold_left (persistKey net (pb_map pb)) toPersist ([], pb_recordIds pb) in
        (PersistDone, events,
         {| pb_map := pb_map pb;
            pb_recordIds := recordIds;
            pb_changed := [];
            pb_auth := Some token;
            pb_disposed := pb_disposed pb;
            pb_label := pb_label pb |})
    end.

(** [this.usage.persist(now)]: a no-op for the RAM strategy. *)
Definition persist (net : Net.Oracle) (u : UsageStrategy)
    : PersistOutcome * list Net.Event * UsageStrategy :=
  match u with
  | RAMUsageStrategy _ => (PersistDone, [], u)
  | pocketbaseUsageStrategy pb =>
      let '(o, evs, pb') := persistPocketbase net pb in
      (o, evs, pocketbaseUsageStrategy pb')
  end.

(* ===================================================================== *)
(** ** The request queuer *)
(* ===================================================================== *)

(** A queue item without its closures: what [execute] does is an input of
    the iteration that calls it, and [resolve] / [reject] are effects. *)
Record QueueItem : Type := mkItem {
  id : string;
  tokens : option Z;
  modelName : option string
}.

#[global] Instance QueueItem_eq_dec : EqDecision QueueItem.
Proof. solve_decision. Defined.

(** The mutable fields of a [RequestQueuer]; [opts] is read-only and is a
    parameter of the methods below.  [execEwmaMs] is a float in the source
    and an exact rational here. *)
Record RequestQueuer : Type := mkQueuer {
  queue : list QueueItem;
  isProcessing : bool;
  usage : UsageStrategy;
  execEwmaMs : option Q;
  execSamples : Z
}.

(** A thrown or rejected value: an [Error] object, or any other value, kept
    by what [String(...)] makes of it. *)
Inductive Thrown : Type :=
| ErrorObject (message : string)
| OtherValue (text : string).

#[global] Instance Thrown_eq_dec : EqDecision Thrown.
Proof. solve_decision. Defined.

(** [arr.splice(i, 1)[0]] and what is left of [arr]. *)
Fixpoint splice {A : Type} (i : nat) (arr : list A) : option A * list A :=
  match arr, i with
  | [], _ => (None, [])
  | x :: rest, O => (Some x, rest)
  | x :: rest, S j => let '(o, rest') := splice j rest in (o, x :: rest')
  end.

Section Queuer.

Variable tzOffsetMs : Z.
Variable opts : QueuerOptions.

(** The type of results of [execute]. *)
Variable T : Type.

(** [estimateTokenCount] of the package [tokenx]. *)
Variable estimateTokenCount : string -> Z.

(** [RequestQueuer.computeWaitMs]. *)
Definition computeWaitMs (clk now : Z) (model : option string)
    (tokensNeeded : Z) (u : UsageStrategy) : JsNumber * UsageStrategy :=
  match getActiveLimits opts model with
  | None | Some [] => (Num 0, u)
  | Some active =>
      let '(bucket, u1) := getBucket (makeInitial tzOffsetMs clk) (bucketKey model) u in
      let bucket' := maintain tzOffsetMs clk now bucket in
      (waitLoop now tokensNeeded bucket' active,
       assign (bucketKey model) bucket' u1)
  end.

(** [RequestQueuer.recordUsage], up to its call of [persist]. *)
Definition recordUsage (clk now tokens : Z) (model : option string)
    (u : UsageStrategy) : UsageStrategy :=
  let '(bucket, u1) := getBucket (makeInitial tzOffsetMs clk) (bucketKey model) u in
  assign (bucketKey model) (recordInto now tokens bucket) u1.

(** The [for] loop of [processQueue] from index [i] on: the runnable
    index ([None] for [-1]), [minWait], and the usage store after the
    admission checks that were made. *)
Fixpoint scan (clk now : Z) (i : nat) (minWait : MinWait)
    (items : list QueueItem) (u : UsageStrategy)
    : option nat * MinWait * UsageStrategy :=
  match items with
  | [] => (None, minWait, u)
  | qi :: rest =>
      let '(wait, u') :=
        computeWaitMs clk now (modelName qi) (default 0 (tokens qi)) u in
      if le0 wait then (Some i, minWait, u')
      else scan clk now (S i) (lower wait minWait) rest u'
  end.

(** [RequestQueuer.updateExecDuration]. *)
Definition updateExecDuration (durationMs : Z) (q : RequestQueuer) : RequestQueuer :=
  if durationMs <? 0 then q
  else
    {| queue := queue q;
       isProcessing := isProcessing q;
       usage := usage q;
       execEwmaMs :=
         Some (match execEwmaMs q with
               | None => inject_Z durationMs
               | Some e => Qplus (Qmult (1 # 4) (inject_Z durationMs))
                                  (Qmult (Qminus 1 (1 # 4)) e)
               end);
       execSamples := execSamples q + 1 |}.

(** [RequestQueuer.getEstimatedExecMs]. *)
Definition getEstimatedExecMs (q : RequestQueuer) : Q :=
  default (inject_Z 500) (execEwmaMs q).

(** What [await item.execute()] gives. *)
Inductive Outcome : Type :=
  | Fulfilled (result : T)
  | Threw (error : Thrown).

(** The clock readings and the outcome of [execute] that one turn of the
    [while] loop of [processQueue] consumes. *)
Record Iteration : Type := mkIteration {
    it_now : Z;        (* const now = Date.now() *)
    it_clk : Z;        (* the clock inside the admission checks *)
    it_start : Z;      (* const start = Date.now() *)
    it_outcome : Outcome;
    it_end : Z;        (* const end = Date.now() *)
    it_clkRecord : Z;  (* the clock inside recordUsage *)
    it_finally : Z     (* Date.now() of the finally block *)
  }.

(** What a turn of the loop does that is visible outside the queuer. *)
Inductive Effect : Type :=
  | Delay (ms : Z)
  | Resolve (item : QueueItem) (value : T)
  | Reject (item : QueueItem) (error : Thrown)
  | Persist (now : Z)
  | ConsoleError (item : QueueItem).

(** [error instanceof Error ? error : new Error(String(error))]. *)
Definition rejection (error : Thrown) : Thrown :=
  match error with
  | ErrorObject _ => error
  | OtherValue text => ErrorObject text
  end.

Definition withQueue (items : list QueueItem) (u : UsageStrategy)
    (q : RequestQueuer) : RequestQueuer :=
  {| queue := items;
     isProcessing := isProcessing q;
     usage := u;
     execEwmaMs := execEwmaMs q;
     execSamples := execSamples q |}.

(** The [try] block of [processQueue] around [item.execute()]: the item
    has been taken off the queue, [q] is the queuer at the call. *)
Definition dispatch (it : Iteration) (item : QueueItem) (q : RequestQueuer)
    : list Effect * RequestQueuer :=
  let duration := it_finally it - it_start it in
  match it_outcome it with
  | Fulfilled result =>
      let u := recordUsage (it_clkRecord it) (it_end it)
                 (default 0 (tokens item)) (modelName item) (usage q) in
      ([Resolve item result; Persist (it_end it); Persist (it_end it)],
       updateExecDuration duration (withQueue (queue q) u q))
  | Threw error =>
      ([ConsoleError item; Reject item (rejection error)],
       updateExecDuration duration q)
  end.

(** [if (this.opts.fallbackDelayMs && this.queue.length > 0) await
    this.delay(...)]. *)
Definition fallbackPause (q : RequestQueuer) : list Effect :=
  match truthyNumber (fallbackDelayMs opts), queue q with
  | Some d, _ :: _ => [Delay d]
  | _, _ => []
  end.

(** One turn of [while (this.queue.length > 0)], on a non-empty queue. *)
Definition iteration (it : Iteration) (q : RequestQueuer)
    : list Effect * RequestQueuer :=
  let '(runnableIndex, minWait, u) :=
    scan (it_clk it) (it_now it) 0 Infinity (queue q) (usage q) in
  match runnableIndex with
  | None => ([Delay (sleepMs minWait)], withQueue (queue q) u q)
  | Some i =>
      match splice i (queue q) with
      | (None, rest) => ([], withQueue rest u q)
      | (Some item, rest) =>
          let '(effects, q') := dispatch it item (withQueue rest u q) in
          (effects ++ fallbackPause q', q')
      end
  end.

(** The [while] loop of [processQueue], one [Iteration] per turn; it
    stops when the queue is empty and clears [isProcessing]. *)
Fixpoint processLoop (its : list Iteration) (q : RequestQueuer)
    : list Effect * RequestQueuer :=
  match queue q with
  | [] =>
      ([], {| queue := [];
              isProcessing := false;
              usage := usage q;
              execEwmaMs := execEwmaMs q;
              execSamples := execSamples q |})
  | _ :: _ =>
      match its with
      | [] => ([], q)
      | it :: its' =>
          let '(effects, q') := iteration it q in
          let '(effects', q'') := processLoop its' q' in
          (effects ++ effects', q'')
      end
  end.

(** [RequestQueuer.processQueue]. *)
Definition processQueue (its : list Iteration) (q : RequestQueuer)
    : list Effect * RequestQueuer :=
  if isProcessing q then ([], q)
  else
    processLoop its
      {| queue := queue q;
         isProcessing := true;
         usage := usage q;
         execEwmaMs := execEwmaMs q;
         execSamples := execSamples q |}.

(** What [add] does with the request. *)
Inductive Added : Type :=
  | ExecutedDirectly               (* return executeFunction() *)
  | Enqueued (q : RequestQueuer).   (* this.queue.push(item) *)

(** [RequestQueuer.add], up to its call of [processQueue]; [newId] is the
    id made from the clock and [Math.random()]. *)
Definition add (newId : string) (tokenEstimateText : option string)
    (model : option string) (q : RequestQueuer) : Added :=
  let tokens := estimateTokenCount <$> truthyString tokenEstimateText in
  let activeLimits := getActiveLimits opts model in
  if noLimits activeLimits && negb (bool_decide (is_Some (truthyNumber (fallbackDelayMs opts))))
  then ExecutedDirectly
  else
    Enqueued
      {| queue := queue q ++ [ {| id := newId; tokens := tokens; modelName := model |} ];
         isProcessing := isProcessing q;
         usage := usage q;
         execEwmaMs := execEwmaMs q;
         execSamples := execSamples q |}.

End Queuer.

Arguments Fulfilled {T} result.
Arguments Threw {T} error.
Arguments mkIteration {T}.
Arguments it_now {T}.
Arguments it_clk {T}.
Arguments it_start {T}.
Arguments it_outcome {T}.
Arguments it_end {T}.
Arguments it_clkRecord {T}.
Arguments it_finally {T}.
Arguments Delay {T} ms.
Arguments Resolve {T} item value.
Arguments Reject {T} item error.
Arguments Persist {T} now.
Arguments ConsoleError {T} item.
Arguments dispatch tzOffsetMs {T} it item q.
Arguments fallbackPause opts {T} q.
Arguments iteration tzOffsetMs opts {T} it q.
Arguments processLoop tzOffsetMs opts {T} its q.
Arguments processQueue tzOffsetMs opts {T} its q.

(* ===================================================================== *)
(** ** The wait estimator *)
(* ===================================================================== *)

(** [SimItem] of [estimateWaitMs]. *)
Record SimItem : Type := mkSimItem {
  sim_modelName : option string;
  sim_tokens : Z;
  sim_hypothetical : bool
}.

Section Estimator.

Variable tzOffsetMs : Z.
Variable opts : QueuerOptions.

(** [clk] is the clock inside [startOfNextMonth], [now] the reading
    [const now = Date.now()] that opens [estimateWaitMs]. *)
Variables clk now : Z.

(** [this.getEstimatedExecMs()], in whole milliseconds. *)
Variable perItemExecMs : Z.

(** [usageSim] after the copying loop over [this.usage.entries()]. *)
Definition copyUsage (es : list (string * UsageBucket)) : gmap string UsageBucket :=
  fold_left (fun sim kv => <[fst kv := snd kv]> sim) es ∅.

(** The bucket that [getBucketSim] makes for a key that is missing. *)
Definition initialSim : UsageBucket :=
  {| secondWindowTimestamps := [];
     minuteWindowTimestamps := [];
     dayWindowTimestamps := [];
     monthTokenCount := 0;
     monthTokenResetAt := startOfNextMonth tzOffsetMs clk;
     monthRequestCount := 0;
     monthRequestResetAt := startOfNextMonth tzOffsetMs clk;
     minuteTokenCount := 0;
     minuteTokenWindowStart := now |}.

Definition getBucketSim (m : option string) (usageSim : gmap string UsageBucket)
    : UsageBucket * gmap string UsageBucket :=
  let key := bucketKey m in
  match usageSim !! key with
  | Some b => (b, usageSim)
  | None => (initialSim, <[key := initialSim]> usageSim)
  end.

Definition computeWaitSim (t : Z) (m : option string) (tokens : Z)
    (usageSim : gmap string UsageBucket) : JsNumber * gmap string UsageBucket :=
  match getActiveLimits opts m with
  | None | Some [] => (Num 0, usageSim)
  | Some limits =>
      let '(bucket, sim1) := getBucketSim m usageSim in
      let bucket' := maintainSim tzOffsetMs clk t bucket in
      (waitLoop t tokens bucket' limits, <[bucketKey m := bucket']> sim1)
  end.

Definition recordUsageSim (t tokens : Z) (m : option string)
    (usageSim : gmap string UsageBucket) : gmap string UsageBucket :=
  let '(bucket, sim1) := getBucketSim m usageSim in
  <[bucketKey m := recordInto t tokens bucket]> sim1.

(** [simQueue] as it is built from the pending queue and the request. *)
Definition simQueueOf (pending : list QueueItem) (m : option string)
    (tokensNeeded : Z) : list SimItem :=
  List.map (fun q => {| sim_modelName := modelName q;
                        sim_tokens := default 0 (tokens q);
                        sim_hypothetical := false |}) pending
  ++ [ {| sim_modelName := m;
          sim_tokens := Z.max 0 tokensNeeded;
          sim_hypothetical := true |} ].

(** The [for] loop of the simulation from index [i] on. *)
Fixpoint simScan (tCursor : Z) (i : nat) (minWait : MinWait)
    (items : list SimItem) (usageSim : gmap string UsageBucket)
    : option nat * MinWait * gmap string UsageBucket :=
  match items with
  | [] => (None, minWait, usageSim)
  | item :: rest =>
      let '(wait, sim') :=
        computeWaitSim tCursor (sim_modelName item) (sim_tokens item) usageSim in
      if le0 wait then (Some i, minWait, sim')
      else simScan tCursor (S i) (lower wait minWait) rest sim'
  end.

(** [while (simQueue.length) {...} return 0], at most [fuel] turns;
    [None] when the turns are used up. *)
Fixpoint simLoop (fuel : nat) (simQueue : list SimItem)
    (usageSim : gmap string UsageBucket) (tCursor : Z) : option Z :=
  match fuel with
  | O => None
  | S fuel' =>
      match simQueue with
      | [] => Some 0
      | _ :: _ =>
          let '(runnableIndex, minWait, sim') :=
            simScan tCursor 0 Infinity simQueue usageSim in
          match runnableIndex with
          | None => simLoop fuel' simQueue sim' (tCursor + sleepMs minWait)
          | Some i =>
              match splice i simQueue with
              | (None, _) => None   (* not reached: [i] is an index of [simQueue] *)
              | (Some next, rest) =>
                  if sim_hypothetical next then Some (Z.max 0 (tCursor - now))
                  else
                    let sim'' := recordUsageSim tCursor (sim_tokens next)
                                   (sim_modelName next) sim' in
                    let tCursor' := tCursor + Z.max 0 perItemExecMs in
                    let tCursor'' :=
                      match truthyNumber (fallbackDelayMs opts), rest with
                      | Some d, _ :: _ => tCursor' + d
                      | _, _ => tCursor'
                      end in
                    simLoop fuel' rest sim'' tCursor''
              end
          end
      end
  end.

(** [RequestQueuer.estimateWaitMs]. *)
Definition estimateWaitMs (fuel : nat) (q : RequestQueuer)
    (m : option string) (tokensNeeded : Z) : option Z :=
  let activeForThis := getActiveLimits opts m in
  if noLimits activeForThis
     && negb (bool_decide (is_Some (truthyNumber (fallbackDelayMs opts))))
  then Some 0
  else
    simLoop fuel (simQueueOf (queue q) m tokensNeeded)
      (copyUsage (entries (usage q))) now.

(** The wait that [computeWaitSim] returns, as a function of the bucket
    that the model's key holds in [usageSim]. *)
Definition waitSimOf (t : Z) (m : option string) (tokens : Z)
    (held : option UsageBucket) : JsNumber :=
  match getActiveLimits opts m with
  | None | Some [] => Num 0
  | Some limits =>
      waitLoop t tokens (maintainSim tzOffsetMs clk t (default initialSim held)) limits
  end.

(** [usageSim] after [computeWaitSim]. *)
Definition settleSim (t : Z) (m : option string)
    (usageSim : gmap string UsageBucket) : gmap string UsageBucket :=
  match getActiveLimits opts m with
  | None | Some [] => usageSim
  | Some _ =>
      <[bucketKey m := maintainSim tzOffsetMs clk t
                         (default initialSim (usageSim !! bucketKey m))]> usageSim
  end.

End Estimator.

(* ===================================================================== *)
(** ** Definitions that follow the specification's words *)
(* ===================================================================== *)

(** "The first instant of the next UTC calendar month": midnight UTC of
    day 1 of the month after the UTC month of [clk], [Date.UTC(y, m + 1, 1)]
    for the UTC year [y] and month [m] of [clk]. *)
Definition startOfNextUTCMonth (clk : Z) : Z :=
  Calendar.utcMidnight (Calendar.getUTCFullYear clk) (Calendar.getUTCMonth clk + 1) 1.

(** The table of the admission check: the candidate wait of one limit on a
    bucket, [None] when the limit does not trigger. *)
Definition candidateWait (now tokensNeeded : Z) (b : UsageBucket)
    (l : RateLimitConfig) : option Z :=
  match type l with
  | RPS =>
      if decide (limit l <= Z.of_nat (length (secondWindowTimestamps b)))
      then (fun earliest => 1000 - (now - earliest)) <$> head (secondWindowTimestamps b)
      else None
  | RPm =>
      if decide (limit l <= Z.of_nat (length (minuteWindowTimestamps b)))
      then (fun earliest => 60000 - (now - earliest)) <$> head (minuteWindowTimestamps b)
      else None
  | RPD =>
      if decide (limit l <= Z.of_nat (length (dayWindowTimestamps b)))
      then (fun earliest => 86400000 - (now - earliest)) <$> head (dayWindowTimestamps b)
      else None
  | TPM =>
      if decide (limit l < monthTokenCount b + Z.max 0 tokensNeeded)
      then Some (monthTokenResetAt b - now)
      else None
  | RPM =>
      if decide (limit l < monthRequestCount b + 1)
      then Some (monthRequestResetAt b - now)
      else None
  | TPm =>
      if decide (now - minuteTokenWindowStart b < 60000
                 /\ limit l < minuteTokenCount b + Z.max 0 tokensNeeded)
      then Some (minuteTokenWindowStart b + 60000 - now)
      else None
  end.

(** "The maximum of the candidate waits; 0 if none apply; clamped to be at
    least 0." *)
Definition tableWaitMs (now tokensNeeded : Z) (b : UsageBucket)
    (limits : list RateLimitConfig) : Z :=
  Z.max 0 (fold_right Z.max 0 (omap (candidateWait now tokensNeeded b) limits)).

(** A sliding-window limit ([RPS], [RPm], [RPD]) admits at least one
    request. *)
Definition windowLimitsPositive (limits : list RateLimitConfig) : Prop :=
  Forall (fun l => match type l with
                   | RPS | RPm | RPD => 1 <= limit l
                   | _ => True
                   end) limits.

(* ===================================================================== *)
(** ** Notions used in the statements *)
(* ===================================================================== *)

(** The wait that [computeWaitMs] returns is a function of the bucket that
    the model's key holds. *)
Definition waitOf (tz : Z) (opts : QueuerOptions) (clk now : Z)
    (model : option string) (tokensNeeded : Z) (held : option UsageBucket)
    : JsNumber :=
  match getActiveLimits opts model with
  | None | Some [] => Num 0
  | Some active =>
      waitLoop now tokensNeeded
        (maintain tz clk now (default (makeInitial tz clk) held)) active
  end.

(** The wait that the admission check of this turn computes for an item of
    the queue, on the usage store [u] of the start of the turn. *)
Definition itemWait (tz : Z) (opts : QueuerOptions) (clk now : Z)
    (u : UsageStrategy) (qi : QueueItem) : JsNumber :=
  waitOf tz opts clk now (modelName qi) (default 0 (tokens qi))
    (peek (bucketKey (modelName qi)) u).

(** [m] is the minimum of the waits that are numbers: [Infinity] when there
    is none, otherwise a lower bound that one of them attains. *)
Definition isMinimumWait (waits : list JsNumber) (m : MinWait) : Prop :=
  match m with
  | Infinity => forall w, Num w ∉ waits
  | Finite z => Num z ∈ waits /\ forall w, Num w ∈ waits -> z <= w
  end.

(** Every key of [u] holds what it holds in [u0], or that bucket after the
    maintenance of an admission check at [now]. *)
Definition settled (tz clk now : Z) (u0 u : UsageStrategy) : Prop :=
  forall k,
    peek k u = peek k u0
    \/ peek k u = Some (maintain tz clk now (default (makeInitial tz clk) (peek k u0))).

(** Order on waits: equal when not numbers, the order of [Z] otherwise. *)
Definition waitLe (a b : JsNumber) : Prop :=
  match a, b with
  | Num x, Num y => x <= y
  | NaN, NaN => True
  | _, _ => False
  end.

(** The remote end took the bucket of [key], or the failure was logged. *)
Definition writtenOrLogged (key : string) (bucket : UsageBucket)
    (events : list Net.Event) : Prop :=
  (exists recId, Net.Patched recId key bucket ∈ events)
  \/ Net.Created key bucket ∈ events
  \/ Net.Logged key ∈ events.

(* ===================================================================== *)
(** ** Concrete inputs *)
(* ===================================================================== *)

Module Sample.

(** 2024-01-31T23:00:00Z. *)
Definition t0 : Z := 1706742000000.

(** 2024-02-01T00:00:00Z. *)
Definition february : Z := 1706745600000.

(** A stand-in for [estimateTokenCount]: one token per character. *)
Definition countChars (text : string) : Z := Z.of_nat (String.length text).

Definition emptyBucket : UsageBucket :=
  {| secondWindowTimestamps := [];
     minuteWindowTimestamps := [];
     dayWindowTimestamps := [];
     monthTokenCount := 0;
     monthTokenResetAt := february;
     monthRequestCount := 0;
     monthRequestResetAt := february;
     minuteTokenCount := 0;
     minuteTokenWindowStart := t0 |}.

(** A queuer without limits and without fallback delay. *)
Definition transparent : QueuerOptions :=
  {| defaultLimits := None;
     modelLimits := None;
     fallbackDelayMs := None;
     label := None |}.

(** One request per second for every model. *)
Definition onePerSecond : QueuerOptions :=
  {| defaultLimits := Some [ {| type := RPS; limit := 1 |} ];
     modelLimits := None;
     fallbackDelayMs := None;
     label := None |}.

Definition item (name : string) (model : string) (toks : Z) : QueueItem :=
  {| id := name; tokens := Some toks; modelName := Some model |}.

Definition queuerOf (pending : list QueueItem) (u : UsageStrategy) : RequestQueuer :=
  {| queue := pending;
     isProcessing := true;
     usage := u;
     execEwmaMs := None;
     execSamples := 0 |}.

(** A turn of the dispatch loop at [t0] whose [execute] takes 40 ms. *)
Definition turn {T : Type} (outcome : Outcome T) : Iteration T :=
  {| it_now := t0;
     it_clk := t0;
     it_start := t0;
     it_outcome := outcome;
     it_end := t0 + 40;
     it_clkRecord := t0 + 40;
     it_finally := t0 + 40 |}.

(** One request per second by default, a hundred for the model "fast". *)
Definition slowFast : QueuerOptions :=
  {| defaultLimits := Some [ {| type := RPS; limit := 1 |} ];
     modelLimits := Some {[ "fast"%string := [ {| type := RPS; limit := 100 |} ] ]};
     fallbackDelayMs := None;
     label := None |}.

(** The bucket of a model that completed a request 10 ms before [t0]. *)
Definition justUsed : UsageBucket :=
  {| secondWindowTimestamps := [t0 - 10];
     minuteWindowTimestamps := [t0 - 10];
     dayWindowTimestamps := [t0 - 10];
     monthTokenCount := 0;
     monthTokenResetAt := february;
     monthRequestCount := 1;
     monthRequestResetAt := february;
     minuteTokenCount := 0;
     minuteTokenWindowStart := t0 - 10 |}.

(** A hundred tokens per calendar month for every model. *)
Definition hundredTokens : QueuerOptions :=
  {| defaultLimits := Some [ {| type := TPM; limit := 100 |} ];
     modelLimits := None;
     fallbackDelayMs := None;
     label := None |}.

(** The bucket of a model that has used 50 tokens this month. *)
Definition halfSpent : UsageBucket :=
  {| secondWindowTimestamps := [];
     minuteWindowTimestamps := [];
     dayWindowTimestamps := [];
     monthTokenCount := 50;
     monthTokenResetAt := february;
     monthRequestCount := 3;
     monthRequestResetAt := february;
     minuteTokenCount := 0;
     minuteTokenWindowStart := t0 |}.

(** Model "A": a hundred tokens per minute window and per calendar month. *)
Definition tokenLimited : QueuerOptions :=
  {| defaultLimits := None;
     modelLimits := Some {[ "A"%string := [ {| type := TPm; limit := 100 |};
                                           {| type := TPM; limit := 100 |} ] ]};
     fallbackDelayMs := None;
     label := None |}.

(** The bucket of "A": 91 tokens in a minute window that ends 100 ms after
    [t0], nothing used this month. *)
Definition windowNearlyOver : UsageBucket :=
  {| secondWindowTimestamps := [];
     minuteWindowTimestamps := [];
     dayWindowTimestamps := [];
     monthTokenCount := 0;
     monthTokenResetAt := february;
     monthRequestCount := 0;
     monthRequestResetAt := february;
     minuteTokenCount := 91;
     minuteTokenWindowStart := t0 - 59900 |}.

End Sample.

Module SamplePocketbase.

(** The bucket of model "m" as it was loaded from the remote record. *)
Definition loaded : UsageBucket :=
  {| secondWindowTimestamps := [];
     minuteWindowTimestamps := [];
     dayWindowTimestamps := [];
     monthTokenCount := 0;
     monthTokenResetAt := Sample.february;
     monthRequestCount := 10;
     monthRequestResetAt := Sample.february;
     minuteTokenCount := 0;
     minuteTokenWindowStart := Sample.t0 |}.

(** The strategy of the queue labelled "q1" after [bootstrap] has loaded
    the record "rec1" of model "m": nothing is dirty. *)
Definition bootstrapped : PocketbaseState :=
  {| pb_map := {[ "q1::m"%string := loaded ]};
     pb_recordIds := {[ "q1::m"%string := "rec1"%string ]};
     pb_changed := [];
     pb_auth := Some "token"%string;
     pb_disposed := false;
     pb_label := Some "q1"%string |}.

(** The same strategy with the key of model "m" tagged dirty. *)
Definition dirty : PocketbaseState :=
  {| pb_map := {[ "q1::m"%string := loaded ]};
     pb_recordIds := {[ "q1::m"%string := "rec1"%string ]};
     pb_changed := [ "q1::m"%string ];
     pb_auth := Some "token"%string;
     pb_disposed := false;
     pb_label := Some "q1"%string |}.

(** A thousand requests per month. *)
Definition monthly : QueuerOptions :=
  {| defaultLimits := Some [ {| type := RPM; limit := 1000 |} ];
     modelLimits := None;
     fallbackDelayMs := None;
     label := Some "q1"%string |}.

(** A remote end that answers every request. *)
Definition healthy : Net.Oracle :=
  {| Net.authReply := Net.AuthToken "token";
     Net.patchReply := fun _ => Net.PatchOk;
     Net.postReply := fun _ => Net.PostOk (Some "new"%string) |}.

(** A remote end that authenticates and then fails every write. *)
Definition writesFail : Net.Oracle :=
  {| Net.authReply := Net.AuthToken "token";
     Net.patchReply := fun _ => Net.PatchThrows;
     Net.postReply := fun _ => Net.PostNotOk |}.

End SamplePocketbase.

(* ===================================================================== *)
(** ** The usage snapshot *)
(* ===================================================================== *)

(** The value that [getUsageSnapshot] reports for one model. *)
Record ModelUsage : Type := mkModelUsage {
  second_requests : Z;
  minute_requests : Z;
  minute_tokens_count : Z;
  minute_tokens_windowStart : Z;
  day_requests : Z;
  day_windowMs : Z;
  month_requests_count : Z;
  month_requests_resetAt : Z;
  month_requests_resetInMs : Z;
  month_tokens_count : Z;
  month_tokens_resetAt : Z;
  month_tokens_resetInMs : Z
}.

(** The object literal [out[model] = {...}] for a maintained bucket. *)
Definition usageOf (now : Z) (usage : UsageBucket) : ModelUsage :=
  {| second_requests := Z.of_nat (length (secondWindowTimestamps usage));
     minute_requests := Z.of_nat (length (minuteWindowTimestamps usage));
     minute_tokens_count := minuteTokenCount usage;
     minute_tokens_windowStart := minuteTokenWindowStart usage;
     day_requests := Z.of_nat (length (dayWindowTimestamps usage));
     day_windowMs := 86400000;
     month_requests_count := monthRequestCount usage;
     month_requests_resetAt := monthRequestResetAt usage;
     month_requests_resetInMs := Z.max 0 (monthRequestResetAt usage - now);
     month_tokens_count := monthTokenCount usage;
     month_tokens_resetAt := monthTokenResetAt usage;
     month_tokens_resetInMs := Z.max 0 (monthTokenResetAt usage - now) |}.

(** The four maintenance calls of [getUsageSnapshot], made through the
    references that [entries()] yields: every bucket of the strategy is
    maintained in place. *)
Definition maintainEntries (tz clk now : Z) (u : UsageStrategy) : UsageStrategy :=
  match u with
  | RAMUsageStrategy map => RAMUsageStrategy (maintain tz clk now <$> map)
  | pocketbaseUsageStrategy pb =>
      pocketbaseUsageStrategy
        {| pb_map := maintain tz clk now <$> pb_map pb;
           pb_recordIds := pb_recordIds pb;
           pb_changed := pb_changed pb;
           pb_auth := pb_auth pb;
           pb_disposed := pb_disposed pb;
           pb_label := pb_label pb |}
  end.

(** [RequestQueuer.getUsageSnapshot]: the own properties of the record
    [out] that it returns, and the usage strategy after the call.  [out]
    is the object literal [{}]: the assignment [out[model] = {...}] for
    the name [__proto__] sets the prototype of [out] and adds no
    property. *)
Definition getUsageSnapshot (tz clk now : Z) (u : UsageStrategy)
    : gmap string ModelUsage * UsageStrategy :=
  let u' := maintainEntries tz clk now u in
  (fold_left
     (fun out kv =>
        if bool_decide (fst kv = "__proto__"%string) then out
        else <[fst kv := usageOf now (snd kv)]> out)
     (entries u') ∅,
   u').

(** [RequestQueuer.getQueueLength]. *)
Definition getQueueLength (q : RequestQueuer) : Z := Z.of_nat (length (queue q)).

(* ===================================================================== *)
(** ** The router of [index.ts] *)
(* ===================================================================== *)

(** A [RequestQueuer] object: its options and its mutable fields. *)
Record Queuer : Type := mkQueuerObject {
  q_opts : QueuerOptions;
  q_state : RequestQueuer
}.

Definition MAX_SAFE_INTEGER : Z := 9007199254740991.

(** The [for] loop of [getLeastLoadedIndex] from index [i] on. *)
Fixpoint leastLoadedFrom (i : nat) (min : Z) (idx : nat) (queues : list Queuer) : nat :=
  match queues with
  | [] => idx
  | q :: rest =>
      let len := getQueueLength (q_state q) in
      if len <? min then leastLoadedFrom (S i) len i rest
      else leastLoadedFrom (S i) min idx rest
  end.

(** [getLeastLoadedIndex]; [None] is [-1]. *)
Definition getLeastLoadedIndex (queues : list Queuer) : option nat :=
  match queues with
  | [] => None
  | _ :: _ => Some (leastLoadedFrom 0 MAX_SAFE_INTEGER 0 queues)
  end.

(** [a < b] on values that are numbers or [+Infinity]. *)
Definition ltMinWait (a b : MinWait) : bool :=
  match a, b with
  | Finite x, Finite y => x <? y
  | Finite _, Infinity => true
  | Infinity, _ => false
  end.

(** What [bootstrap] and [rebuild] make of one key configuration. *)
Record KeyConfig : Type := mkKeyConfig {
  kc_key : string;
  kc_defaultLimits : option (list RateLimitConfig);
  kc_modelLimits : option (gmap string (list RateLimitConfig));
  kc_delayMs : option Z;
  kc_label : option string
}.

(** The options of [new RequestQueuer({...})] in [bootstrap] and
    [rebuild]. *)
Definition queuerOptionsOf (kc : KeyConfig) : QueuerOptions :=
  let hasDefault := match kc_defaultLimits kc with Some (_ :: _) => true | _ => false end in
  let hasModel := match kc_modelLimits kc with
                  | Some ml => negb (bool_decide (ml = ∅))
                  | None => false
                  end in
  let lbl := Some (default "default"%string (truthyString (kc_label kc))) in
  if hasDefault || hasModel then
    {| defaultLimits := kc_defaultLimits kc;
       modelLimits := kc_modelLimits kc;
       fallbackDelayMs := None;
       label := lbl |}
  else
    match kc_delayMs kc with
    | Some d =>
        {| defaultLimits := None;
           modelLimits := None;
           fallbackDelayMs := Some d;
           label := lbl |}
    | None =>
        {| defaultLimits := None;
           modelLimits := None;
           fallbackDelayMs := None;
           label := lbl |}
    end.

Section Router.

Variable tz : Z.

(** The clock readings, taken to be the same for every queuer that one
    selection asks. *)
Variables clk now : Z.

(** The number of turns granted to each replay of the estimator. *)
Variable fuel : nat.

(** [q.getEstimatedExecMs()] in whole milliseconds. *)
Variable execMs : RequestQueuer -> Z.

(** [estimateTokenCount] of the package [tokenx]. *)
Variable estimateTokenCount : string -> Z.

(** The type of provider clients. *)
Variable Client : Type.

(** The object that [chooseQueue] returns; the queue is given by its index
    in the provider's array. *)
Record Selection : Type := mkSelection {
  sel_client : option Client;
  sel_index : nat;
  sel_estimatedWaitMs : MinWait
}.

(** The [for] loop of [chooseQueue] from index [i] on; [None] when a replay
    used up its turns. *)
Fixpoint bestFrom (model : string) (tokensNeeded : Z) (i : nat)
    (bestIdx : option nat) (bestWait : MinWait) (queues : list Queuer)
    : option (option nat * MinWait) :=
  match queues with
  | [] => Some (bestIdx, bestWait)
  | q :: rest =>
      match estimateWaitMs tz (q_opts q) clk now (execMs (q_state q)) fuel
              (q_state q) (Some model) tokensNeeded with
      | None => None
      | Some wait =>
          if ltMin (Num wait) bestWait
          then bestFrom model tokensNeeded (S i) (Some i) (Finite wait) rest
          else bestFrom model tokensNeeded (S i) bestIdx bestWait rest
      end
  end.

(** What [chooseQueue] returns for a provider by the own properties of
    the two tables: the outer [None] when a replay used up its turns, the
    inner [None] for [null].  The reads of a provider name that a plain
    object inherits, and the TypeError of a model name, are in
    [Throwing.chooseQueue] below. *)
Definition chooseQueue (queuesByProvider : gmap string (list Queuer))
    (clientsByProvider : gmap string (list Client))
    (provider model : string) (tokenText : option string)
    : option (option Selection) :=
  match queuesByProvider !! provider, clientsByProvider !! provider with
  | Some (q :: qs), Some (c :: cs) =>
      let providerQueues := q :: qs in
      let providerClients := c :: cs in
      let tokensNeeded :=
        match truthyString tokenText with
        | Some text => estimateTokenCount text
        | None => 0
        end in
      match bestFrom model tokensNeeded 0 None Infinity providerQueues with
      | None => None
      | Some (bestIdx, bestWait) =>
          let bestIdx :=
            match bestIdx with
            | Some i => Some i
            | None => getLeastLoadedIndex providerQueues
            end in
          match bestIdx with
          | None => Some None
          | Some i =>
              Some (Some {| sel_client := providerClients !! i;
                            sel_index := i;
                            sel_estimatedWaitMs := bestWait |})
          end
      end
  | _, _ => Some None
  end.

End Router.

Arguments mkSelection {Client}.
Arguments sel_client {Client}.
Arguments sel_index {Client}.
Arguments sel_estimatedWaitMs {Client}.
Arguments chooseQueue tz clk now fuel execMs estimateTokenCount {Client}.

(* ===================================================================== *)
(** ** Notions used in the further properties *)
(* ===================================================================== *)

(** The timestamps of a window are in ascending order. *)
Definition ascending (arr : list Z) : Prop := StronglySorted Z.le arr.

(** The timestamps of a window are newer than [now - len] and not later
    than [now]. *)
Definition within (len now : Z) (arr : list Z) : Prop :=
  Forall (fun t => now - len < t <= now) arr.

(** A bucket as the queuer keeps it: windows in ascending order with
    nothing later than [now], and counters that are not negative. *)
Record wellFormed (now : Z) (b : UsageBucket) : Prop := mkWellFormed {
  wf_second : ascending (secondWindowTimestamps b);
  wf_minute : ascending (minuteWindowTimestamps b);
  wf_day : ascending (dayWindowTimestamps b);
  wf_second_past : Forall (fun t => t <= now) (secondWindowTimestamps b);
  wf_minute_past : Forall (fun t => t <= now) (minuteWindowTimestamps b);
  wf_day_past : Forall (fun t => t <= now) (dayWindowTimestamps b);
  wf_monthTokens : 0 <= monthTokenCount b;
  wf_monthRequests : 0 <= monthRequestCount b;
  wf_minuteTokens : 0 <= minuteTokenCount b
}.

(** The usage that a bucket holds is within a limit. *)
Definition respects (b : UsageBucket) (l : RateLimitConfig) : Prop :=
  match type l with
  | RPS => Z.of_nat (length (secondWindowTimestamps b)) <= limit l
  | RPm => Z.of_nat (length (minuteWindowTimestamps b)) <= limit l
  | RPD => Z.of_nat (length (dayWindowTimestamps b)) <= limit l
  | TPM => monthTokenCount b <= limit l
  | TPm => minuteTokenCount b <= limit l
  | RPM => monthRequestCount b <= limit l
  end.

(** The items that a run of effects settles, resolved or rejected, in
    order. *)
Fixpoint settledItems {T : Type} (effects : list (Effect T)) : list QueueItem :=
  match effects with
  | [] => []
  | Resolve item _ :: rest | Reject item _ :: rest => item :: settledItems rest
  | _ :: rest => settledItems rest
  end.

(** The pauses of a run of effects, in order. *)
Fixpoint delays {T : Type} (effects : list (Effect T)) : list Z :=
  match effects with
  | [] => []
  | Delay ms :: rest => ms :: delays rest
  | _ :: rest => delays rest
  end.

(* ===================================================================== *)
(** ** Loading the remote records *)
(* ===================================================================== *)

(** An element of the list that the remote end answers to [bootstrap]:
    [item_key] is [it.key] when it is a string, [item_data] the bucket that
    [parseBucket] makes of [it.data] ([None] when the data is missing or
    is not of the shape of a bucket), [item_id] is [it.id] when it is a
    string. *)
Record RemoteItem : Type := mkRemoteItem {
  item_key : option string;
  item_data : option UsageBucket;
  item_id : option string
}.

(** [key.startsWith(p)]. *)
Definition startsWith (p key : string) : bool :=
  bool_decide (is_Some (stripPrefix p key)).

(** The body of [for (const it of items)] in [bootstrap]. *)
Definition loadRecord (pb : PocketbaseState) (it : RemoteItem) : PocketbaseState :=
  match truthyString (item_key it), item_data it with
  | Some key, Some bucket =>
      let foreign :=
        match truthyString (pb_label pb) with
        | Some l => negb (startsWith (String.append l "::") key)
        | None => false
        end in
      if foreign then pb
      else
        {| pb_map := <[key := bucket]> (pb_map pb);
           pb_recordIds :=
             match item_id it with
             | Some recId => <[key := recId]> (pb_recordIds pb)
             | None => pb_recordIds pb
             end;
           pb_changed := pb_changed pb;
           pb_auth := pb_auth pb;
           pb_disposed := pb_disposed pb;
           pb_label := pb_label pb |}
  | _, _ => pb
  end.

(** The loop of [bootstrap] over the records that were listed. *)
Definition loadRecords (items : list RemoteItem) (pb : PocketbaseState)
    : PocketbaseState :=
  fold_left loadRecord items pb.

(** Every key of the map of a pocketbase strategy is the key that
    [makeKey] gives to some model key. *)
Definition keysLabelled (u : UsageStrategy) : Prop :=
  match u with
  | RAMUsageStrategy _ => True
  | pocketbaseUsageStrategy pb =>
      forall key, is_Some (pb_map pb !! key) ->
                  exists modelKey, key = makeKey (pb_label pb) modelKey
  end.

(** The key that an event of [persist] is about, and the bucket that was
    sent with it. *)
Definition eventKey (ev : Net.Event) : string :=
  match ev with
  | Net.Patched _ key _ | Net.Created key _ | Net.Logged key => key
  end.

Definition eventData (ev : Net.Event) : option UsageBucket :=
  match ev with
  | Net.Patched _ _ data | Net.Created _ data => Some data
  | Net.Logged _ => None
  end.

(** [w] is the least of the numbers [ws], and [i] the first index that
    holds it. *)
Definition firstLeast (ws : list Z) (i : nat) (w : Z) : Prop :=
  ws !! i = Some w
  /\ forall k w', ws !! k = Some w' -> w <= w' /\ ((k < i)%nat -> w < w').

Module SampleRouter.

(** A provider with two keys: the first has just served a request of
    model "m", the second is idle. *)
Definition busy : Queuer :=
  {| q_opts := Sample.onePerSecond;
     q_state := Sample.queuerOf [] (RAMUsageStrategy {[ "m"%string := Sample.justUsed ]}) |}.

Definition idle : Queuer :=
  {| q_opts := Sample.onePerSecond;
     q_state := Sample.queuerOf [] (RAMUsageStrategy ∅) |}.

Definition queuesByProvider : gmap string (list Queuer) :=
  {[ "mistral"%string := [busy; idle] ]}.

Definition clientsByProvider : gmap string (list string) :=
  {[ "mistral"%string := ["key-1"%string; "key-2"%string] ]}.

End SampleRouter.

(** The limit can admit a request of [tokens] tokens at all: a limit on
    requests admits at least one, a limit on tokens at least the tokens
    of the request. *)
Definition servable (tokens : Z) (l : RateLimitConfig) : Prop :=
  match type l with
  | TPM | TPm => Z.max 0 tokens <= limit l
  | RPS | RPm | RPD | RPM => 1 <= limit l
  end.

(* ===================================================================== *)
(** ** Reads of plain objects, and the exceptions they lead to *)
(* ===================================================================== *)

Module JsObject.

(** What a plain object inherits under a name of [Object.prototype]: a
    method, with its [length], or the accessor [__proto__], whose value
    is the prototype, an object without [length]. *)
Inductive Inherited : Type :=
  | InheritedFunction (length : Z)
  | InheritedPrototype.

(** The properties of [Object.prototype]; [constructor] is the function
    [Object]. *)
Definition objectPrototype : list (string * Inherited) :=
  [ ("constructor"%string, InheritedFunction 1);
    ("__defineGetter__"%string, InheritedFunction 2);
    ("__defineSetter__"%string, InheritedFunction 2);
    ("hasOwnProperty"%string, InheritedFunction 1);
    ("__lookupGetter__"%string, InheritedFunction 1);
    ("__lookupSetter__"%string, InheritedFunction 1);
    ("isPrototypeOf"%string, InheritedFunction 1);
    ("propertyIsEnumerable"%string, InheritedFunction 1);
    ("toString"%string, InheritedFunction 0);
    ("valueOf"%string, InheritedFunction 0);
    ("__proto__"%string, InheritedPrototype);
    ("toLocaleString"%string, InheritedFunction 0) ].

Definition inherited (name : string) : option Inherited :=
  snd <$> List.find (fun p => bool_decide (fst p = name)) objectPrototype.

(** The value of [obj[name]]. *)
Inductive Property (A : Type) : Type :=
  | Own (a : A)
  | FromPrototype (i : Inherited)
  | Missing.

Arguments Own {A} a.
Arguments FromPrototype {A} i.
Arguments Missing {A}.

(** [obj[name]] on a plain object with the own properties [own]. *)
Definition get {A : Type} (own : gmap string A) (name : string) : Property A :=
  match own !! name with
  | Some a => Own a
  | None =>
      match inherited name with
      | Some i => FromPrototype i
      | None => Missing
      end
  end.

(** [p && p.length] as a condition, for a property that holds an array
    when it is an own property. *)
Definition truthyLength {A : Type} (p : Property (list A)) : bool :=
  match p with
  | Own (_ :: _) => true
  | FromPrototype (InheritedFunction n) => negb (n =? 0)
  | _ => false
  end.

End JsObject.

(** How a call ends: with a value, or with a TypeError. *)
Inductive Completion (A : Type) : Type :=
  | Returns (a : A)
  | ThrowsTypeError.

Arguments Returns {A} a.
Arguments ThrowsTypeError {A}.

#[global] Instance Completion_ret : MRet Completion := fun A a => Returns a.

#[global] Instance Completion_bind : MBind Completion :=
  fun A B f c =>
    match c with
    | Returns a => f a
    | ThrowsTypeError => ThrowsTypeError
    end.

(** The call returns. *)
Definition returns {A : Type} (c : Completion A) : Prop :=
  match c with
  | Returns _ => True
  | ThrowsTypeError => False
  end.

Module Throwing.

(** [RequestQueuer.getActiveLimits].  When [ml[modelName]] is a method
    that the object inherits and its [length] is not 0, the method is
    taken for the limits of the model, and the call of [.find] (inside
    [dl.map], when [dl] is not empty) or of [.filter] on it throws. *)
Definition getActiveLimits (opts : QueuerOptions) (modelName : option string)
    : Completion (option (list RateLimitConfig)) :=
  let dl := default [] (defaultLimits opts) in
  let ml := default ∅ (modelLimits opts) in
  let defaults := match dl with [] => None | _ => Some dl end in
  match truthyString modelName with
  | None => Returns defaults
  | Some m =>
      match JsObject.get ml m with
      | JsObject.Own (l :: ls) =>
          let modelSpecificLimits := l :: ls in
          Returns
            (Some (List.map (overrideOf modelSpecificLimits) dl ++
                   List.filter
                     (fun modelLimit =>
                        negb (List.existsb
                                (fun defaultLimit =>
                                   bool_decide (type defaultLimit = type modelLimit))
                                dl))
                     modelSpecificLimits))
      | JsObject.FromPrototype (JsObject.InheritedFunction n) =>
          if n =? 0 then Returns defaults else ThrowsTypeError
      | _ => Returns defaults
      end
  end.

Section Queuer.

Variable tzOffsetMs : Z.
Variable opts : QueuerOptions.
Variable estimateTokenCount : string -> Z.

(** [RequestQueuer.computeWaitMs]. *)
Definition computeWaitMs (clk now : Z) (model : option string)
    (tokensNeeded : Z) (u : UsageStrategy)
    : Completion (JsNumber * UsageStrategy) :=
  active ← getActiveLimits opts model;
  match active with
  | None | Some [] => Returns (Num 0, u)
  | Some active =>
      let '(bucket, u1) :=
        getBucket (makeInitial tzOffsetMs clk) (bucketKey model) u in
      let bucket' := maintain tzOffsetMs clk now bucket in
      Returns (waitLoop now tokensNeeded bucket' active,
               assign (bucketKey model) bucket' u1)
  end.

(** [RequestQueuer.add], up to its call of [processQueue]: the promise it
    returns is rejected with the TypeError when [getActiveLimits]
    throws, and then nothing is executed or queued. *)
Definition add (newId : string) (tokenEstimateText : option string)
    (model : option string) (q : RequestQueuer) : Completion Added :=
  let tokens := estimateTokenCount <$> truthyString tokenEstimateText in
  activeLimits ← getActiveLimits opts model;
  if noLimits activeLimits
     && negb (bool_decide (is_Some (truthyNumber (fallbackDelayMs opts))))
  then Returns ExecutedDirectly
  else
    Returns
      (Enqueued
         {| queue := queue q ++ [ {| id := newId; tokens := tokens; modelName := model |} ];
            isProcessing := isProcessing q;
            usage := usage q;
            execEwmaMs := execEwmaMs q;
            execSamples := execSamples q |}).

Variables clk now : Z.
Variable perItemExecMs : Z.

(** [computeWaitSim] of [estimateWaitMs]. *)
Definition computeWaitSim (t : Z) (m : option string) (tokens : Z)
    (usageSim : gmap string UsageBucket)
    : Completion (JsNumber * gmap string UsageBucket) :=
  limits ← getActiveLimits opts m;
  match limits with
  | None | Some [] => Returns (Num 0, usageSim)
  | Some limits =>
      let '(bucket, sim1) := getBucketSim tzOffsetMs clk now m usageSim in
      let bucket' := maintainSim tzOffsetMs clk t bucket in
      Returns (waitLoop t tokens bucket' limits, <[bucketKey m := bucket']> sim1)
  end.

(** The [for] loop of the simulation from index [i] on. *)
Fixpoint simScan (tCursor : Z) (i : nat) (minWait : MinWait)
    (items : list SimItem) (usageSim : gmap string UsageBucket)
    : Completion (option nat * MinWait * gmap string UsageBucket) :=
  match items with
  | [] => Returns (None, minWait, usageSim)
  | item :: rest =>
      '(wait, sim') ←
        computeWaitSim tCursor (sim_modelName item) (sim_tokens item) usageSim;
      if le0 wait then Returns (Some i, minWait, sim')
      else simScan tCursor (S i) (lower wait minWait) rest sim'
  end.

(** [while (simQueue.length) {...} return 0], at most [fuel] turns;
    [None] when the turns are used up. *)
Fixpoint simLoop (fuel : nat) (simQueue : list SimItem)
    (usageSim : gmap string UsageBucket) (tCursor : Z) : option (Completion Z) :=
  match fuel with
  | O => None
  | S fuel' =>
      match simQueue with
      | [] => Some (Returns 0)
      | _ :: _ =>
          match simScan tCursor 0 Infinity simQueue usageSim with
          | ThrowsTypeError => Some ThrowsTypeError
          | Returns (None, minWait, sim') =>
              simLoop fuel' simQueue sim' (tCursor + sleepMs minWait)
          | Returns (Some i, _, sim') =>
              match splice i simQueue with
              | (None, _) => None   (* not reached: [i] is an index of [simQueue] *)
              | (Some next, rest) =>
                  if sim_hypothetical next then Some (Returns (Z.max 0 (tCursor - now)))
                  else
                    let sim'' := recordUsageSim tzOffsetMs clk now tCursor
                                   (sim_tokens next) (sim_modelName next) sim' in
                    let tCursor' := tCursor + Z.max 0 perItemExecMs in
                    let tCursor'' :=
                      match truthyNumber (fallbackDelayMs opts), rest with
                      | Some d, _ :: _ => tCursor' + d
                      | _, _ => tCursor'
                      end in
                    simLoop fuel' rest sim'' tCursor''
              end
          end
      end
  end.

(** [RequestQueuer.estimateWaitMs]; [perItemExecMs] is the value of
    [getEstimatedExecMs()] when it is a whole number of milliseconds. *)
Definition estimateWaitMs (fuel : nat) (q : RequestQueuer)
    (m : option string) (tokensNeeded : Z) : option (Completion Z) :=
  match getActiveLimits opts m with
  | ThrowsTypeError => Some ThrowsTypeError
  | Returns activeForThis =>
      if noLimits activeForThis
         && negb (bool_decide (is_Some (truthyNumber (fallbackDelayMs opts))))
      then Some (Returns 0)
      else
        simLoop fuel (simQueueOf (queue q) m tokensNeeded)
          (copyUsage (entries (usage q))) now
  end.

End Queuer.

Section Router.

Variable tz : Z.

(** The clock readings, taken to be the same for every queuer that one
    selection asks. *)
Variables clk now : Z.
Variable fuel : nat.
Variable execMs : RequestQueuer -> Z.
Variable estimateTokenCount : string -> Z.
Variable Client : Type.

(** The [for] loop of [chooseQueue] over an array of queuers, from index
    [i] on. *)
Fixpoint bestFrom (model : string) (tokensNeeded : Z) (i : nat)
    (bestIdx : option nat) (bestWait : MinWait) (queues : list Queuer)
    : option (Completion (option nat * MinWait)) :=
  match queues with
  | [] => Some (Returns (bestIdx, bestWait))
  | q :: rest =>
      match estimateWaitMs tz (q_opts q) clk now (execMs (q_state q)) fuel
              (q_state q) (Some model) tokensNeeded with
      | None => None
      | Some ThrowsTypeError => Some ThrowsTypeError
      | Some (Returns wait) =>
          if ltMin (Num wait) bestWait
          then bestFrom model tokensNeeded (S i) (Some i) (Finite wait) rest
          else bestFrom model tokensNeeded (S i) bestIdx bestWait rest
      end
  end.

(** [chooseQueue]; the two tables are plain objects, given by their own
    properties.  The outer [None] when a replay used up its turns;
    [Returns None] for [null].  When [queuesByProvider[provider]] is an
    inherited method that passes the guard, its element 0 is [undefined]
    and the call [q.estimateWaitMs] throws; when
    [clientsByProvider[provider]] is one, the client selected is
    [undefined]. *)
Definition chooseQueue (queuesByProvider : gmap string (list Queuer))
    (clientsByProvider : gmap string (list Client))
    (provider model : string) (tokenText : option string)
    : option (Completion (option (Selection Client))) :=
  let providerQueues := JsObject.get queuesByProvider provider in
  let providerClients := JsObject.get clientsByProvider provider in
  if negb (JsObject.truthyLength providerQueues)
     || negb (JsObject.truthyLength providerClients)
  then Some (Returns None)
  else
    let tokensNeeded :=
      match truthyString tokenText with
      | Some text => estimateTokenCount text
      | None => 0
      end in
    match providerQueues with
    | JsObject.Own queues =>
        match bestFrom model tokensNeeded 0 None Infinity queues with
        | None => None
        | Some ThrowsTypeError => Some ThrowsTypeError
        | Some (Returns (bestIdx, bestWait)) =>
            let bestIdx :=
              match bestIdx with
              | Some i => Some i
              | None => getLeastLoadedIndex queues
              end in
            match bestIdx with
            | None => Some (Returns None)
            | Some i =>
                Some (Returns
                        (Some {| sel_client :=
                                   match providerClients with
                                   | JsObject.Own clients => clients !! i
                                   | _ => None
                                   end;
                                 sel_index := i;
                                 sel_estimatedWaitMs := bestWait |}))
            end
        end
    | _ => Some ThrowsTypeError
    end.

(** The loop [for (const t of targets)] of the handlers of [/ask] and
    [/analyze-image]: the best target so far with its selection.  A
    TypeError of [chooseQueue] ends the loop: the handler catches it and
    answers 500. *)
Fixpoint bestTarget (queuesByProvider : gmap string (list Queuer))
    (clientsByProvider : gmap string (list Client))
    (tokenText : option string)
    (best : option (string * string * Selection Client))
    (targets : list (string * string))
    : option (Completion (option (string * string * Selection Client))) :=
  match targets with
  | [] => Some (Returns best)
  | (provider, model) :: rest =>
      match chooseQueue queuesByProvider clientsByProvider provider model tokenText with
      | None => None
      | Some ThrowsTypeError => Some ThrowsTypeError
      | Some (Returns None) =>
          bestTarget queuesByProvider clientsByProvider tokenText best rest
      | Some (Returns (Some sel)) =>
          let better :=
            match best with
            | None => true
            | Some (_, _, b) =>
                ltMinWait (sel_estimatedWaitMs sel) (sel_estimatedWaitMs b)
            end in
          bestTarget queuesByProvider clientsByProvider tokenText
            (if better then Some (provider, model, sel) else best) rest
      end
  end.

End Router.

Arguments chooseQueue tz clk now fuel execMs estimateTokenCount {Client}.
Arguments bestTarget tz clk now fuel execMs estimateTokenCount {Client}.

End Throwing.

(* ===================================================================== *)
(** * Properties *)
(* ===================================================================== *)

(* --------------------------------------------------------------------- *)
(** ** The calendar *)
(* --------------------------------------------------------------------- *)

Module CalendarFacts.
Import Calendar.

Lemma DayFromYear_bounds y :
  146097 * (y - 1970) - 1000 <= 400 * DayFromYear y <= 146097 * (y - 1970) + 1000.
Proof. unfold DayFromYear. Z.div_mod_to_equations. lia. Qed.

Lemma DayFromYear_step y :
  DayFromYear y + 365 <= DayFromYear (y + 1) <= DayFromYear y + 366.
Proof. unfold DayFromYear. Z.div_mod_to_equations. lia. Qed.

Lemma DayFromYear_lt y1 y2 : y1 < y2 -> DayFromYear y1 < DayFromYear y2.
Proof.
  intros H. pose proof (DayFromYear_bounds y1). pose proof (DayFromYear_bounds y2). lia.
Qed.

Lemma YearFromDay_spec d :
  DayFromYear (YearFromDay d) <= d < DayFromYear (YearFromDay d + 1).
Proof.
  unfold YearFromDay.
  set (y0 := 1970 + 400 * d / 146097).
  assert (Hy0 : 146097 * (y0 - 1970) <= 400 * d < 146097 * (y0 - 1970) + 146097).
  { unfold y0. Z.div_mod_to_equations. lia. }
  clearbody y0.
  pose proof (DayFromYear_bounds y0). pose proof (DayFromYear_bounds (y0 - 1)).
  pose proof (DayFromYear_bounds (y0 + 1)). pose proof (DayFromYear_bounds (y0 + 2)).
  destruct (Z.ltb_spec d (DayFromYear y0)).
  - replace (y0 - 1 + 1) with y0 by lia. lia.
  - destruct (Z.leb_spec (DayFromYear (y0 + 1)) d).
    + replace (y0 + 1 + 1) with (y0 + 2) by lia. lia.
    + lia.
Qed.

Lemma YearFromDay_unique d y :
  DayFromYear y <= d < DayFromYear (y + 1) -> YearFromDay d = y.
Proof.
  intros Hy. pose proof (YearFromDay_spec d) as Hs.
  destruct (Z.lt_trichotomy (YearFromDay d) y) as [Hlt | [Heq | Hgt]]; [| done |].
  - destruct (Z.eq_dec (YearFromDay d + 1) y) as [Heq | Hne].
    + rewrite Heq in Hs. lia.
    + pose proof (DayFromYear_lt (YearFromDay d + 1) y). lia.
  - destruct (Z.eq_dec (y + 1) (YearFromDay d)) as [Heq | Hne].
    + rewrite Heq in Hy. lia.
    + pose proof (DayFromYear_lt (y + 1) (YearFromDay d)). lia.
Qed.

Lemma monthStart_bracket leap diy :
  0 <= diy < monthStart leap 12 ->
  let m := MonthFromDayInYear leap diy in
  0 <= m <= 11 /\ monthStart leap m <= diy < monthStart leap (m + 1).
Proof.
  intros H. unfold MonthFromDayInYear.
  repeat match goal with
         | |- context [ ?a <? ?b ] => destruct (Z.ltb_spec a b)
         end; cbn zeta; split; try lia;
    destruct leap; cbn in *;
    match goal with
    | |- context [ monthStart ?b ?x ] =>
        let v := eval vm_compute in (monthStart b x) in
        change (monthStart b x) with v
    end; lia.
Qed.

Lemma DaysInYear_monthStart y :
  DaysInYear y = monthStart (InLeapYear y) 12.
Proof.
  unfold InLeapYear. pose proof (DayFromYear_step y).
  unfold DaysInYear in *.
  destruct (Z.eqb_spec (DayFromYear (y + 1) - DayFromYear y) 366); cbn; [lia|].
  unfold DayFromYear in *. Z.div_mod_to_equations. lia.
Qed.

Lemma Day_bounds t : Day t * msPerDay <= t < (Day t + 1) * msPerDay.
Proof. unfold Day, msPerDay. Z.div_mod_to_equations. lia. Qed.

Lemma monthStart_le_year leap m : 0 <= m <= 12 -> monthStart leap m <= monthStart leap 12.
Proof.
  intros H. unfold monthStart.
  repeat match goal with
         | |- context [ ?a <=? ?b ] => destruct (Z.leb_spec a b)
         | |- context [ ?a =? ?b ] => destruct (Z.eqb_spec a b)
         end; destruct leap; lia.
Qed.

(** The day number of the first day of the month after the one of day [d]. *)
Lemma nextMonth_day clk :
  let d := Day clk in
  let y := YearFromDay d in
  let m := getUTCMonth clk in
  d < MakeDay (getUTCFullYear clk) (m + 1) 1 /\
  MakeDay (getUTCFullYear clk) (m + 1) 1 <= DayFromYear (y + 1).
Proof.
  intros d y m. unfold getUTCFullYear. fold d. fold y.
  pose proof (YearFromDay_spec d) as Hy. fold y in Hy.
  assert (Hdiy : 0 <= d - DayFromYear y < monthStart (InLeapYear y) 12).
  { rewrite <- DaysInYear_monthStart. unfold DaysInYear. lia. }
  pose proof (monthStart_bracket _ _ Hdiy) as Hm. cbn zeta in Hm.
  change (MonthFromDayInYear (InLeapYear y) (d - DayFromYear y)) with m in Hm.
  destruct Hm as [Hm1 Hm2].
  unfold MakeDay.
  destruct (Z.eq_dec m 11) as [E | NE].
  - rewrite E. change ((11 + 1) / 12) with 1. change ((11 + 1) mod 12) with 0.
    change (monthStart (InLeapYear (y + 1)) 0) with 0.
    rewrite E in Hm2. lia.
  - assert ((m + 1) / 12 = 0) as -> by (Z.div_mod_to_equations; lia).
    assert ((m + 1) mod 12 = m + 1) as -> by (Z.div_mod_to_equations; lia).
    rewrite Z.add_0_r.
    pose proof (monthStart_le_year (InLeapYear y) (m + 1)).
    rewrite <- DaysInYear_monthStart in *. unfold DaysInYear in *. lia.
Qed.

Lemma startOfNextUTCMonth_after clk : clk < startOfNextUTCMonth clk.
Proof.
  unfold startOfNextUTCMonth, utcMidnight.
  pose proof (nextMonth_day clk) as [H _]. cbn zeta in H.
  pose proof (Day_bounds clk). unfold msPerDay in *. nia.
Qed.

Lemma MonthFromDayInYear_unique leap diy m :
  0 <= m <= 11 -> monthStart leap m <= diy < monthStart leap (m + 1) ->
  MonthFromDayInYear leap diy = m.
Proof.
  intros Hm H.
  assert (m = 0 \/ m = 1 \/ m = 2 \/ m = 3 \/ m = 4 \/ m = 5 \/ m = 6 \/ m = 7
          \/ m = 8 \/ m = 9 \/ m = 10 \/ m = 11) as Hcases by lia.
  unfold MonthFromDayInYear.
  repeat match goal with
         | |- context [ monthStart ?b ?x ] =>
             is_var b; destruct b
         end;
  repeat match goal with
         | |- context [ monthStart ?b ?x ] =>
             let v := eval vm_compute in (monthStart b x) in
             change (monthStart b x) with v
         end;
  repeat match goal with
         | |- context [ ?a <? ?b ] => destruct (Z.ltb_spec a b)
         end; try lia;
  repeat destruct Hcases as [-> | Hcases]; try subst m;
  repeat match goal with
         | H : context [ monthStart ?b ?x ] |- _ =>
             let v := eval vm_compute in (monthStart b x) in
             change (monthStart b x) with v in H
         end; lia.
Qed.

Lemma Day_unique t d : d * msPerDay <= t < (d + 1) * msPerDay -> Day t = d.
Proof. unfold Day, msPerDay. intros H. Z.div_mod_to_equations. lia. Qed.

(** Every instant from [clk] up to the start of the next UTC month lies
    in the UTC year and month of [clk]. *)
Lemma startOfNextUTCMonth_same_month clk t :
  clk <= t < startOfNextUTCMonth clk ->
  getUTCFullYear t = getUTCFullYear clk /\ getUTCMonth t = getUTCMonth clk.
Proof.
  unfold startOfNextUTCMonth, utcMidnight. intros Ht.
  pose proof (nextMonth_day clk) as [H1 H2]. cbn zeta in H1, H2.
  set (N := MakeDay (getUTCFullYear clk) (getUTCMonth clk + 1) 1) in *.
  pose proof (Day_bounds clk) as Hc. pose proof (Day_bounds t) as Hd.
  pose proof (YearFromDay_spec (Day clk)) as Hy.
  set (y := YearFromDay (Day clk)) in *.
  assert (Day clk <= Day t < N) as Hdt by (unfold msPerDay in *; nia).
  assert (YearFromDay (Day t) = y) as Hyt by (apply YearFromDay_unique; lia).
  unfold getUTCFullYear. split; [done |].
  unfold getUTCMonth. rewrite Hyt. fold y.
  assert (Hdiy : 0 <= Day clk - DayFromYear y < monthStart (InLeapYear y) 12).
  { rewrite <- DaysInYear_monthStart. unfold DaysInYear. lia. }
  pose proof (monthStart_bracket _ _ Hdiy) as [Hm1 Hm2]. cbn zeta in Hm1, Hm2.
  set (m := MonthFromDayInYear (InLeapYear y) (Day clk - DayFromYear y)) in *.
  apply MonthFromDayInYear_unique; [done |].
  split; [lia |].
  assert (N = DayFromYear y + monthStart (InLeapYear y) (m + 1)) as HN.
  { unfold N, MakeDay, getUTCFullYear, getUTCMonth. fold y. fold m.
    destruct (Z.eq_dec m 11) as [E | NE].
    - rewrite E. change ((11 + 1) / 12) with 1. change ((11 + 1) mod 12) with 0.
      change (monthStart (InLeapYear (y + 1)) 0) with 0.
      change (11 + 1) with 12. rewrite <- DaysInYear_monthStart. unfold DaysInYear. lia.
    - assert ((m + 1) / 12 = 0) as -> by (Z.div_mod_to_equations; lia).
      assert ((m + 1) mod 12 = m + 1) as -> by (Z.div_mod_to_equations; lia).
      rewrite Z.add_0_r. lia. }
  lia.
Qed.
End CalendarFacts.

(* --------------------------------------------------------------------- *)
(** ** [startOfNextMonth] *)
(* --------------------------------------------------------------------- *)

(** The value of [startOfNextMonth] is the start of the next UTC month
    shifted by the zone offset: its arguments are read as a local date. *)
Lemma startOfNextMonth_offset tz clk :
  startOfNextMonth tz clk = startOfNextUTCMonth clk - tz.
Proof. reflexivity. Qed.

(** In a process whose zone is UTC the two coincide, and the value is in
    the future of the clock. *)
Lemma startOfNextMonth_in_UTC clk :
  startOfNextMonth 0 clk = startOfNextUTCMonth clk /\ clk < startOfNextMonth 0 clk.
Proof.
  rewrite startOfNextMonth_offset, Z.sub_0_r.
  split; [done | apply CalendarFacts.startOfNextUTCMonth_after].
Qed.

(** Outside UTC the reset-at value is never the start of the next UTC
    month. *)
Lemma startOfNextMonth_off_UTC tz clk :
  tz <> 0 -> startOfNextMonth tz clk <> startOfNextUTCMonth clk.
Proof. rewrite startOfNextMonth_offset. lia. Qed.

(** C5 (fails on the code).  In a process that runs two hours east of UTC,
    at 2024-01-31T23:00:00Z: the start of the next UTC month is
    2024-02-01T00:00:00Z, but a fresh bucket and a bucket whose monthly
    counters are reset both get the reset-at value 2024-01-31T22:00:00Z,
    which is not that instant and lies before the current time. *)
Theorem monthly_reset_at_in_local_zone :
  let tz := 7200000 in
  let clk := 1706742000000 in
  let fresh := makeInitial tz clk in
  let reset := maybeResetMonthlyRequests tz clk clk
                 (maybeResetMonthlyTokens tz clk clk fresh) in
  startOfNextUTCMonth clk = 1706745600000
  /\ monthTokenResetAt fresh = 1706738400000
  /\ monthRequestResetAt fresh = 1706738400000
  /\ monthTokenResetAt reset = 1706738400000
  /\ monthRequestResetAt reset = 1706738400000
  /\ monthTokenResetAt reset < clk.
Proof. vm_compute. repeat split; reflexivity. Qed.

(* --------------------------------------------------------------------- *)
(** ** Usage strategies: what a key sees *)
(* --------------------------------------------------------------------- *)

Lemma append_inj_r (p a b : string) : String.append p a = String.append p b -> a = b.
Proof. induction p as [| c p IH]; cbn; [done | intros [= H]; auto]. Qed.

Lemma makeKey_inj label k k' : makeKey label k = makeKey label k' -> k = k'.
Proof.
  unfold makeKey. destruct (truthyString label); [| done].
  intros H. apply append_inj_r in H. by apply append_inj_r in H.
Qed.

Lemma getBucket_fst init k u : fst (getBucket init k u) = default init (peek k u).
Proof.
  destruct u as [map | pb]; cbn.
  - by destruct (map !! k).
  - by destruct (pb_map pb !! makeKey (pb_label pb) k).
Qed.

Lemma getBucket_peek_eq init k u :
  peek k (snd (getBucket init k u)) = Some (default init (peek k u)).
Proof.
  destruct u as [map | pb]; cbn.
  - destruct (map !! k) eqn:E; cbn; [done | by rewrite lookup_insert_eq].
  - destruct (pb_map pb !! makeKey (pb_label pb) k) eqn:E; cbn;
      [done | by rewrite lookup_insert_eq].
Qed.

Lemma getBucket_peek_ne init k k' u :
  k <> k' -> peek k' (snd (getBucket init k u)) = peek k' u.
Proof.
  intros Hne. destruct u as [map | pb]; cbn.
  - destruct (map !! k); cbn; [done | by rewrite lookup_insert_ne].
  - destruct (pb_map pb !! makeKey (pb_label pb) k); cbn; [done |].
    rewrite lookup_insert_ne; [done |]. intros H. by apply makeKey_inj in H.
Qed.

Lemma getBucket_hit init k u b : peek k u = Some b -> getBucket init k u = (b, u).
Proof.
  destruct u as [map | pb]; cbn; intros H; by rewrite H.
Qed.

Lemma peek_assign_eq k b u : peek k (assign k b u) = Some b.
Proof. destruct u; cbn; by rewrite lookup_insert_eq. Qed.

Lemma peek_assign_ne k k' b u : k <> k' -> peek k' (assign k b u) = peek k' u.
Proof.
  intros Hne. destruct u as [map | pb]; cbn.
  - by rewrite lookup_insert_ne.
  - rewrite lookup_insert_ne; [done |]. intros H. by apply makeKey_inj in H.
Qed.

(** A write through the reference leaves the dirty set as it is. *)
Lemma isDirty_assign k k' b u : isDirty k' (assign k b u) = isDirty k' u.
Proof. by destruct u. Qed.

(** [getBucket] on a key that is present leaves the dirty set as it is. *)
Lemma isDirty_getBucket_hit init k k' u :
  is_Some (peek k u) -> isDirty k' (snd (getBucket init k u)) = isDirty k' u.
Proof. intros [b Hb]. by rewrite (getBucket_hit _ _ _ _ Hb). Qed.

(* --------------------------------------------------------------------- *)
(** ** The admission check against the table of the specification *)
(* --------------------------------------------------------------------- *)

Lemma fold_right_max_acc (a c : Z) (cs : list Z) :
  fold_right Z.max (Z.max a c) cs = Z.max c (fold_right Z.max a cs).
Proof. induction cs as [| x cs IH]; cbn; [lia | rewrite IH; lia]. Qed.

(** One turn of the loop adds the candidate of the table to the running
    maximum, when a triggered window is not empty. *)
Lemma limitWait_candidate now tokens b a l :
  match type l with RPS | RPm | RPD => 1 <= limit l | _ => True end ->
  limitWait now tokens b (Num a) l =
  Num (match candidateWait now tokens b l with
       | Some c => Z.max a c
       | None => a
       end).
Proof.
  unfold limitWait, candidateWait. destruct l as [ty lim]; cbn.
  destruct ty; intros Hpos;
    repeat match goal with
           | |- context [ ?x <=? ?y ] => destruct (Z.leb_spec x y)
           | |- context [ ?x <? ?y ] => destruct (Z.ltb_spec x y)
           | |- context [ decide ?P ] => destruct (decide P)
           end; try lia; try done;
    try (match goal with
         | |- context [ head ?ts ] => destruct ts; cbn in *; [lia | reflexivity]
         end).
Qed.

Lemma fold_limitWait_table now tokens b limits a :
  windowLimitsPositive limits ->
  fold_left (limitWait now tokens b) limits (Num a) =
  Num (fold_right Z.max a (omap (candidateWait now tokens b) limits)).
Proof.
  intros Hpos. revert a. induction Hpos as [| l limits Hl _ IH]; intros a; [done |].
  cbn [fold_left]. rewrite (limitWait_candidate _ _ _ _ _ Hl).
  destruct (candidateWait now tokens b l) as [c |] eqn:E; cbn; rewrite E, IH.
  - apply f_equal. cbn. by rewrite fold_right_max_acc.
  - done.
Qed.

(** On limits whose sliding windows admit at least one request, the loop of
    [computeWaitMs] computes the table of the specification. *)
Lemma waitLoop_table now tokens b limits :
  windowLimitsPositive limits ->
  waitLoop now tokens b limits = Num (tableWaitMs now tokens b limits).
Proof.
  intros Hpos. unfold waitLoop, tableWaitMs.
  by rewrite (fold_limitWait_table _ _ _ _ _ Hpos).
Qed.

Lemma computeWaitMs_fst tz opts clk now model tokens u :
  fst (computeWaitMs tz opts clk now model tokens u)
  = waitOf tz opts clk now model tokens (peek (bucketKey model) u).
Proof.
  unfold computeWaitMs, waitOf.
  destruct (getActiveLimits opts model) as [[| l ls] |]; [done | | done].
  pose proof (getBucket_fst (makeInitial tz clk) (bucketKey model) u) as H.
  destruct (getBucket (makeInitial tz clk) (bucketKey model) u) as [b u1].
  cbn in *. by rewrite H.
Qed.

(** The whole of [computeWaitMs] against the specification: nothing to wait
    for without limits, and otherwise the table on the maintained bucket. *)
Lemma computeWaitMs_no_limits tz opts clk now model tokens u :
  noLimits (getActiveLimits opts model) = true ->
  computeWaitMs tz opts clk now model tokens u = (Num 0, u).
Proof.
  unfold computeWaitMs.
  by destruct (getActiveLimits opts model) as [[| l ls] |].
Qed.

Lemma computeWaitMs_table tz opts clk now model tokens u active :
  getActiveLimits opts model = Some active ->
  windowLimitsPositive active ->
  fst (computeWaitMs tz opts clk now model tokens u) =
  Num (tableWaitMs now tokens
         (maintain tz clk now
            (default (makeInitial tz clk) (peek (bucketKey model) u)))
         active).
Proof.
  intros Hact Hpos. rewrite computeWaitMs_fst. unfold waitOf. rewrite Hact.
  destruct active as [| l ls]; [done |].
  by apply waitLoop_table.
Qed.

(** C1 (fails on the code).  With the limit [RPS: 0] and an empty one-second
    window the check returns [NaN]: neither the maximum of the table (no
    candidate exists, the table gives 0) nor a number that is at least 0. *)
Theorem computeWaitMs_zero_window_limit :
  let opts := {| defaultLimits := Some [ {| type := RPS; limit := 0 |} ];
                 modelLimits := None;
                 fallbackDelayMs := None;
                 label := None |} in
  let now := 1706742000000 in
  let fresh := maintain 0 now now (makeInitial 0 now) in
  fst (computeWaitMs 0 opts now now None 0 (RAMUsageStrategy ∅)) = NaN
  /\ tableWaitMs now 0 fresh [ {| type := RPS; limit := 0 |} ] = 0.
Proof. vm_compute. split; reflexivity. Qed.

(* --------------------------------------------------------------------- *)
(** ** Maintenance at the start of an admission check *)
(* --------------------------------------------------------------------- *)

(** After [computeWaitMs] on a model with limits, the model's key holds the
    bucket on which all four maintenance operations were applied. *)
Lemma computeWaitMs_peek_eq tz opts clk now model tokens u :
  noLimits (getActiveLimits opts model) = false ->
  peek (bucketKey model) (snd (computeWaitMs tz opts clk now model tokens u))
  = Some (maintain tz clk now
            (default (makeInitial tz clk) (peek (bucketKey model) u))).
Proof.
  unfold computeWaitMs.
  destruct (getActiveLimits opts model) as [[| l ls] |]; [done | | done].
  intros _.
  pose proof (getBucket_fst (makeInitial tz clk) (bucketKey model) u) as H.
  destruct (getBucket (makeInitial tz clk) (bucketKey model) u) as [b u1].
  cbn in *. by rewrite peek_assign_eq, H.
Qed.

(** The other keys are left as they were. *)
Lemma computeWaitMs_peek_ne tz opts clk now model tokens u k :
  bucketKey model <> k ->
  peek k (snd (computeWaitMs tz opts clk now model tokens u)) = peek k u.
Proof.
  intros Hne. unfold computeWaitMs.
  destruct (getActiveLimits opts model) as [[| l ls] |]; [done | | done].
  pose proof (getBucket_peek_ne (makeInitial tz clk) _ _ u Hne) as H.
  destruct (getBucket (makeInitial tz clk) (bucketKey model) u) as [b u1].
  cbn in *. by rewrite peek_assign_ne.
Qed.

Lemma getBucketSim_fst tz clk now m sim :
  fst (getBucketSim tz clk now m sim)
  = default (initialSim tz clk now) (sim !! bucketKey m).
Proof. unfold getBucketSim. by destruct (sim !! bucketKey m). Qed.

(** After [computeWaitSim] the simulated bucket has had the two monthly
    resets and the pruning applied, and nothing else. *)
Lemma computeWaitSim_lookup_eq tz opts clk now t m tokens sim :
  noLimits (getActiveLimits opts m) = false ->
  snd (computeWaitSim tz opts clk now t m tokens sim) !! bucketKey m
  = Some (maintainSim tz clk t (fst (getBucketSim tz clk now m sim))).
Proof.
  unfold computeWaitSim.
  destruct (getActiveLimits opts m) as [[| l ls] |]; [done | | done].
  intros _. destruct (getBucketSim tz clk now m sim) as [b sim1]. cbn.
  by rewrite lookup_insert_eq.
Qed.

(** C6 (fails on the code).  A bucket whose minute-token window is 60 000 ms
    old holds 5 tokens.  The admission check of the dispatch loop zeroes the
    count and restarts the window; the admission check of the estimator,
    on the same bucket at the same time, leaves both as they were. *)
Theorem computeWaitSim_keeps_stale_minute_window :
  let opts := {| defaultLimits := Some [ {| type := TPm; limit := 100 |} ];
                 modelLimits := None;
                 fallbackDelayMs := None;
                 label := None |} in
  let now := 1706742000000 in
  let stale := {| secondWindowTimestamps := [];
                  minuteWindowTimestamps := [];
                  dayWindowTimestamps := [];
                  monthTokenCount := 5;
                  monthTokenResetAt := 1706745600000;
                  monthRequestCount := 1;
                  monthRequestResetAt := 1706745600000;
                  minuteTokenCount := 5;
                  minuteTokenWindowStart := now - 60000 |} in
  let real := snd (computeWaitMs 0 opts now now None 0
                     (RAMUsageStrategy {[ "__default__"%string := stale ]})) in
  let sim := snd (computeWaitSim 0 opts now now now None 0
                    {[ "__default__"%string := stale ]}) in
  (minuteTokenCount <$> peek "__default__" real) = Some 0
  /\ (minuteTokenWindowStart <$> peek "__default__" real) = Some now
  /\ (minuteTokenCount <$> sim !! "__default__"%string) = Some 5
  /\ (minuteTokenWindowStart <$> sim !! "__default__"%string) = Some (now - 60000).
Proof. vm_compute. repeat split; reflexivity. Qed.

(* --------------------------------------------------------------------- *)
(** ** The fast path without limits *)
(* --------------------------------------------------------------------- *)

(** C10 (fails on the code).  On a queuer without limits and without
    fallback delay the merged limits of the model [constructor] are
    empty, yet [getActiveLimits] throws a TypeError for it: the read
    [ml["constructor"]] of the plain object [{}] finds the inherited
    function [Object], whose [length] is 1, and [.filter] is called on
    it.  So [estimateWaitMs] throws instead of returning 0, and the
    promise of [add] is rejected instead of the request being run. *)
Theorem fast_path_throws_on_inherited_model_name :
  let opts := Sample.transparent in
  let q := Sample.queuerOf [] (RAMUsageStrategy ∅) in
  noLimits (getActiveLimits opts (Some "constructor"%string)) = true
  /\ truthyNumber (fallbackDelayMs opts) = None
  /\ Throwing.getActiveLimits opts (Some "constructor"%string) = ThrowsTypeError
  /\ Throwing.estimateWaitMs 0 opts Sample.t0 Sample.t0 500 1000 q
       (Some "constructor"%string) 0 = Some ThrowsTypeError
  /\ Throwing.add opts Sample.countChars "id" None (Some "constructor"%string) q
     = ThrowsTypeError.
Proof. vm_compute. repeat split; reflexivity. Qed.

(** The names for which [getActiveLimits] throws: those that the options
    do not set and that a plain object inherits as a method whose [length]
    is not 0. *)
Lemma getActiveLimits_throws opts m :
  Throwing.getActiveLimits opts m = ThrowsTypeError
  <-> exists name n,
        truthyString m = Some name
        /\ default ∅ (modelLimits opts) !! name = None
        /\ JsObject.inherited name = Some (JsObject.InheritedFunction n)
        /\ n <> 0.
Proof.
  unfold Throwing.getActiveLimits, JsObject.get.
  destruct (truthyString m) as [name |].
  2: { split; [done | by intros (? & ? & ? & _)]. }
  destruct (default ∅ (modelLimits opts) !! name) as [[| l ls] |] eqn:E.
  1-2: split; [done | by intros (? & ? & [= <-] & ? & _); congruence].
  destruct (JsObject.inherited name) as [[n |] |] eqn:Ei.
  - destruct (Z.eqb_spec n 0) as [-> | Hn].
    + split; [done |]. intros (? & n' & [= <-] & _ & Hi & Hn').
      rewrite Ei in Hi. by injection Hi as <-.
    + split; [| done]. intros _. by exists name, n.
  - split; [done |]. intros (? & n' & [= <-] & _ & Hi & _). by rewrite Ei in Hi.
  - split; [done |]. intros (? & n' & [= <-] & _ & Hi & _). by rewrite Ei in Hi.
Qed.

(** Where [getActiveLimits] returns, it returns the merge by the own
    properties of [modelLimits]. *)
Lemma getActiveLimits_returns opts m a :
  Throwing.getActiveLimits opts m = Returns a -> getActiveLimits opts m = a.
Proof.
  unfold Throwing.getActiveLimits, getActiveLimits, JsObject.get.
  destruct (truthyString m) as [name |]; cbn [mbind option_bind].
  2: { by intros [= <-]. }
  destruct (default ∅ (modelLimits opts) !! name) as [[| l ls] |].
  - by intros [= <-].
  - by intros [= <-].
  - destruct (JsObject.inherited name) as [[n |] |]; [destruct (n =? 0) | |];
      try done; by intros [= <-].
Qed.

(** For a model for which [getActiveLimits] returns no limit, on a queuer
    without fallback delay, [estimateWaitMs] returns 0 whatever the
    pending queue and the usage store hold and without a single turn of
    the replay, and [add] runs the request at once. *)
Lemma fast_path_where_getActiveLimits_returns tz opts clk now perItemExecMs
    estimateTokenCount (fuel : nat) (q : RequestQueuer) (m : option string)
    (tokensNeeded : Z) (newId : string) (text : option string)
    (active : option (list RateLimitConfig)) :
  Throwing.getActiveLimits opts m = Returns active ->
  noLimits active = true ->
  truthyNumber (fallbackDelayMs opts) = None ->
  Throwing.estimateWaitMs tz opts clk now perItemExecMs fuel q m tokensNeeded
  = Some (Returns 0)
  /\ Throwing.add opts estimateTokenCount newId text m q = Returns ExecutedDirectly.
Proof.
  intros Hret Hno Hfb. unfold Throwing.estimateWaitMs, Throwing.add.
  rewrite Hret. cbn [mbind Completion_bind]. rewrite Hno, Hfb. done.
Qed.

(* --------------------------------------------------------------------- *)
(** ** A failed [execute] *)
(* --------------------------------------------------------------------- *)


Lemma usage_updateExecDuration d q : usage (updateExecDuration d q) = usage q.
Proof. unfold updateExecDuration. by destruct (d <? 0). Qed.

Lemma queue_updateExecDuration d q : queue (updateExecDuration d q) = queue q.
Proof. unfold updateExecDuration. by destruct (d <? 0). Qed.

Lemma isProcessing_updateExecDuration d q :
  isProcessing (updateExecDuration d q) = isProcessing q.
Proof. unfold updateExecDuration. by destruct (d <? 0). Qed.




(* --------------------------------------------------------------------- *)
(** ** The dirty set of the pocketbase strategy *)
(* --------------------------------------------------------------------- *)

(** Recording usage for a key that the strategy already holds marks
    nothing dirty: the bucket is changed through its reference. *)
Lemma recordUsage_isDirty tz clk now tokens model u k :
  is_Some (peek (bucketKey model) u) ->
  isDirty k (recordUsage tz clk now tokens model u) = isDirty k u.
Proof.
  intros [b Hb]. unfold recordUsage.
  rewrite (getBucket_hit _ _ _ _ Hb). apply isDirty_assign.
Qed.

Lemma computeWaitMs_isDirty tz opts clk now model tokens u k :
  is_Some (peek (bucketKey model) u) ->
  isDirty k (snd (computeWaitMs tz opts clk now model tokens u)) = isDirty k u.
Proof.
  intros [b Hb]. unfold computeWaitMs.
  destruct (getActiveLimits opts model) as [[| l ls] |]; [done | | done].
  rewrite (getBucket_hit _ _ _ _ Hb). apply isDirty_assign.
Qed.

(** C7 (fails on the code).  The strategy of queue "q1" was bootstrapped
    from the remote record of model "m" with [monthRequestCount] 10.  After
    one successful dispatch for "m" the bucket in memory counts 11, the key
    is not dirty, and a persist writes nothing whatever the remote end
    answers: the remote record keeps 10. *)
Theorem successful_dispatch_leaves_loaded_key_clean :
  let q := Sample.queuerOf [Sample.item "a" "m" 7]
             (pocketbaseUsageStrategy SamplePocketbase.bootstrapped) in
  let q' := snd (iteration 0 SamplePocketbase.monthly
                   (Sample.turn (Fulfilled "ok"%string)) q) in
  fst (iteration 0 SamplePocketbase.monthly (Sample.turn (Fulfilled "ok"%string)) q)
  = [Resolve (Sample.item "a" "m" 7) "ok"%string;
     Persist (Sample.t0 + 40); Persist (Sample.t0 + 40)]
  /\ (monthRequestCount <$> peek "m" (usage q')) = Some 11
  /\ isDirty "m" (usage q') = false
  /\ forall net, snd (fst (persist net (usage q'))) = [].
Proof.
  cbv zeta. split; [vm_compute; reflexivity |].
  split; [vm_compute; reflexivity |].
  split; [vm_compute; reflexivity |].
  intros net. vm_compute. reflexivity.
Qed.

(* --------------------------------------------------------------------- *)
(** ** Failures of [persist] *)
(* --------------------------------------------------------------------- *)

Lemma persistKey_events net map events recordIds key :
  exists evs, fst (persistKey net map (events, recordIds) key) = events ++ evs.
Proof.
  unfold persistKey, createRecord.
  destruct (map !! key) as [b |]; [| exists []; by rewrite app_nil_r].
  destruct (truthyString (recordIds !! key)) as [recId |];
    [destruct (Net.patchReply net key) |];
    try destruct (Net.postReply net key) as [[id |] | |]; cbn; by eexists.
Qed.

Lemma persistKey_covers net map events recordIds key bucket :
  map !! key = Some bucket ->
  writtenOrLogged key bucket (fst (persistKey net map (events, recordIds) key)).
Proof.
  intros Hb. unfold persistKey, writtenOrLogged, createRecord. rewrite Hb.
  destruct (truthyString (recordIds !! key)) as [recId |];
    [destruct (Net.patchReply net key) |];
    try destruct (Net.postReply net key) as [[id |] | |]; cbn;
    first [ left; exists recId; rewrite elem_of_app, elem_of_cons; by eauto
          | rewrite ?elem_of_app, ?elem_of_cons; by eauto 10 ].
Qed.

Lemma writtenOrLogged_app key bucket events evs :
  writtenOrLogged key bucket events -> writtenOrLogged key bucket (events ++ evs).
Proof.
  unfold writtenOrLogged. intros [[r H] | [H | H]];
    [left; exists r | right; left | right; right]; apply elem_of_app; by left.
Qed.

Lemma fold_persistKey_keeps net map keys acc key bucket :
  writtenOrLogged key bucket (fst acc) ->
  writtenOrLogged key bucket (fst (fold_left (persistKey net map) keys acc)).
Proof.
  revert acc. induction keys as [| k keys IH]; intros [events recordIds] H; [done |].
  cbn [fold_left]. apply IH.
  destruct (persistKey_events net map events recordIds k) as [evs Hevs].
  destruct (persistKey net map (events, recordIds) k) as [events' r'].
  cbn in *. subst events'. by apply writtenOrLogged_app.
Qed.

Lemma fold_persistKey_covers net map keys acc key bucket :
  key ∈ keys -> map !! key = Some bucket ->
  writtenOrLogged key bucket (fst (fold_left (persistKey net map) keys acc)).
Proof.
  intros Hin Hb. revert acc.
  induction keys as [| k keys IH]; intros [events recordIds]; [by apply elem_of_nil in Hin |].
  cbn [fold_left]. apply elem_of_cons in Hin as [-> | Hin].
  - apply fold_persistKey_keeps.
    pose proof (persistKey_covers net map events recordIds k bucket Hb) as H.
    by destruct (persistKey net map (events, recordIds) k).
  - by apply IH.
Qed.

(** C8 (as stated, fails on the code).  The key of model "m" is dirty and
    the [PATCH] of its record throws.  The error is logged and [persist]
    completes, but the dirty flag is gone: the next persist, against a
    healthy remote end, writes nothing. *)
Lemma failed_write_clears_dirty_flag :
  let r := persistPocketbase SamplePocketbase.writesFail SamplePocketbase.dirty in
  fst r = (PersistDone, [Net.Logged "q1::m"])
  /\ isDirty "m" (pocketbaseUsageStrategy SamplePocketbase.dirty) = true
  /\ isDirty "m" (pocketbaseUsageStrategy (snd r)) = false
  /\ snd (fst (persistPocketbase SamplePocketbase.healthy (snd r))) = [].
Proof. vm_compute. repeat split; reflexivity. Qed.

(** C8 (amended).  A persist that fails at authentication rejects (its
    callers swallow the rejection), writes nothing and leaves the strategy,
    with every dirty flag, as it was, so that a later flush retries.  A
    persist that gets past authentication never rejects: every dirty bucket
    is written or its failure is logged, and every dirty flag is cleared
    whether or not the write succeeded. *)
Theorem persist_failure_modes (net : Net.Oracle) (pb : PocketbaseState) :
  pb_disposed pb = false ->
  let outcome := fst (fst (persistPocketbase net pb)) in
  let events := snd (fst (persistPocketbase net pb)) in
  let pb' := snd (persistPocketbase net pb) in
  match outcome with
  | PersistRejected =>
      truthyString (pb_auth pb) = None /\ events = [] /\ pb' = pb
  | PersistDone =>
      pb_changed pb' = []
      /\ pb_map pb' = pb_map pb
      /\ forall key bucket,
           key ∈ pb_changed pb -> pb_map pb !! key = Some bucket ->
           writtenOrLogged key bucket events
  end.
Proof.
  intros Hd. unfold persistPocketbase. rewrite Hd.
  destruct (truthyString (pb_auth pb)) as [token |] eqn:Hauth.
  - pose proof (fold_persistKey_covers net (pb_map pb) (pb_changed pb)
                  ([], pb_recordIds pb)) as Hcov.
    destruct (fold_left _ _ _) as [events recordIds]. cbn in *.
    split; [done | split; [done | exact Hcov]].
  - destruct (Net.authReply net) as [token |]; [| by cbn].
    destruct (truthyString (Some token)) as [token' |]; [| by cbn].
    pose proof (fold_persistKey_covers net (pb_map pb) (pb_changed pb)
                  ([], pb_recordIds pb)) as Hcov.
    destruct (fold_left _ _ _) as [events recordIds]. cbn in *.
    split; [done | split; [done | exact Hcov]].
Qed.

(** A persist that authenticates and whose writes fail: the failure of the
    dirty key is logged and the dirty set is empty afterwards. *)
Lemma persist_failure_modes_witness :
  pb_changed (snd (persistPocketbase SamplePocketbase.writesFail SamplePocketbase.dirty)) = []
  /\ writtenOrLogged "q1::m" SamplePocketbase.loaded
       (snd (fst (persistPocketbase SamplePocketbase.writesFail SamplePocketbase.dirty))).
Proof.
  pose proof (persist_failure_modes SamplePocketbase.writesFail SamplePocketbase.dirty
                eq_refl) as H.
  cbv zeta in H.
  change (fst (fst (persistPocketbase SamplePocketbase.writesFail SamplePocketbase.dirty)))
    with PersistDone in H.
  destruct H as (H1 & _ & H3).
  split; [exact H1 |].
  apply H3; [apply list_elem_of_singleton; reflexivity | vm_compute; reflexivity].
Defined.

(* --------------------------------------------------------------------- *)
(** ** Maintenance is idempotent *)
(* --------------------------------------------------------------------- *)

Lemma shiftExpired_idem cut arr :
  shiftExpired cut (shiftExpired cut arr) = shiftExpired cut arr.
Proof.
  induction arr as [| t rest IH]; [done |]. cbn.
  destruct (t <=? cut) eqn:E; [done |]. cbn. by rewrite E.
Qed.

Lemma pruneWindows_idem now b : pruneWindows now (pruneWindows now b) = pruneWindows now b.
Proof. unfold pruneWindows. cbn. by rewrite !shiftExpired_idem. Qed.

Ltac case_leb :=
  repeat match goal with
         | |- context [ ?x <=? ?y ] =>
             lazymatch x with
             | context [ _ <=? _ ] => fail
             | _ => destruct (Z.leb_spec x y)
             end
         end.

(** Two maintenance operations on one bucket: unfold them, name the start
    of the next month, and split on their tests. *)
Ltac two_ops tz clk :=
  intros;
  match goal with b : UsageBucket |- _ => destruct b end;
  unfold maybeResetMinuteTokens, maybeResetMonthlyRequests,
    maybeResetMonthlyTokens, pruneWindows;
  generalize (startOfNextMonth tz clk); intros nextMonth;
  cbn [secondWindowTimestamps minuteWindowTimestamps dayWindowTimestamps
       monthTokenCount monthTokenResetAt monthRequestCount monthRequestResetAt
       minuteTokenCount minuteTokenWindowStart];
  case_leb;
  cbn [secondWindowTimestamps minuteWindowTimestamps dayWindowTimestamps
       monthTokenCount monthTokenResetAt monthRequestCount monthRequestResetAt
       minuteTokenCount minuteTokenWindowStart];
  case_leb; rewrite ?shiftExpired_idem; try reflexivity;
  cbn [secondWindowTimestamps minuteWindowTimestamps dayWindowTimestamps
       monthTokenCount monthTokenResetAt monthRequestCount monthRequestResetAt
       minuteTokenCount minuteTokenWindowStart] in *; lia.

Lemma maybeResetMonthlyTokens_idem tz clk now b :
  maybeResetMonthlyTokens tz clk now (maybeResetMonthlyTokens tz clk now b)
  = maybeResetMonthlyTokens tz clk now b.
Proof. two_ops tz clk. Qed.

Lemma maybeResetMonthlyRequests_idem tz clk now b :
  maybeResetMonthlyRequests tz clk now (maybeResetMonthlyRequests tz clk now b)
  = maybeResetMonthlyRequests tz clk now b.
Proof. two_ops tz clk. Qed.

Lemma maybeResetMinuteTokens_idem now b :
  maybeResetMinuteTokens now (maybeResetMinuteTokens now b) = maybeResetMinuteTokens now b.
Proof. two_ops 0 0. Qed.

Lemma tokens_requests_comm tz clk now b :
  maybeResetMonthlyTokens tz clk now (maybeResetMonthlyRequests tz clk now b)
  = maybeResetMonthlyRequests tz clk now (maybeResetMonthlyTokens tz clk now b).
Proof. two_ops tz clk. Qed.

Lemma tokens_minute_comm tz clk now b :
  maybeResetMonthlyTokens tz clk now (maybeResetMinuteTokens now b)
  = maybeResetMinuteTokens now (maybeResetMonthlyTokens tz clk now b).
Proof. two_ops tz clk. Qed.

Lemma tokens_prune_comm tz clk now b :
  maybeResetMonthlyTokens tz clk now (pruneWindows now b)
  = pruneWindows now (maybeResetMonthlyTokens tz clk now b).
Proof. two_ops tz clk. Qed.

Lemma requests_minute_comm tz clk now b :
  maybeResetMonthlyRequests tz clk now (maybeResetMinuteTokens now b)
  = maybeResetMinuteTokens now (maybeResetMonthlyRequests tz clk now b).
Proof. two_ops tz clk. Qed.

Lemma requests_prune_comm tz clk now b :
  maybeResetMonthlyRequests tz clk now (pruneWindows now b)
  = pruneWindows now (maybeResetMonthlyRequests tz clk now b).
Proof. two_ops tz clk. Qed.

Lemma minute_prune_comm now b :
  maybeResetMinuteTokens now (pruneWindows now b)
  = pruneWindows now (maybeResetMinuteTokens now b).
Proof. two_ops 0 0. Qed.

Lemma maintain_idem tz clk now b :
  maintain tz clk now (maintain tz clk now b) = maintain tz clk now b.
Proof.
  unfold maintain.
  rewrite tokens_prune_comm, tokens_minute_comm, tokens_requests_comm,
    maybeResetMonthlyTokens_idem.
  rewrite requests_prune_comm, requests_minute_comm, maybeResetMonthlyRequests_idem.
  rewrite minute_prune_comm, maybeResetMinuteTokens_idem.
  by rewrite pruneWindows_idem.
Qed.

Lemma maintainSim_idem tz clk t b :
  maintainSim tz clk t (maintainSim tz clk t b) = maintainSim tz clk t b.
Proof.
  unfold maintainSim.
  rewrite tokens_prune_comm, tokens_requests_comm, maybeResetMonthlyTokens_idem.
  rewrite requests_prune_comm, maybeResetMonthlyRequests_idem.
  by rewrite pruneWindows_idem.
Qed.

(* --------------------------------------------------------------------- *)
(** ** The admission checks of one scan see the store of its start *)
(* --------------------------------------------------------------------- *)

Lemma settled_refl tz clk now u : settled tz clk now u u.
Proof. intros k. by left. Qed.

Lemma waitOf_settled tz opts clk now model tokens u0 u :
  settled tz clk now u0 u ->
  waitOf tz opts clk now model tokens (peek (bucketKey model) u)
  = waitOf tz opts clk now model tokens (peek (bucketKey model) u0).
Proof.
  intros Hs. destruct (Hs (bucketKey model)) as [-> | ->]; [done |].
  unfold waitOf. destruct (getActiveLimits opts model) as [[| l ls] |]; [done | | done].
  cbn [from_option Datatypes.id]. by rewrite maintain_idem.
Qed.

Lemma settled_computeWaitMs tz opts clk now model tokens u0 u :
  settled tz clk now u0 u ->
  settled tz clk now u0 (snd (computeWaitMs tz opts clk now model tokens u)).
Proof.
  intros Hs k.
  destruct (noLimits (getActiveLimits opts model)) eqn:Hno.
  { rewrite (computeWaitMs_no_limits _ _ _ _ _ _ _ Hno). apply Hs. }
  destruct (decide (bucketKey model = k)) as [<- | Hne].
  - right. rewrite (computeWaitMs_peek_eq _ _ _ _ _ _ _ Hno).
    destruct (Hs (bucketKey model)) as [-> | ->]; [done |].
    cbn [from_option Datatypes.id]. by rewrite maintain_idem.
  - rewrite (computeWaitMs_peek_ne _ _ _ _ _ _ _ _ Hne). apply Hs.
Qed.

Lemma computeWaitMs_settled_fst tz opts clk now u0 u qi :
  settled tz clk now u0 u ->
  fst (computeWaitMs tz opts clk now (modelName qi) (default 0 (tokens qi)) u)
  = itemWait tz opts clk now u0 qi.
Proof.
  intros Hs. rewrite computeWaitMs_fst. by apply waitOf_settled.
Qed.

(* --------------------------------------------------------------------- *)
(** ** The scan for a runnable item *)
(* --------------------------------------------------------------------- *)

Lemma isMinimumWait_snoc ws m w :
  isMinimumWait ws m -> isMinimumWait (ws ++ [w]) (lower w m).
Proof.
  unfold isMinimumWait, lower, ltMin.
  destruct w as [| z]; destruct m as [| y].
  - intros H w. rewrite elem_of_app, list_elem_of_singleton. intros [? | ?]; [by eapply H | done].
  - intros [H1 H2]. split.
    + apply elem_of_app. by left.
    + intros w. rewrite elem_of_app, list_elem_of_singleton.
      intros [? | ?]; [by apply H2 | done].
  - intros H. split.
    + apply elem_of_app. right. by apply list_elem_of_singleton.
    + intros w. rewrite elem_of_app, list_elem_of_singleton.
      intros [Hw | [= ->]]; [by apply H in Hw | lia].
  - intros [H1 H2]. destruct (Z.ltb_spec z y).
    + split.
      * apply elem_of_app. right. by apply list_elem_of_singleton.
      * intros w. rewrite elem_of_app, list_elem_of_singleton.
        intros [Hw | [= ->]]; [apply H2 in Hw; lia | lia].
    + split.
      * apply elem_of_app. by left.
      * intros w. rewrite elem_of_app, list_elem_of_singleton.
        intros [Hw | [= ->]]; [by apply H2 | lia].
Qed.

Lemma isMinimumWait_fold {A : Type} (W : A -> JsNumber) (items : list A) ws m :
  isMinimumWait ws m ->
  isMinimumWait (ws ++ List.map W items)
    (fold_left (fun m x => lower (W x) m) items m).
Proof.
  revert ws m. induction items as [| x xs IH]; intros ws m H; cbn.
  - by rewrite app_nil_r.
  - rewrite (cons_middle (W x)), app_assoc. apply IH. by apply isMinimumWait_snoc.
Qed.

(** The scan from a store that is settled with respect to [u0]: the waits
    it computes are those of [u0]; it stops at the first item whose wait is
    at most 0, and otherwise folds the waits into [minWait]. *)
Lemma scan_settled tz opts clk now u0 items :
  forall i minWait u,
    settled tz clk now u0 u ->
    let W := itemWait tz opts clk now u0 in
    let r := scan tz opts clk now i minWait items u in
    settled tz clk now u0 (snd r)
    /\ match fst (fst r) with
       | Some j =>
           exists k item,
             j = (i + k)%nat /\ items !! k = Some item /\ le0 (W item) = true
             /\ forall k' x, (k' < k)%nat -> items !! k' = Some x -> le0 (W x) = false
       | None =>
           Forall (fun x => le0 (W x) = false) items
           /\ snd (fst r) = fold_left (fun m x => lower (W x) m) items minWait
       end.
Proof.
  induction items as [| qi rest IH]; intros i minWait u Hs; cbn zeta.
  - cbn. split; [done |]. split; [constructor | done].
  - cbn [scan].
    pose proof (computeWaitMs_settled_fst tz opts clk now u0 u qi Hs) as Hw.
    pose proof (settled_computeWaitMs tz opts clk now (modelName qi)
                  (default 0 (tokens qi)) u0 u Hs) as Hs'.
    destruct (computeWaitMs tz opts clk now (modelName qi) (default 0 (tokens qi)) u)
      as [wait u'].
    cbn [fst snd] in Hw, Hs'. subst wait.
    destruct (le0 (itemWait tz opts clk now u0 qi)) eqn:Hle.
    + cbn. split; [done |]. exists 0%nat, qi.
      repeat split; [lia | done | intros; lia].
    + specialize (IH (S i) (lower (itemWait tz opts clk now u0 qi) minWait) u' Hs').
      cbn zeta in IH. destruct IH as [IH1 IH2]. split; [done |].
      destruct (fst (fst (scan tz opts clk now (S i) _ rest u'))) as [j |].
      * destruct IH2 as (k & item & -> & Hk & Hitem & Hbefore).
        exists (S k), item. repeat split; [lia | done | done |].
        intros [| k'] x Hlt Hx; cbn in Hx.
        -- by injection Hx as <-.
        -- eapply Hbefore; [| done]. lia.
      * destruct IH2 as [IHf IHm]. split; [by constructor | done].
Qed.

(** [arr.splice(i, 1)] takes out the element at [i]. *)
Lemma splice_lookup {A : Type} (i : nat) (arr : list A) :
  splice i arr = (arr !! i, delete i arr).
Proof.
  revert i. induction arr as [| x rest IH]; intros [| i]; cbn; try done.
  by rewrite IH.
Qed.

Lemma queue_dispatch tz T (it : Iteration T) item q :
  queue (snd (dispatch tz it item q)) = queue q.
Proof.
  unfold dispatch. destruct (it_outcome it); cbn [snd];
    by rewrite queue_updateExecDuration.
Qed.

Lemma sleepMs_clamp m : 1 <= sleepMs m <= 5000.
Proof. unfold sleepMs. destruct m; lia. Qed.

(** C2.  In a turn of the dispatch loop every item of the queue has the
    wait that the admission check computes for it under the limits and the
    bucket of its own model.  The turn dispatches the item of smallest
    index whose wait is at most 0, whatever stands before it; when there is
    no such item it sleeps [max(1, min(m, 5000))] ms, [m] the minimum of
    the waits, and leaves the queue as it is for the rescan. *)
Theorem iteration_selects_first_runnable tz opts T (it : Iteration T)
    (q : RequestQueuer) :
  let W := itemWait tz opts (it_clk it) (it_now it) (usage q) in
  let checked := snd (scan tz opts (it_clk it) (it_now it) 0 Infinity (queue q) (usage q)) in
  (forall j item,
      queue q !! j = Some item ->
      le0 (W item) = true ->
      (forall k x, (k < j)%nat -> queue q !! k = Some x -> le0 (W x) = false) ->
      let q1 := withQueue (delete j (queue q)) checked q in
      fst (iteration tz opts it q)
      = fst (dispatch tz it item q1) ++ fallbackPause opts (snd (dispatch tz it item q1))
      /\ queue (snd (iteration tz opts it q)) = delete j (queue q))
  /\ ((forall x, x ∈ queue q -> le0 (W x) = false) ->
      exists m,
        isMinimumWait (List.map W (queue q)) m
        /\ iteration tz opts it q
           = ([Delay (Z.max 1 (match m with
                               | Infinity => 5000
                               | Finite z => Z.min z 5000
                               end))],
              withQueue (queue q) checked q)).
Proof.
  cbn zeta.
  pose proof (scan_settled tz opts (it_clk it) (it_now it) (usage q) (queue q)
                0%nat Infinity (usage q) (settled_refl _ _ _ _)) as [_ Hscan].
  cbn zeta in Hscan. unfold iteration.
  destruct (scan tz opts (it_clk it) (it_now it) 0 Infinity (queue q) (usage q))
    as [[r minWait] u] eqn:Escan.
  cbn [fst snd] in *. split.
  - intros j item Hj Hrun Hbefore.
    destruct r as [j' |].
    + destruct Hscan as (k & item' & -> & Hk & Hrun' & Hbefore').
      assert (k = j) as ->.
      { destruct (Nat.lt_trichotomy k j) as [Hlt | [-> | Hgt]]; [| done |].
        - rewrite (Hbefore k item' Hlt Hk) in Hrun'. done.
        - rewrite (Hbefore' j item Hgt Hj) in Hrun. done. }
      cbn [Nat.add]. rewrite splice_lookup, Hj.
      destruct (dispatch tz it item _) as [effects q'] eqn:Ed. cbn [fst snd].
      split; [done |].
      pose proof (queue_dispatch tz T it item
                    (withQueue (delete j (queue q)) u q)) as Hq.
      rewrite Ed in Hq. exact Hq.
    + destruct Hscan as [Hall _]. rewrite Forall_forall in Hall.
      assert (item ∈ queue q) as Hin by (by eapply list_elem_of_lookup_2).
      rewrite (Hall _ Hin) in Hrun. done.
  - intros Hnone. destruct r as [j |].
    + destruct Hscan as (k & item & _ & Hk & Hrun & _).
      assert (item ∈ queue q) as Hin by (by eapply list_elem_of_lookup_2).
      rewrite (Hnone _ Hin) in Hrun. done.
    + destruct Hscan as [_ ->]. eexists. split.
      * apply (isMinimumWait_fold _ (queue q) [] Infinity). by intros w Hw%elem_of_nil.
      * reflexivity.
Qed.

(** Head-of-line avoidance on the queue [slow; fast]: "slow" has used its
    one request of this second and waits 990 ms, "fast" is free and is
    dispatched first; and with two "slow" items the turn sleeps 990 ms. *)
Lemma iteration_selects_first_runnable_witness :
  let slow := Sample.item "1" "slow" 0 in
  let fast := Sample.item "2" "fast" 0 in
  let store := RAMUsageStrategy {[ "slow"%string := Sample.justUsed ]} in
  let it := Sample.turn (Fulfilled "ok"%string) in
  (fst (iteration 0 Sample.slowFast it (Sample.queuerOf [slow; fast] store))
   = [Resolve fast "ok"%string; Persist (Sample.t0 + 40); Persist (Sample.t0 + 40)]
   /\ queue (snd (iteration 0 Sample.slowFast it (Sample.queuerOf [slow; fast] store)))
      = [slow])
  /\ fst (iteration 0 Sample.slowFast it (Sample.queuerOf [slow; slow] store))
     = [Delay 990].
Proof.
  intros slow fast store it.
  destruct (iteration_selects_first_runnable 0 Sample.slowFast string it
              (Sample.queuerOf [slow; fast] store)) as [Hrun _].
  destruct (iteration_selects_first_runnable 0 Sample.slowFast string it
              (Sample.queuerOf [slow; slow] store)) as [_ Hsleep].
  cbv zeta in Hrun, Hsleep. split.
  - destruct (Hrun 1%nat fast) as [H1 H2].
    + reflexivity.
    + vm_compute. reflexivity.
    + intros [| k] x Hk Hx; [| lia]. injection Hx as <-. vm_compute. reflexivity.
    + split; [| exact H2]. rewrite H1. vm_compute. reflexivity.
  - destruct Hsleep as (m & Hmin & Hit).
    + intros x Hx. apply elem_of_cons in Hx as [-> | Hx];
        [| apply list_elem_of_singleton in Hx as ->]; vm_compute; reflexivity.
    + rewrite Hit. cbn [fst].
      assert (m = Finite 990) as ->; [| reflexivity].
      assert (List.map (itemWait 0 Sample.slowFast (it_clk it) (it_now it)
                          (usage (Sample.queuerOf [slow; slow] store)))
                (queue (Sample.queuerOf [slow; slow] store))
              = [Num 990; Num 990]) as E by (vm_compute; reflexivity).
      rewrite E in Hmin. destruct m as [| z]; cbn in Hmin.
      * exfalso. apply (Hmin 990). apply elem_of_cons. by left.
      * destruct Hmin as [Hin _].
        apply elem_of_cons in Hin as [[= ->] | Hin]; [done |].
        apply list_elem_of_singleton in Hin as [= ->]. done.
Defined.

(* --------------------------------------------------------------------- *)
(** ** Order within one model *)
(* --------------------------------------------------------------------- *)

Lemma waitLe_refl a : waitLe a a.
Proof. destruct a; cbn; [done | lia]. Qed.

Lemma jmax_mono a a' b b' : waitLe a a' -> waitLe b b' -> waitLe (jmax a b) (jmax a' b').
Proof. destruct a, a', b, b'; cbn; try done; lia. Qed.

Lemma waitLe_jmax_r a a' c : waitLe a a' -> waitLe a (jmax a' (Num c)).
Proof. destruct a, a'; cbn; try done; lia. Qed.

Lemma le0_waitLe a b : waitLe a b -> le0 b = true -> le0 a = true.
Proof. destruct a, b; cbn; try done. intros H Hb%Z.leb_le. apply Z.leb_le. lia. Qed.

(** The wait of a limit grows with the token estimate. *)
Lemma limitWait_mono now tokens tokens' b acc acc' l :
  Z.max 0 tokens <= Z.max 0 tokens' ->
  waitLe acc acc' ->
  waitLe (limitWait now tokens b acc l) (limitWait now tokens' b acc' l).
Proof.
  intros Htok Hacc. unfold limitWait. destruct (type l);
    repeat match goal with
           | |- context [ ?x <=? ?y ] => destruct (Z.leb_spec x y)
           | |- context [ ?x <? ?y ] => destruct (Z.ltb_spec x y)
           end;
    try done; try lia;
    try (apply jmax_mono; [done | apply waitLe_refl]);
    try (by apply waitLe_jmax_r).
Qed.

Lemma fold_limitWait_mono now tokens tokens' b limits acc acc' :
  Z.max 0 tokens <= Z.max 0 tokens' ->
  waitLe acc acc' ->
  waitLe (fold_left (limitWait now tokens b) limits acc)
         (fold_left (limitWait now tokens' b) limits acc').
Proof.
  intros Htok. revert acc acc'.
  induction limits as [| l ls IH]; intros acc acc' Hacc; [done |].
  cbn [fold_left]. apply IH. by apply limitWait_mono.
Qed.

Lemma waitLoop_mono now tokens tokens' b limits :
  Z.max 0 tokens <= Z.max 0 tokens' ->
  waitLe (waitLoop now tokens b limits) (waitLoop now tokens' b limits).
Proof.
  intros Htok. unfold waitLoop. apply jmax_mono; [apply waitLe_refl |].
  apply fold_limitWait_mono; [done | apply waitLe_refl].
Qed.

Lemma waitOf_mono tz opts clk now model tokens tokens' held :
  Z.max 0 tokens <= Z.max 0 tokens' ->
  waitLe (waitOf tz opts clk now model tokens held)
         (waitOf tz opts clk now model tokens' held).
Proof.
  intros Htok. unfold waitOf.
  destruct (getActiveLimits opts model) as [[| l ls] |]; try apply waitLe_refl.
  by apply waitLoop_mono.
Qed.

(** C3 (as stated, fails on the code).  Model "m" has 50 of its 100 monthly
    tokens left.  Item [a] (80 tokens) was enqueued before item [b]
    (10 tokens), both for "m".  The turn finds [a] over the limit and [b]
    runnable: it executes [b] and leaves [a] pending. *)
Lemma later_item_overtakes_same_model :
  let a := Sample.item "a" "m" 80 in
  let b := Sample.item "b" "m" 10 in
  let q := Sample.queuerOf [a; b]
             (RAMUsageStrategy {[ "m"%string := Sample.halfSpent ]}) in
  let it := Sample.turn (Fulfilled "ok"%string) in
  fst (fst (scan 0 Sample.hundredTokens Sample.t0 Sample.t0 0 Infinity
              (queue q) (usage q))) = Some 1%nat
  /\ fst (iteration 0 Sample.hundredTokens it q)
     = [Resolve b "ok"%string; Persist (Sample.t0 + 40); Persist (Sample.t0 + 40)]
  /\ queue (snd (iteration 0 Sample.hundredTokens it q)) = [a].
Proof. vm_compute. repeat split; reflexivity. Qed.

(** C3 (amended).  When a turn of the dispatch loop selects an item, every
    earlier-enqueued pending item of the same model carries a strictly
    larger token estimate: among items of one model whose token estimates
    do not decrease along the queue, the one enqueued first is executed
    first. *)
Theorem earlier_item_of_model_needs_more_tokens tz opts clk now
    (items : list QueueItem) (u : UsageStrategy) (j : nat) (y : QueueItem) :
  fst (fst (scan tz opts clk now 0 Infinity items u)) = Some j ->
  items !! j = Some y ->
  forall k x,
    (k < j)%nat -> items !! k = Some x -> modelName x = modelName y ->
    Z.max 0 (default 0 (tokens y)) < Z.max 0 (default 0 (tokens x)).
Proof.
  intros Hsel Hy k x Hk Hx Hmodel.
  pose proof (scan_settled tz opts clk now u items 0%nat Infinity u
                (settled_refl _ _ _ _)) as [_ Hscan].
  cbn zeta in Hscan. rewrite Hsel in Hscan.
  destruct Hscan as (j' & y' & Hj & Hy' & Hrun & Hbefore).
  cbn in Hj. subst j'. rewrite Hy in Hy'. injection Hy' as <-.
  pose proof (Hbefore k x Hk Hx) as Hblocked.
  destruct (Z.lt_ge_cases (Z.max 0 (default 0 (tokens y)))
              (Z.max 0 (default 0 (tokens x)))) as [Hlt | Hge]; [done |].
  exfalso.
  assert (le0 (itemWait tz opts clk now u x) = true) as Hx0; [| congruence].
  eapply le0_waitLe; [| exact Hrun].
  unfold itemWait. rewrite Hmodel. by apply waitOf_mono.
Qed.

(** The queue [a; b] of the counterexample: the turn selects [b], and the
    earlier [a] of the same model needs more tokens than [b]. *)
Lemma earlier_item_of_model_needs_more_tokens_witness :
  let a := Sample.item "a" "m" 80 in
  let b := Sample.item "b" "m" 10 in
  let store := RAMUsageStrategy {[ "m"%string := Sample.halfSpent ]} in
  fst (fst (scan 0 Sample.hundredTokens Sample.t0 Sample.t0 0 Infinity [a; b] store))
  = Some 1%nat
  /\ Z.max 0 (default 0 (tokens b)) < Z.max 0 (default 0 (tokens a)).
Proof.
  intros a b store.
  assert (fst (fst (scan 0 Sample.hundredTokens Sample.t0 Sample.t0 0 Infinity
                      [a; b] store)) = Some 1%nat) as Hsel
    by (vm_compute; reflexivity).
  split; [exact Hsel |].
  apply (earlier_item_of_model_needs_more_tokens _ _ _ _ _ _ 1%nat b Hsel eq_refl
           0%nat a).
  - lia.
  - reflexivity.
  - reflexivity.
Defined.

(* --------------------------------------------------------------------- *)
(** ** The replay of the estimator *)
(* --------------------------------------------------------------------- *)

Section EstimatorFacts.

Variable tz : Z.
Variable opts : QueuerOptions.
Variables clk now perItemExecMs : Z.

(** The fallback delay, when one is configured, is not negative. *)
Hypothesis fallback_nonneg : forall d, fallbackDelayMs opts = Some d -> 0 <= d.

Local Abbreviation computeWaitSim' := (computeWaitSim tz opts clk now).
Local Abbreviation simScan' := (simScan tz opts clk now).
Local Abbreviation simLoop' := (simLoop tz opts clk now perItemExecMs).
Local Abbreviation waitSimOf' := (waitSimOf tz opts clk now).
Local Abbreviation settleSim' := (settleSim tz opts clk now).

Lemma computeWaitSim_eq t m tokens sim :
  computeWaitSim' t m tokens sim
  = (waitSimOf' t m tokens (sim !! bucketKey m), settleSim' t m sim).
Proof.
  unfold computeWaitSim, waitSimOf, settleSim, getBucketSim.
  destruct (getActiveLimits opts m) as [[| l ls] |]; [done | | done].
  destruct (sim !! bucketKey m) as [b |]; cbn [from_option Datatypes.id]; [done |].
  by rewrite insert_insert_eq.
Qed.

Lemma settleSim_lookup t m sim :
  waitSimOf' t m 0 (settleSim' t m sim !! bucketKey m) = waitSimOf' t m 0 (sim !! bucketKey m)
  /\ forall tokens,
       waitSimOf' t m tokens (settleSim' t m sim !! bucketKey m)
       = waitSimOf' t m tokens (sim !! bucketKey m).
Proof.
  assert (forall tokens,
             waitSimOf' t m tokens (settleSim' t m sim !! bucketKey m)
             = waitSimOf' t m tokens (sim !! bucketKey m)) as H; [| by split].
  intros tokens. unfold waitSimOf, settleSim.
  destruct (getActiveLimits opts m) as [[| l ls] |]; [done | | done].
  rewrite lookup_insert_eq. cbn [from_option Datatypes.id]. by rewrite maintainSim_idem.
Qed.

Lemma settleSim_idem t m sim : settleSim' t m (settleSim' t m sim) = settleSim' t m sim.
Proof.
  unfold settleSim.
  destruct (getActiveLimits opts m) as [[| l ls] |]; [done | | done].
  rewrite lookup_insert_eq. cbn [from_option Datatypes.id].
  by rewrite maintainSim_idem, insert_insert_eq.
Qed.

Lemma waitSimOf_mono t m tokens tokens' held :
  Z.max 0 tokens <= Z.max 0 tokens' ->
  waitLe (waitSimOf' t m tokens held) (waitSimOf' t m tokens' held).
Proof.
  intros Htok. unfold waitSimOf.
  destruct (getActiveLimits opts m) as [[| l ls] |]; try apply waitLe_refl.
  by apply waitLoop_mono.
Qed.

Lemma lower_absorb wH wX m :
  waitLe wH wX -> lower wH (lower wX m) = lower wH m.
Proof.
  destruct wH as [| h], wX as [| x]; cbn [waitLe]; try done.
  intros Hle. unfold lower, ltMin. destruct m as [| y].
  - destruct (Z.ltb_spec h x); [done |]. f_equal. lia.
  - destruct (Z.ltb_spec x y); destruct (Z.ltb_spec h y);
      repeat match goal with
             | |- context [ ?a <? ?b ] => destruct (Z.ltb_spec a b)
             end; try done; try lia; f_equal; lia.
Qed.

(** The scan of a queue that continues into a suffix. *)
Lemma simScan_app t pre suf :
  forall i minWait sim,
    simScan' t i minWait (pre ++ suf) sim
    = match simScan' t i minWait pre sim with
      | (Some j, m, s) => (Some j, m, s)
      | (None, m, s) => simScan' t (i + length pre) m suf s
      end.
Proof.
  induction pre as [| x pre IH]; intros i minWait sim.
  - cbn. by rewrite Nat.add_0_r.
  - cbn [app simScan length].
    destruct (computeWaitSim' t (sim_modelName x) (sim_tokens x) sim) as [w s].
    destruct (le0 w); [done |].
    rewrite IH. by replace (i + S (length pre))%nat with (S i + length pre)%nat by lia.
Qed.

Lemma simScan_index t items :
  forall i minWait sim j m s,
    simScan' t i minWait items sim = (Some j, m, s) ->
    (i <= j < i + length items)%nat.
Proof.
  induction items as [| x items IH]; intros i minWait sim j m s; cbn [simScan length].
  - done.
  - destruct (computeWaitSim' t (sim_modelName x) (sim_tokens x) sim) as [w s'].
    destruct (le0 w).
    + intros [= <- <- <-]. lia.
    + intros H%IH. lia.
Qed.

Lemma splice_app_l {A : Type} (j : nat) (pre suf : list A) :
  (j < length pre)%nat ->
  splice j (pre ++ suf) = (fst (splice j pre), snd (splice j pre) ++ suf).
Proof.
  revert j. induction pre as [| x pre IH]; intros j Hj; [cbn in Hj; lia |].
  destruct j as [| j]; [done |].
  cbn [app splice length] in *. rewrite IH by lia. by destruct (splice j pre).
Qed.

Lemma splice_app_r {A : Type} (pre suf : list A) (k : nat) :
  splice (length pre + k) (pre ++ suf)
  = (fst (splice k suf), pre ++ snd (splice k suf)).
Proof.
  induction pre as [| x pre IH]; cbn.
  - by destruct (splice k suf).
  - rewrite IH. by destruct (splice k suf).
Qed.

Lemma splice_app_here {A : Type} (pre suf : list A) :
  splice (length pre) (pre ++ suf) = (fst (splice 0 suf), pre ++ snd (splice 0 suf)).
Proof. rewrite <- (splice_app_r pre suf 0). by rewrite Nat.add_0_r. Qed.

Lemma splice_Some_lt {A : Type} (j : nat) (arr : list A) :
  (j < length arr)%nat -> exists x, fst (splice j arr) = Some x.
Proof.
  rewrite splice_lookup. cbn [fst]. intros H.
  apply lookup_lt_is_Some_2 in H as [x Hx]. by exists x.
Qed.

Lemma splice_keeps {A : Type} (j : nat) (arr rest : list A) (next h : A) :
  splice j arr = (Some next, rest) -> h ∈ arr -> h <> next -> h ∈ rest.
Proof.
  revert j rest. induction arr as [| x arr IH]; intros [| j] rest; cbn; try done.
  - intros [= -> <-] Hin Hne. apply elem_of_cons in Hin as [-> | Hin]; done.
  - destruct (splice j arr) as [o rest'] eqn:E. intros [= -> <-] Hin Hne.
    apply elem_of_cons in Hin as [-> | Hin]; [by left |].
    right. by eapply IH.
Qed.

(** The cursor only moves forward: while the request is in the queue, the
    estimate is at least the distance of the cursor from [now]. *)
Lemma simLoop_lower_bound fuel :
  forall simQueue sim t e h,
    h ∈ simQueue -> sim_hypothetical h = true ->
    simLoop' fuel simQueue sim t = Some e ->
    Z.max 0 (t - now) <= e.
Proof.
  induction fuel as [| fuel IH]; intros simQueue sim t e h Hin Hhyp; [done |].
  cbn [simLoop]. destruct simQueue as [| x xs] eqn:Eq; [by apply elem_of_nil in Hin |].
  rewrite <- Eq in *. clear Eq.
  destruct (simScan' t 0 Infinity simQueue sim) as [[r minWait] sim'].
  destruct r as [i |].
  - destruct (splice i simQueue) as [[next |] rest] eqn:Es; [| done].
    destruct (sim_hypothetical next) eqn:Hn.
    + intros [= <-]. lia.
    + intros Hloop.
      assert (h ∈ rest) as Hrest.
      { eapply splice_keeps; [exact Es | exact Hin |]. intros ->. congruence. }
      eapply IH in Hloop; [| exact Hrest | exact Hhyp].
      assert (0 <= Z.max 0 perItemExecMs) by lia.
      destruct (truthyNumber (fallbackDelayMs opts)) as [d |] eqn:Ed.
      * assert (0 <= d).
        { apply fallback_nonneg. unfold truthyNumber in Ed.
          destruct (fallbackDelayMs opts) as [[| p | p] |]; congruence. }
        destruct rest; lia.
      * lia.
  - intros Hloop. eapply IH in Hloop; [| exact Hin | exact Hhyp].
    pose proof (sleepMs_clamp minWait). lia.
Qed.

Lemma fallback_advance {A : Type} (t' : Z) (rest : list A) (x : A) (suf : list A) :
  match truthyNumber (fallbackDelayMs opts), rest ++ x :: suf with
  | Some d, _ :: _ => t' + d
  | _, _ => t'
  end
  = match truthyNumber (fallbackDelayMs opts) with
    | Some d => t' + d
    | None => t'
    end.
Proof. destruct (truthyNumber (fallbackDelayMs opts)); by destruct rest. Qed.

(** The replay with one more pending item [X] in front of the request [H],
    when [X] is for the model of [H] and needs at least as many tokens:
    [X] is never runnable before [H] is, so the two replays agree until
    the shorter one picks [H]. *)
Lemma simLoop_one_more (X H : SimItem) :
  sim_modelName X = sim_modelName H ->
  sim_hypothetical X = false ->
  sim_hypothetical H = true ->
  Z.max 0 (sim_tokens H) <= Z.max 0 (sim_tokens X) ->
  forall fuel pre sim t e',
    simLoop' fuel (pre ++ [X; H]) sim t = Some e' ->
    exists e, simLoop' fuel (pre ++ [H]) sim t = Some e /\ e <= e'.
Proof.
  intros Hm HX HH Htok.
  induction fuel as [| fuel IH]; intros pre sim t e'; [done |].
  cbn [simLoop].
  destruct (pre ++ [X; H]) as [| a1 l1] eqn:E1; [by destruct pre |].
  rewrite <- E1. clear E1 a1 l1.
  destruct (pre ++ [H]) as [| a2 l2] eqn:E2; [by destruct pre |].
  rewrite <- E2. clear E2 a2 l2.
  rewrite !simScan_app.
  destruct (simScan' t 0 Infinity pre sim) as [[r m] s] eqn:Epre.
  destruct r as [j |].
  - pose proof (simScan_index _ _ _ _ _ _ _ _ Epre) as Hj.
    rewrite !splice_app_l by lia.
    destruct (splice_Some_lt j pre) as [next Hnext]; [lia |].
    destruct (splice j pre) as [o rest]. cbn [fst snd] in *. subst o.
    destruct (sim_hypothetical next).
    + intros [= <-]. eexists. split; [done | lia].
    + rewrite (fallback_advance _ rest X [H]), (fallback_advance _ rest H []).
      apply IH.
  - cbn [simScan Nat.add]. rewrite !computeWaitSim_eq, Hm. cbv beta iota.
    pose proof (waitSimOf_mono t (sim_modelName H) (sim_tokens H) (sim_tokens X)
                  (s !! bucketKey (sim_modelName H)) Htok) as Hle.
    set (wH := waitSimOf' t (sim_modelName H) (sim_tokens H)
                 (s !! bucketKey (sim_modelName H))) in *.
    set (wX := waitSimOf' t (sim_modelName H) (sim_tokens X)
                 (s !! bucketKey (sim_modelName H))) in *.
    destruct (le0 wX) eqn:EX.
    + rewrite (le0_waitLe _ _ Hle EX).
      rewrite !splice_app_here. cbn [splice fst snd]. rewrite HX, HH.
      intros Hloop. eexists. split; [done |].
      eapply (simLoop_lower_bound fuel _ _ _ _ H) in Hloop; [| | exact HH].
      * assert (0 <= Z.max 0 perItemExecMs) by lia.
        rewrite (fallback_advance _ pre H []) in Hloop.
        destruct (truthyNumber (fallbackDelayMs opts)) as [d |] eqn:Ed; [| lia].
        assert (0 <= d); [| lia].
        apply fallback_nonneg. unfold truthyNumber in Ed.
        destruct (fallbackDelayMs opts) as [[| p | p] |]; congruence.
      * apply elem_of_app. right. by apply list_elem_of_singleton.
    + rewrite settleSim_idem.
      destruct (settleSim_lookup t (sim_modelName H) s) as [_ ->]. fold wH.
      destruct (le0 wH) eqn:EH.
      * replace (S (length pre)) with (length pre + 1)%nat by lia.
        rewrite splice_app_r, splice_app_here. cbn [splice fst snd]. rewrite HH.
        intros [= <-]. eexists. split; [done | lia].
      * rewrite (lower_absorb _ _ _ Hle). apply IH.
Qed.

End EstimatorFacts.

(* --------------------------------------------------------------------- *)
(** ** The estimate and the length of the queue *)
(* --------------------------------------------------------------------- *)

(** C9 (as stated, fails on the code).  Model "A" has 9 tokens left in a
    minute window that ends in 100 ms and 100 tokens left this month; the
    request needs 10 tokens.  Behind the pending item [big] (100 tokens)
    the request is estimated to wait until the month is over, 3 600 000 ms:
    [big] runs first when the window ends and takes the month's tokens.
    With one more pending item [small] (1 token) appended, [small] runs at
    once, [big] no longer fits into the month, and the estimate for the
    request drops to 500 ms. *)
Lemma longer_queue_lowers_estimate :
  let big := Sample.item "1" "A" 100 in
  let small := Sample.item "2" "A" 1 in
  let store := RAMUsageStrategy {[ "A"%string := Sample.windowNearlyOver ]} in
  estimateWaitMs 0 Sample.tokenLimited Sample.t0 Sample.t0 500 1000
    (Sample.queuerOf [big] store) (Some "A"%string) 10 = Some 3600000
  /\ estimateWaitMs 0 Sample.tokenLimited Sample.t0 Sample.t0 500 1000
       (Sample.queuerOf [big; small] store) (Some "A"%string) 10 = Some 500.
Proof. vm_compute. split; reflexivity. Qed.

(** C9 (amended).  With a fallback delay that is not negative, appending to
    the pending queue one more item for the model of the request, with a
    token estimate at least that of the request, never decreases the
    estimate: whenever the replay of the longer queue ends with an
    estimate, the replay of the shorter queue ends within the same number
    of turns with an estimate that is not larger. *)
Theorem estimateWaitMs_monotone_in_like_items tz opts clk now perItemExecMs
    (fuel : nat) (q : RequestQueuer) (x : QueueItem) (m : option string)
    (tokensNeeded e' : Z) :
  (forall d, fallbackDelayMs opts = Some d -> 0 <= d) ->
  modelName x = m ->
  Z.max 0 tokensNeeded <= Z.max 0 (default 0 (tokens x)) ->
  estimateWaitMs tz opts clk now perItemExecMs fuel
    (withQueue (queue q ++ [x]) (usage q) q) m tokensNeeded = Some e' ->
  exists e,
    estimateWaitMs tz opts clk now perItemExecMs fuel q m tokensNeeded = Some e
    /\ e <= e'.
Proof.
  intros Hfb Hm Htok. unfold estimateWaitMs.
  destruct (noLimits (getActiveLimits opts m)
            && negb (bool_decide (is_Some (truthyNumber (fallbackDelayMs opts))))).
  - intros [= <-]. by exists 0.
  - cbn [queue usage withQueue]. unfold simQueueOf.
    rewrite map_app, <- app_assoc. cbn [List.map app].
    apply simLoop_one_more; cbn [sim_modelName sim_hypothetical sim_tokens];
      [exact Hfb | exact Hm | done | done | lia].
Qed.

(** One request per second, the model used 10 ms ago: behind [a] and [b] the
    request is estimated at 2990 ms, behind [a] alone at no more. *)
Lemma estimateWaitMs_monotone_in_like_items_witness :
  let a := Sample.item "a" "m" 0 in
  let b := Sample.item "b" "m" 5 in
  let store := RAMUsageStrategy {[ "m"%string := Sample.justUsed ]} in
  estimateWaitMs 0 Sample.onePerSecond Sample.t0 Sample.t0 500 100
    (Sample.queuerOf [a; b] store) (Some "m"%string) 5 = Some 2990
  /\ exists e,
       estimateWaitMs 0 Sample.onePerSecond Sample.t0 Sample.t0 500 100
         (Sample.queuerOf [a] store) (Some "m"%string) 5 = Some e
       /\ e <= 2990.
Proof.
  intros a b store.
  assert (estimateWaitMs 0 Sample.onePerSecond Sample.t0 Sample.t0 500 100
            (Sample.queuerOf [a; b] store) (Some "m"%string) 5 = Some 2990) as Hlong
    by (vm_compute; reflexivity).
  split; [exact Hlong |].
  apply (estimateWaitMs_monotone_in_like_items 0 Sample.onePerSecond Sample.t0
           Sample.t0 500 100 (Sample.queuerOf [a] store) b (Some "m"%string) 5 2990).
  - intros d Hd. discriminate Hd.
  - reflexivity.
  - vm_compute. discriminate.
  - exact Hlong.
Defined.

(* ===================================================================== *)
(** * Further properties of the code *)
(* ===================================================================== *)

(* --------------------------------------------------------------------- *)
(** ** Pruning and recording *)
(* --------------------------------------------------------------------- *)

Lemma shiftExpired_filter cut arr :
  ascending arr ->
  shiftExpired cut arr = List.filter (fun t => cut <? t) arr.
Proof.
  unfold ascending. induction 1 as [| t rest Hs IH Hall]; [done |].
  cbn. destruct (Z.leb_spec t cut) as [Hle | Hgt].
  - destruct (Z.ltb_spec cut t); [lia | done].
  - destruct (Z.ltb_spec cut t); [| lia]. f_equal.
    symmetry. apply forallb_filter_id. apply forallb_forall.
    intros x Hx. rewrite Forall_forall in Hall.
    apply list_elem_of_In, Hall in Hx. apply Z.ltb_lt. lia.
Qed.

Lemma shiftExpired_mono cut1 cut2 arr :
  cut1 <= cut2 -> shiftExpired cut2 (shiftExpired cut1 arr) = shiftExpired cut2 arr.
Proof.
  intros Hle. induction arr as [| t rest IH]; [done |]. cbn.
  destruct (Z.leb_spec t cut1).
  - destruct (Z.leb_spec t cut2); [done | lia].
  - done.
Qed.

Lemma shiftExpired_suffix cut arr : exists dropped, arr = dropped ++ shiftExpired cut arr.
Proof.
  induction arr as [| t rest [d IH]]; [by exists [] |]. cbn.
  destruct (t <=? cut); [| by exists []].
  exists (t :: d). cbn. by rewrite <- IH.
Qed.

Lemma shiftExpired_length cut arr : (length (shiftExpired cut arr) <= length arr)%nat.
Proof.
  destruct (shiftExpired_suffix cut arr) as [d Hd].
  rewrite Hd at 2. rewrite length_app. lia.
Qed.


Lemma ascending_suffix d arr : ascending (d ++ arr) -> ascending arr.
Proof.
  unfold ascending. induction d as [| x d IH]; [done |].
  cbn. intros H. apply StronglySorted_inv in H as [H _]. auto.
Qed.

Lemma ascending_shiftExpired cut arr : ascending arr -> ascending (shiftExpired cut arr).
Proof.
  destruct (shiftExpired_suffix cut arr) as [d Hd]. rewrite Hd at 1.
  apply ascending_suffix.
Qed.

Lemma Forall_shiftExpired (P : Z -> Prop) cut arr :
  Forall P arr -> Forall P (shiftExpired cut arr).
Proof.
  destruct (shiftExpired_suffix cut arr) as [d Hd]. rewrite Hd at 1.
  by intros [_ H]%Forall_app.
Qed.

Lemma ascending_snoc arr now :
  ascending arr -> Forall (fun t => t <= now) arr -> ascending (arr ++ [now]).
Proof.
  unfold ascending. induction 1 as [| t rest Hs IH Hall]; intros Hpast; cbn.
  - repeat constructor.
  - apply Forall_cons in Hpast as [Ht Hrest]. constructor; [by apply IH |].
    apply Forall_app. split; [done |]. by repeat constructor.
Qed.

(** X1.  On windows in ascending order, pruning keeps exactly the timestamps
    that are newer than the window. *)
Theorem pruneWindows_keeps_the_fresh now b :
  ascending (secondWindowTimestamps b) ->
  ascending (minuteWindowTimestamps b) ->
  ascending (dayWindowTimestamps b) ->
  secondWindowTimestamps (pruneWindows now b)
  = List.filter (fun t => now - t <? 1000) (secondWindowTimestamps b)
  /\ minuteWindowTimestamps (pruneWindows now b)
     = List.filter (fun t => now - t <? 60000) (minuteWindowTimestamps b)
  /\ dayWindowTimestamps (pruneWindows now b)
     = List.filter (fun t => now - t <? 86400000) (dayWindowTimestamps b).
Proof.
  intros H1 H2 H3. cbn.
  rewrite !shiftExpired_filter by done.
  repeat split; apply filter_ext; intros t;
    destruct (Z.ltb_spec (now - t) 1000), (Z.ltb_spec (now - t) 60000),
      (Z.ltb_spec (now - t) 86400000);
    match goal with |- (?a <? ?b) = _ => destruct (Z.ltb_spec a b) end; lia.
Qed.

Lemma pruneWindows_keeps_the_fresh_witness :
  let b := {| secondWindowTimestamps := [Sample.t0 - 1500; Sample.t0 - 10];
              minuteWindowTimestamps := [Sample.t0 - 1500; Sample.t0 - 10];
              dayWindowTimestamps := [Sample.t0 - 1500; Sample.t0 - 10];
              monthTokenCount := 0;
              monthTokenResetAt := Sample.february;
              monthRequestCount := 2;
              monthRequestResetAt := Sample.february;
              minuteTokenCount := 0;
              minuteTokenWindowStart := Sample.t0 - 1500 |} in
  secondWindowTimestamps (pruneWindows Sample.t0 b)
  = List.filter (fun t => Sample.t0 - t <? 1000) (secondWindowTimestamps b)
  /\ minuteWindowTimestamps (pruneWindows Sample.t0 b)
     = List.filter (fun t => Sample.t0 - t <? 60000) (minuteWindowTimestamps b)
  /\ dayWindowTimestamps (pruneWindows Sample.t0 b)
     = List.filter (fun t => Sample.t0 - t <? 86400000) (dayWindowTimestamps b).
Proof.
  intros b.
  apply (pruneWindows_keeps_the_fresh Sample.t0 b);
    repeat constructor; unfold Sample.t0; lia.
Defined.

(** X2.  Pruning at a later instant makes an earlier pruning redundant. *)
Theorem pruneWindows_composes t1 t2 b :
  t1 <= t2 -> pruneWindows t2 (pruneWindows t1 b) = pruneWindows t2 b.
Proof.
  intros Hle. unfold pruneWindows.
  cbn [secondWindowTimestamps minuteWindowTimestamps dayWindowTimestamps
       monthTokenCount monthTokenResetAt monthRequestCount monthRequestResetAt
       minuteTokenCount minuteTokenWindowStart].
  rewrite !shiftExpired_mono by lia. reflexivity.
Qed.

Lemma pruneWindows_composes_witness :
  pruneWindows (Sample.t0 + 2000) (pruneWindows Sample.t0 Sample.justUsed)
  = pruneWindows (Sample.t0 + 2000) Sample.justUsed.
Proof. apply pruneWindows_composes. unfold Sample.t0. lia. Defined.

Local Ltac fields :=
  cbn [secondWindowTimestamps minuteWindowTimestamps dayWindowTimestamps
       monthTokenCount monthTokenResetAt monthRequestCount monthRequestResetAt
       minuteTokenCount minuteTokenWindowStart].

Lemma maintain_unfold tz clk now b :
  maintain tz clk now b
  = {| secondWindowTimestamps := shiftExpired (now - 1000) (secondWindowTimestamps b);
       minuteWindowTimestamps := shiftExpired (now - 60000) (minuteWindowTimestamps b);
       dayWindowTimestamps := shiftExpired (now - 86400000) (dayWindowTimestamps b);
       monthTokenCount := if monthTokenResetAt b <=? now then 0 else monthTokenCount b;
       monthTokenResetAt :=
         if monthTokenResetAt b <=? now then startOfNextMonth tz clk
         else monthTokenResetAt b;
       monthRequestCount := if monthRequestResetAt b <=? now then 0 else monthRequestCount b;
       monthRequestResetAt :=
         if monthRequestResetAt b <=? now then startOfNextMonth tz clk
         else monthRequestResetAt b;
       minuteTokenCount :=
         if 60000 <=? now - minuteTokenWindowStart b then 0 else minuteTokenCount b;
       minuteTokenWindowStart :=
         if 60000 <=? now - minuteTokenWindowStart b then now
         else minuteTokenWindowStart b |}.
Proof.
  destruct b. unfold maintain.
  unfold maybeResetMonthlyTokens. fields.
  destruct (_ <=? now); unfold maybeResetMonthlyRequests; fields;
    destruct (_ <=? now); unfold maybeResetMinuteTokens; fields;
    destruct (60000 <=? _); reflexivity.
Qed.

Lemma maintainSim_unfold tz clk now b :
  maintainSim tz clk now b
  = {| secondWindowTimestamps := shiftExpired (now - 1000) (secondWindowTimestamps b);
       minuteWindowTimestamps := shiftExpired (now - 60000) (minuteWindowTimestamps b);
       dayWindowTimestamps := shiftExpired (now - 86400000) (dayWindowTimestamps b);
       monthTokenCount := if monthTokenResetAt b <=? now then 0 else monthTokenCount b;
       monthTokenResetAt :=
         if monthTokenResetAt b <=? now then startOfNextMonth tz clk
         else monthTokenResetAt b;
       monthRequestCount := if monthRequestResetAt b <=? now then 0 else monthRequestCount b;
       monthRequestResetAt :=
         if monthRequestResetAt b <=? now then startOfNextMonth tz clk
         else monthRequestResetAt b;
       minuteTokenCount := minuteTokenCount b;
       minuteTokenWindowStart := minuteTokenWindowStart b |}.
Proof.
  destruct b. unfold maintainSim.
  unfold maybeResetMonthlyTokens. fields.
  destruct (_ <=? now); unfold maybeResetMonthlyRequests; fields;
    destruct (_ <=? now); reflexivity.
Qed.

Lemma Forall_le_mono (t now : Z) arr :
  t <= now -> Forall (fun x => x <= t) arr -> Forall (fun x => x <= now) arr.
Proof.
  intros Hle H. eapply Forall_impl; [exact H |]. intros x Hx. cbn in Hx. lia.
Qed.

Lemma wellFormed_makeInitial tz clk now : wellFormed now (makeInitial tz clk).
Proof. split; cbn; try lia; constructor. Qed.

Lemma wellFormed_maintain tz clk t now b :
  wellFormed t b -> t <= now -> wellFormed now (maintain tz clk now b).
Proof.
  intros [] Hle. rewrite maintain_unfold. split; fields.
  1-3: by apply ascending_shiftExpired.
  1-3: by apply Forall_shiftExpired, (Forall_le_mono t).
  all: match goal with |- context [if ?c then _ else _] => destruct c end; lia.
Qed.

Lemma wellFormed_recordInto t now tokens b :
  wellFormed t b -> t <= now -> wellFormed now (recordInto now tokens b).
Proof.
  intros [] Hle. unfold recordInto, pruneWindows. split; fields.
  1-3: apply ascending_shiftExpired, ascending_snoc;
       [done | by apply (Forall_le_mono t)].
  1-3: apply Forall_shiftExpired, Forall_app; split;
       [by apply (Forall_le_mono t) | repeat constructor; lia].
  - destruct (0 <? tokens) eqn:E; [apply Z.ltb_lt in E |]; lia.
  - lia.
  - destruct (60000 <=? _), (0 <? tokens) eqn:E; try apply Z.ltb_lt in E; lia.
Qed.

(** X3.  The admission check and the recording of a request keep a bucket in
    order: windows ascending, nothing later than the clock, counters not
    negative; the bucket of a new key is in order. *)
Theorem bucket_stays_in_order tz clk t now tokens b :
  wellFormed t b -> t <= now ->
  wellFormed now (maintain tz clk now b)
  /\ wellFormed now (recordInto now tokens b)
  /\ wellFormed now (makeInitial tz clk).
Proof.
  intros Hwf Hle. split; [| split].
  - by apply (wellFormed_maintain tz clk t).
  - by apply (wellFormed_recordInto t).
  - apply wellFormed_makeInitial.
Qed.

Lemma bucket_stays_in_order_witness :
  wellFormed (Sample.t0 + 40) (maintain 0 Sample.t0 (Sample.t0 + 40) Sample.justUsed)
  /\ wellFormed (Sample.t0 + 40) (recordInto (Sample.t0 + 40) 7 Sample.justUsed)
  /\ wellFormed (Sample.t0 + 40) (makeInitial 0 Sample.t0).
Proof.
  apply (bucket_stays_in_order 0 Sample.t0 Sample.t0 (Sample.t0 + 40) 7 Sample.justUsed).
  - split; cbn; try lia; repeat constructor; unfold Sample.t0; lia.
  - unfold Sample.t0; lia.
Defined.

Lemma within_recorded len now t arr :
  0 < len -> ascending arr -> Forall (fun x => x <= t) arr -> t <= now ->
  within len now (shiftExpired (now - len) (arr ++ [now]))
  /\ last (shiftExpired (now - len) (arr ++ [now])) = Some now.
Proof.
  intros Hlen Hasc Hpast Hle.
  assert (Hasc' : ascending (arr ++ [now])).
  { apply ascending_snoc; [done | by apply (Forall_le_mono t)]. }
  assert (Hpast' : Forall (fun x => x <= now) (arr ++ [now])).
  { apply Forall_app. split; [by apply (Forall_le_mono t) |].
    repeat constructor. lia. }
  split.
  - unfold within. rewrite shiftExpired_filter by done.
    apply Forall_forall. intros x Hx. apply list_elem_of_In, filter_In in Hx as [Hin Hgt].
    apply Z.ltb_lt in Hgt. rewrite Forall_forall in Hpast'.
    apply list_elem_of_In, Hpast' in Hin. lia.
  - rewrite shiftExpired_filter by done. rewrite List.filter_app. cbn.
    destruct (Z.ltb_spec (now - len) now); [| lia]. apply last_snoc.
Qed.

(** X4.  Recording a request on a bucket in order: every window then holds only
    instants inside its length, the newest being the request; the monthly
    request counter grows by one and the token counters by the tokens of
    the request. *)
Theorem recorded_request_is_counted t now tokens b :
  wellFormed t b -> t <= now ->
  let b' := recordInto now tokens b in
  within 1000 now (secondWindowTimestamps b')
  /\ within 60000 now (minuteWindowTimestamps b')
  /\ within 86400000 now (dayWindowTimestamps b')
  /\ last (secondWindowTimestamps b') = Some now
  /\ last (minuteWindowTimestamps b') = Some now
  /\ last (dayWindowTimestamps b') = Some now
  /\ monthRequestCount b' = monthRequestCount b + 1
  /\ monthTokenCount b' = monthTokenCount b + Z.max 0 tokens
  /\ minuteTokenCount b'
     = (if 60000 <=? now - minuteTokenWindowStart b then 0 else minuteTokenCount b)
       + Z.max 0 tokens.
Proof.
  intros [] Hle b'. subst b'. unfold recordInto, pruneWindows. fields.
  destruct (within_recorded 1000 now t (secondWindowTimestamps b)) as [? ?]; try done.
  destruct (within_recorded 60000 now t (minuteWindowTimestamps b)) as [? ?]; try done.
  destruct (within_recorded 86400000 now t (dayWindowTimestamps b)) as [? ?]; try done.
  repeat (split; [done |]).
  split; destruct (Z.ltb_spec 0 tokens); try destruct (60000 <=? _); lia.
Qed.

Lemma recorded_request_is_counted_witness :
  let b' := recordInto (Sample.t0 + 40) 7 Sample.justUsed in
  within 1000 (Sample.t0 + 40) (secondWindowTimestamps b')
  /\ within 60000 (Sample.t0 + 40) (minuteWindowTimestamps b')
  /\ within 86400000 (Sample.t0 + 40) (dayWindowTimestamps b')
  /\ last (secondWindowTimestamps b') = Some (Sample.t0 + 40)
  /\ last (minuteWindowTimestamps b') = Some (Sample.t0 + 40)
  /\ last (dayWindowTimestamps b') = Some (Sample.t0 + 40)
  /\ monthRequestCount b' = monthRequestCount Sample.justUsed + 1
  /\ monthTokenCount b' = monthTokenCount Sample.justUsed + Z.max 0 7
  /\ minuteTokenCount b'
     = (if 60000 <=? Sample.t0 + 40 - minuteTokenWindowStart Sample.justUsed
        then 0 else minuteTokenCount Sample.justUsed)
       + Z.max 0 7.
Proof.
  apply (recorded_request_is_counted Sample.t0 (Sample.t0 + 40) 7 Sample.justUsed).
  - split; cbn; try lia; repeat constructor; unfold Sample.t0; lia.
  - unfold Sample.t0; lia.
Defined.

(* --------------------------------------------------------------------- *)
(** ** An admitted request stays within the limits *)
(* --------------------------------------------------------------------- *)











(* --------------------------------------------------------------------- *)
(** ** The limits of a model *)
(* --------------------------------------------------------------------- *)

Lemma overrideOf_cases ms d :
  (overrideOf ms d ∈ ms /\ type (overrideOf ms d) = type d)
  \/ (overrideOf ms d = d /\ forall x, x ∈ ms -> type x <> type d).
Proof.
  unfold overrideOf.
  destruct (find (fun modelLimit => bool_decide (type modelLimit = type d)) ms)
    as [y |] eqn:E; cbn [from_option Datatypes.id].
  - apply find_some in E as [Hin Hty]. apply bool_decide_eq_true in Hty.
    left. split; [by apply list_elem_of_In | done].
  - right. split; [done |]. intros x Hx%list_elem_of_In.
    pose proof (find_none _ _ E x Hx) as Hn. cbn in Hn.
    by apply bool_decide_eq_false in Hn.
Qed.

(** X6.  For a model that has limits of its own, the active limits are the
    model's limits and the defaults of the types that the model does not
    set: an active limit is one of the two, a default whose type the model
    sets is replaced, and every type of either list is active. *)
Theorem getActiveLimits_merges opts (m : string) (ms : list RateLimitConfig) :
  m <> ""%string ->
  modelLimits opts ≫= (fun ml => ml !! m) = Some ms ->
  ms <> [] ->
  let dl := default [] (defaultLimits opts) in
  exists active,
    getActiveLimits opts (Some m) = Some active
    /\ (forall l, l ∈ active ->
          l ∈ ms \/ (l ∈ dl /\ forall x, x ∈ ms -> type x <> type l))
    /\ (forall x, x ∈ ms -> exists l, l ∈ active /\ type l = type x)
    /\ (forall d, d ∈ dl -> exists l, l ∈ active /\ type l = type d)
    /\ List.map type (take (length dl) active) = List.map type dl.
Proof.
  intros Hm Hml Hms dl. unfold getActiveLimits. fold dl.
  assert (truthyString (Some m) = Some m) as -> by (by destruct m).
  cbn [mbind option_bind].
  assert (default ∅ (modelLimits opts) !! m = Some ms) as ->.
  { destruct (modelLimits opts) as [ml |]; [exact Hml | discriminate]. }
  destruct ms as [| l0 ls]; [done |]. set (ms := l0 :: ls) in *.
  eexists. split; [reflexivity |]. split; [| split; [| split]].
  - intros l [Hl | Hl]%elem_of_app.
    + apply list_elem_of_In, in_map_iff in Hl as (d & <- & Hd).
      destruct (overrideOf_cases ms d) as [[Hin _] | [-> Hno]]; [by left |].
      right. split; [by apply list_elem_of_In | done].
    + left. apply list_elem_of_In, filter_In in Hl as [Hl _]. by apply list_elem_of_In.
  - intros x Hx.
    destruct (existsb (fun defaultLimit => bool_decide (type defaultLimit = type x)) dl)
      eqn:E.
    + apply existsb_exists in E as (d & Hd & Hty). apply bool_decide_eq_true in Hty.
      exists (overrideOf ms d). split.
      * apply elem_of_app. left. apply list_elem_of_In, in_map, Hd.
      * destruct (overrideOf_cases ms d) as [[_ ->] | [-> _]]; done.
    + exists x. split; [| done]. apply elem_of_app. right.
      apply list_elem_of_In, filter_In. split; [by apply list_elem_of_In |].
      by rewrite E.
  - intros d Hd. exists (overrideOf ms d). split.
    + apply elem_of_app. left. by apply list_elem_of_In, in_map, list_elem_of_In.
    + destruct (overrideOf_cases ms d) as [[_ ->] | [-> _]]; done.
  - rewrite take_app_length' by (by rewrite length_map).
    rewrite map_map. apply map_ext_in. intros d _.
    destruct (overrideOf_cases ms d) as [[_ ->] | [-> _]]; done.
Qed.

Lemma getActiveLimits_merges_witness :
  exists active,
    getActiveLimits Sample.slowFast (Some "fast"%string) = Some active
    /\ (forall l, l ∈ active ->
          l ∈ [ {| type := RPS; limit := 100 |} ]
          \/ (l ∈ default [] (defaultLimits Sample.slowFast)
              /\ forall x, x ∈ [ {| type := RPS; limit := 100 |} ] -> type x <> type l))
    /\ (forall x, x ∈ [ {| type := RPS; limit := 100 |} ] ->
          exists l, l ∈ active /\ type l = type x)
    /\ (forall d, d ∈ default [] (defaultLimits Sample.slowFast) ->
          exists l, l ∈ active /\ type l = type d)
    /\ List.map type (take (length (default [] (defaultLimits Sample.slowFast))) active)
       = List.map type (default [] (defaultLimits Sample.slowFast)).
Proof.
  apply (getActiveLimits_merges Sample.slowFast "fast"
           [ {| type := RPS; limit := 100 |} ]).
  - discriminate.
  - vm_compute. reflexivity.
  - discriminate.
Defined.

(* --------------------------------------------------------------------- *)
(** ** The estimate of the execution time *)
(* --------------------------------------------------------------------- *)

Lemma updateExecDuration_nonneg d q :
  (forall e, execEwmaMs q = Some e -> (0 <= e)%Q) ->
  forall e, execEwmaMs (updateExecDuration d q) = Some e -> (0 <= e)%Q.
Proof.
  intros Hq e. unfold updateExecDuration.
  destruct (Z.ltb_spec d 0) as [Hd | Hd]; [apply Hq |].
  cbn [execEwmaMs]. intros [= <-].
  assert (0 <= inject_Z d)%Q as Hd'.
  { change (inject_Z 0 <= inject_Z d)%Q. by rewrite <- Zle_Qle. }
  destruct (execEwmaMs q) as [e0 |]; [| done].
  specialize (Hq e0 eq_refl). lra.
Qed.

(** X7.  From a queuer that has no sample yet, whatever durations are reported:
    the estimate of the execution time is never negative, the samples
    counted are the durations that are not negative, and the default of
    500 ms is in use exactly as long as none was counted. *)
Theorem exec_estimate_never_negative (durations : list Z) (q : RequestQueuer) :
  execEwmaMs q = None ->
  execSamples q = 0 ->
  let q' := fold_left (fun q d => updateExecDuration d q) durations q in
  (0 <= getEstimatedExecMs q')%Q
  /\ execSamples q' = Z.of_nat (length (List.filter (fun d => 0 <=? d) durations))
  /\ (execEwmaMs q' = None <-> Forall (fun d => d < 0) durations)
  /\ queue q' = queue q
  /\ usage q' = usage q.
Proof.
  intros Hnone Hzero q'. subst q'.
  assert (Hgen : forall ds q0,
    (forall e, execEwmaMs q0 = Some e -> (0 <= e)%Q) ->
    let q1 := fold_left (fun q d => updateExecDuration d q) ds q0 in
    (forall e, execEwmaMs q1 = Some e -> (0 <= e)%Q)
    /\ execSamples q1
       = execSamples q0 + Z.of_nat (length (List.filter (fun d => 0 <=? d) ds))
    /\ (execEwmaMs q1 = None <-> execEwmaMs q0 = None /\ Forall (fun d => d < 0) ds)
    /\ queue q1 = queue q0 /\ usage q1 = usage q0).
  { induction ds as [| d ds IH]; intros q0 Hq0; cbn [fold_left].
    - cbn. split; [done |]. split; [lia |]. split; [| done].
      split; [intros H; split; [done | constructor] | by intros [H _]].
    - destruct (IH (updateExecDuration d q0) (updateExecDuration_nonneg d q0 Hq0))
        as (H1 & H2 & H3 & H4 & H5).
      split; [exact H1 |]. rewrite H2, H3, H4, H5.
      rewrite queue_updateExecDuration, usage_updateExecDuration.
      unfold updateExecDuration. cbn [List.filter].
      destruct (Z.ltb_spec d 0) as [Hd | Hd].
      + destruct (Z.leb_spec 0 d); [lia |]. split; [done |].
        split; [| done]. split.
        * intros [Hn Hall]. split; [done | by constructor].
        * intros [Hn Hall]. apply Forall_cons in Hall as [_ Hall]. done.
      + destruct (Z.leb_spec 0 d); [| lia]. cbn [execSamples execEwmaMs length].
        split; [lia |]. split; [| done]. split.
        * intros [Hn _]. discriminate.
        * intros [_ Hall]. apply Forall_cons in Hall as [Hneg _]. lia. }
  destruct (Hgen durations q) as (H1 & H2 & H3 & H4 & H5).
  { rewrite Hnone. discriminate. }
  split.
  { unfold getEstimatedExecMs.
    destruct (execEwmaMs (fold_left _ durations q)) as [e |];
      cbn [from_option Datatypes.id]; [by apply H1 | done]. }
  split; [rewrite H2, Hzero; lia |]. split; [| done].
  rewrite H3. split; [by intros [_ H] | by intros H].
Qed.

Lemma exec_estimate_never_negative_witness :
  let q := Sample.queuerOf [] (RAMUsageStrategy ∅) in
  let q' := fold_left (fun q d => updateExecDuration d q) [40; -5; 120] q in
  (0 <= getEstimatedExecMs q')%Q
  /\ execSamples q' = Z.of_nat (length (List.filter (fun d => 0 <=? d) [40; -5; 120]))
  /\ (execEwmaMs q' = None <-> Forall (fun d => d < 0) [40; -5; 120])
  /\ queue q' = queue q
  /\ usage q' = usage q.
Proof.
  apply (exec_estimate_never_negative [40; -5; 120]
           (Sample.queuerOf [] (RAMUsageStrategy ∅))); reflexivity.
Defined.

(* --------------------------------------------------------------------- *)
(** ** The dispatch loop loses no request *)
(* --------------------------------------------------------------------- *)

Lemma settledItems_app {T : Type} (a b : list (Effect T)) :
  settledItems (a ++ b) = settledItems a ++ settledItems b.
Proof.
  induction a as [| e a IH]; [done |]. destruct e; cbn; by rewrite IH.
Qed.

Lemma delays_app {T : Type} (a b : list (Effect T)) :
  delays (a ++ b) = delays a ++ delays b.
Proof.
  induction a as [| e a IH]; [done |]. destruct e; cbn; by rewrite IH.
Qed.

Lemma settledItems_fallbackPause opts {T : Type} q :
  settledItems (fallbackPause opts (T := T) q) = [].
Proof.
  unfold fallbackPause. by destruct (truthyNumber (fallbackDelayMs opts)), (queue q).
Qed.

Lemma settledItems_dispatch tz {T : Type} (it : Iteration T) item q :
  settledItems (fst (dispatch tz it item q)) = [item].
Proof. unfold dispatch. by destruct (it_outcome it). Qed.

Lemma delays_dispatch tz {T : Type} (it : Iteration T) item q :
  delays (fst (dispatch tz it item q)) = [].
Proof. unfold dispatch. by destruct (it_outcome it). Qed.

Lemma splice_conserves {A : Type} (i : nat) (arr : list A) :
  arr ≡ₚ option_list (fst (splice i arr)) ++ snd (splice i arr)
  /\ sublist (snd (splice i arr)) arr.
Proof.
  revert i. induction arr as [| x arr IH]; intros i.
  { destruct i; cbn; split; constructor. }
  destruct i as [| i]; cbn.
  - split; [done |]. by apply sublist_cons.
  - specialize (IH i). destruct (splice i arr) as [o rest]. cbn [fst snd] in *.
    destruct IH as [IH1 IH2]. split.
    + rewrite IH1 at 1. by rewrite Permutation_middle.
    + by apply sublist_skip.
Qed.

Lemma iteration_conserves tz opts {T : Type} (it : Iteration T) q :
  queue q ≡ₚ settledItems (fst (iteration tz opts it q))
             ++ queue (snd (iteration tz opts it q))
  /\ sublist (queue (snd (iteration tz opts it q))) (queue q).
Proof.
  unfold iteration.
  destruct (scan tz opts (it_clk it) (it_now it) 0 Infinity (queue q) (usage q))
    as [[[i |] minWait] u].
  2: { cbn. done. }
  destruct (splice_conserves i (queue q)) as [Hperm Hsub].
  destruct (splice i (queue q)) as [[item |] rest]; cbn [fst snd option_list] in *.
  2: { cbn. done. }
  pose proof (settledItems_dispatch tz it item (withQueue rest u q)) as Hs.
  pose proof (queue_dispatch tz T it item (withQueue rest u q)) as Hq.
  destruct (dispatch tz it item (withQueue rest u q)) as [effects q'].
  cbn [fst snd] in *. rewrite settledItems_app, Hs, settledItems_fallbackPause, Hq.
  cbn [queue withQueue app]. done.
Qed.

(** X8.  Whatever the turns of the dispatch loop do, every request of the queue
    is either settled (resolved or rejected) exactly once or still queued,
    and the requests that stay queued keep their order. *)
Theorem processLoop_loses_no_request tz opts {T : Type}
    (its : list (Iteration T)) (q : RequestQueuer) :
  queue q ≡ₚ settledItems (fst (processLoop tz opts its q))
             ++ queue (snd (processLoop tz opts its q))
  /\ sublist (queue (snd (processLoop tz opts its q))) (queue q).
Proof.
  revert q. induction its as [| it its IH]; intros q; cbn [processLoop].
  - destruct (queue q) eqn:E; cbn; [done |]. rewrite E. done.
  - destruct (queue q) as [| x rest] eqn:E; cbn [fst snd]; [done |].
    rewrite <- E.
    destruct (iteration_conserves tz opts it q) as [H1 H2].
    destruct (iteration tz opts it q) as [effects q'].
    destruct (IH q') as [H3 H4].
    destruct (processLoop tz opts its q') as [effects' q''].
    cbn [fst snd] in *. rewrite settledItems_app. split.
    + rewrite H1 at 1. rewrite H3 at 1. by rewrite app_assoc.
    + by etrans.
Qed.

Lemma iteration_head_unlimited tz opts {T : Type} (it : Iteration T) q item rest :
  queue q = item :: rest ->
  noLimits (getActiveLimits opts (modelName item)) = true ->
  iteration tz opts it q
  = (fst (dispatch tz it item (withQueue rest (usage q) q))
       ++ fallbackPause opts (snd (dispatch tz it item (withQueue rest (usage q) q))),
     snd (dispatch tz it item (withQueue rest (usage q) q))).
Proof.
  intros Hq Hno. unfold iteration. rewrite Hq. cbn [scan].
  rewrite (computeWaitMs_no_limits _ _ _ _ _ _ _ Hno). cbn [le0 Z.leb Z.compare splice].
  by destruct (dispatch tz it item (withQueue rest (usage q) q)).
Qed.

(** X9.  When no request of the queue is of a model with limits, the dispatch
    loop settles the requests in their order of arrival, one per turn, and
    pauses for the fallback delay between two requests and not after the
    last one. *)
Theorem unlimited_requests_run_in_arrival_order tz opts {T : Type}
    (its : list (Iteration T)) (q : RequestQueuer) :
  (forall item, item ∈ queue q ->
                noLimits (getActiveLimits opts (modelName item)) = true) ->
  (length (queue q) <= length its)%nat ->
  let r := processLoop tz opts its q in
  settledItems (fst r) = queue q
  /\ queue (snd r) = []
  /\ isProcessing (snd r) = false
  /\ delays (fst r)
     = match truthyNumber (fallbackDelayMs opts) with
       | Some d => replicate (length (queue q) - 1) d
       | None => []
       end.
Proof.
  revert q. induction its as [| it its IH]; intros q Hno Hlen r; subst r.
  - destruct (queue q) eqn:E; [| cbn in Hlen; lia]. cbn [processLoop]. rewrite E.
    cbn. by destruct (truthyNumber _).
  - cbn [processLoop]. destruct (queue q) as [| item rest] eqn:E.
    { cbn. by destruct (truthyNumber _). }
    rewrite (iteration_head_unlimited tz opts it q item rest E)
      by (apply Hno, elem_of_cons; by left).
    pose proof (queue_dispatch tz T it item (withQueue rest (usage q) q)) as Hq.
    pose proof (settledItems_dispatch tz it item (withQueue rest (usage q) q)) as Hs.
    pose proof (delays_dispatch tz it item (withQueue rest (usage q) q)) as Hd.
    destruct (dispatch tz it item (withQueue rest (usage q) q)) as [effects q'].
    cbn [fst snd queue withQueue] in *.
    destruct (IH q') as (H1 & H2 & H3 & H4).
    { intros x Hx. apply Hno, elem_of_cons. right. by rewrite <- Hq. }
    { rewrite Hq. cbn in Hlen. lia. }
    destruct (processLoop tz opts its q') as [effects' q''].
    cbn [fst snd] in *.
    rewrite !settledItems_app, !delays_app, Hs, Hd, settledItems_fallbackPause, H1, Hq.
    split; [done |]. split; [done |]. split; [done |].
    rewrite H4, Hq. unfold fallbackPause. rewrite Hq.
    destruct (truthyNumber (fallbackDelayMs opts)) as [d |]; [| done].
    destruct rest as [| x rest']; [done |]. cbn [app delays length].
    replace (S (S (length rest')) - 1)%nat with (S (length rest')) by lia.
    replace (S (length rest') - 1)%nat with (length rest') by lia. done.
Qed.

Lemma unlimited_requests_run_in_arrival_order_witness :
  let opts := {| defaultLimits := None; modelLimits := None;
                 fallbackDelayMs := Some 250; label := None |} in
  let a := Sample.item "a" "m" 7 in
  let b := Sample.item "b" "n" 9 in
  let q := Sample.queuerOf [a; b] (RAMUsageStrategy ∅) in
  let its := [Sample.turn (Fulfilled "ok"%string);
              Sample.turn (Threw (T := string) (ErrorObject "no"))] in
  let r := processLoop 0 opts its q in
  settledItems (fst r) = queue q
  /\ queue (snd r) = []
  /\ isProcessing (snd r) = false
  /\ delays (fst r)
     = match truthyNumber (fallbackDelayMs opts) with
       | Some d => replicate (length (queue q) - 1) d
       | None => []
       end.
Proof.
  intros opts a b q its.
  apply (unlimited_requests_run_in_arrival_order 0 opts its q).
  - intros item Hitem.
    apply elem_of_cons in Hitem as [-> | Hitem];
      [| apply list_elem_of_singleton in Hitem as ->]; vm_compute; reflexivity.
  - cbn. lia.
Defined.

(* --------------------------------------------------------------------- *)
(** ** The methods with their exception, and what they return *)
(* --------------------------------------------------------------------- *)

Lemma computeWaitMs_returns tz opts clk now model tokens u r :
  Throwing.computeWaitMs tz opts clk now model tokens u = Returns r ->
  computeWaitMs tz opts clk now model tokens u = r.
Proof.
  unfold Throwing.computeWaitMs, computeWaitMs.
  destruct (Throwing.getActiveLimits opts model) as [a |] eqn:E; [| done].
  rewrite (getActiveLimits_returns _ _ _ E). cbn [mbind Completion_bind].
  destruct a as [[| l ls] |]; try (by intros [= <-]).
  destruct (getBucket _ _ _). by intros [= <-].
Qed.

Lemma add_returns opts estimateTokenCount newId text model q a :
  Throwing.add opts estimateTokenCount newId text model q = Returns a ->
  add opts estimateTokenCount newId text model q = a
  /\ returns (Throwing.getActiveLimits opts model).
Proof.
  unfold Throwing.add, add.
  destruct (Throwing.getActiveLimits opts model) as [active |] eqn:E; [| done].
  rewrite (getActiveLimits_returns _ _ _ E). cbn [mbind Completion_bind].
  destruct (_ && _); by intros [= <-].
Qed.

(** The dispatch loop never meets the exception on a queue that [add]
    has filled: the admission check of an item whose model [add] has
    accepted returns. *)
Lemma computeWaitMs_of_added tz opts estimateTokenCount clk now newId text model
    tokens u q a :
  Throwing.add opts estimateTokenCount newId text model q = Returns a ->
  Throwing.computeWaitMs tz opts clk now model tokens u
  = Returns (computeWaitMs tz opts clk now model tokens u).
Proof.
  intros Hadd. apply add_returns in Hadd as [_ Hret].
  destruct (Throwing.computeWaitMs tz opts clk now model tokens u) as [r |] eqn:E.
  - by rewrite (computeWaitMs_returns _ _ _ _ _ _ _ _ E).
  - unfold Throwing.computeWaitMs in E.
    destruct (Throwing.getActiveLimits opts model) as [act |]; [| done].
    cbn [mbind Completion_bind] in E. destruct act as [[| l ls] |]; try done.
    by destruct (getBucket _ _ _).
Qed.

Lemma computeWaitSim_returns tz opts clk now t m tokens sim r :
  Throwing.computeWaitSim tz opts clk now t m tokens sim = Returns r ->
  computeWaitSim tz opts clk now t m tokens sim = r.
Proof.
  unfold Throwing.computeWaitSim, computeWaitSim.
  destruct (Throwing.getActiveLimits opts m) as [a |] eqn:E; [| done].
  rewrite (getActiveLimits_returns _ _ _ E). cbn [mbind Completion_bind].
  destruct a as [[| l ls] |]; try (by intros [= <-]).
  destruct (getBucketSim _ _ _ _ _). by intros [= <-].
Qed.

Lemma simScan_returns tz opts clk now t items :
  forall i minWait sim r,
    Throwing.simScan tz opts clk now t i minWait items sim = Returns r ->
    simScan tz opts clk now t i minWait items sim = r.
Proof.
  induction items as [| x rest IH]; intros i minWait sim r; cbn [Throwing.simScan simScan].
  - by intros [= <-].
  - destruct (Throwing.computeWaitSim tz opts clk now t (sim_modelName x)
                (sim_tokens x) sim) as [[w sim'] |] eqn:E; [| done].
    rewrite (computeWaitSim_returns _ _ _ _ _ _ _ _ _ E).
    cbn [mbind Completion_bind]. destruct (le0 w); [by intros [= <-] | apply IH].
Qed.

Lemma simLoop_returns tz opts clk now perItemExecMs fuel :
  forall simQueue sim t z,
    Throwing.simLoop tz opts clk now perItemExecMs fuel simQueue sim t
    = Some (Returns z) ->
    simLoop tz opts clk now perItemExecMs fuel simQueue sim t = Some z.
Proof.
  induction fuel as [| fuel IH]; intros simQueue sim t z;
    cbn [Throwing.simLoop simLoop]; [done |].
  destruct simQueue as [| x rest]; [by intros [= <-] |].
  destruct (Throwing.simScan tz opts clk now t 0 Infinity (x :: rest) sim)
    as [[[runnable minWait] sim'] |] eqn:E; [| done].
  rewrite (simScan_returns _ _ _ _ _ _ _ _ _ _ E).
  destruct runnable as [i |]; [| apply IH].
  destruct (splice i (x :: rest)) as [[next |] rest']; [| done].
  destruct (sim_hypothetical next); [by intros [= <-] | apply IH].
Qed.

(** Where [estimateWaitMs] returns, it returns what the replay on the
    merged limits gives. *)
Lemma estimateWaitMs_returns tz opts clk now perItemExecMs fuel q m tokensNeeded z :
  Throwing.estimateWaitMs tz opts clk now perItemExecMs fuel q m tokensNeeded
  = Some (Returns z) ->
  estimateWaitMs tz opts clk now perItemExecMs fuel q m tokensNeeded = Some z.
Proof.
  unfold Throwing.estimateWaitMs, estimateWaitMs.
  destruct (Throwing.getActiveLimits opts m) as [a |] eqn:E; [| done].
  rewrite (getActiveLimits_returns _ _ _ E).
  destruct (_ && _); [by intros [= <-] | apply simLoop_returns].
Qed.

Lemma bestFrom_returns tz clk now fuel execMs model tokensNeeded queues :
  forall i bestIdx bestWait r,
    Throwing.bestFrom tz clk now fuel execMs model tokensNeeded i bestIdx bestWait
      queues = Some (Returns r) ->
    bestFrom tz clk now fuel execMs model tokensNeeded i bestIdx bestWait queues
    = Some r.
Proof.
  induction queues as [| q rest IH]; intros i bestIdx bestWait r;
    cbn [Throwing.bestFrom bestFrom]; [by intros [= <-] |].
  destruct (Throwing.estimateWaitMs tz (q_opts q) clk now (execMs (q_state q)) fuel
              (q_state q) (Some model) tokensNeeded) as [[w |] |] eqn:E; try done.
  rewrite (estimateWaitMs_returns _ _ _ _ _ _ _ _ _ _ E).
  destruct (ltMin (Num w) bestWait); apply IH.
Qed.

(** For a provider that both tables hold as an own property, where
    [chooseQueue] returns, it returns the selection by the own
    properties. *)
Lemma chooseQueue_returns tz clk now fuel execMs estimateTokenCount (Client : Type)
    (queuesByProvider : gmap string (list Queuer))
    (clientsByProvider : gmap string (list Client))
    (provider model : string) (tokenText : option string)
    (queues : list Queuer) (clients : list Client) c :
  queuesByProvider !! provider = Some queues ->
  clientsByProvider !! provider = Some clients ->
  Throwing.chooseQueue tz clk now fuel execMs estimateTokenCount
    queuesByProvider clientsByProvider provider model tokenText = Some (Returns c) ->
  chooseQueue tz clk now fuel execMs estimateTokenCount
    queuesByProvider clientsByProvider provider model tokenText = Some c.
Proof.
  intros Hq Hc. unfold Throwing.chooseQueue, chooseQueue, JsObject.get.
  rewrite Hq, Hc. cbn [JsObject.truthyLength].
  destruct queues as [| q qs]; [by intros [= <-] |].
  destruct clients as [| cl cls]; [by intros [= <-] |].
  cbn [negb orb].
  destruct (Throwing.bestFrom _ _ _ _ _ _ _ _ _ _ _) as [[[bi bw] |] |] eqn:E; try done.
  rewrite (bestFrom_returns _ _ _ _ _ _ _ _ _ _ _ _ E).
  destruct bi as [i |]; [by intros [= <-] |].
  destruct (getLeastLoadedIndex (q :: qs)); by intros [= <-].
Qed.

(** A provider without queues, or without clients, gives [null]: the
    read finds nothing, an empty array, or an inherited value without a
    [length] other than 0. *)
Lemma chooseQueue_null_without_queues tz clk now fuel execMs estimateTokenCount
    (Client : Type) (queuesByProvider : gmap string (list Queuer))
    (clientsByProvider : gmap string (list Client))
    (provider model : string) (tokenText : option string) :
  JsObject.truthyLength (JsObject.get queuesByProvider provider) = false
  \/ JsObject.truthyLength (JsObject.get clientsByProvider provider) = false ->
  Throwing.chooseQueue tz clk now fuel execMs estimateTokenCount
    queuesByProvider clientsByProvider provider model tokenText = Some (Returns None).
Proof.
  unfold Throwing.chooseQueue. intros [-> | ->]; [done |].
  by rewrite orb_true_r.
Qed.

(** The provider [constructor], which no table holds, makes [chooseQueue]
    throw: the handler then answers 500 and keeps no target. *)
Lemma chooseQueue_throws_on_inherited_provider :
  Throwing.chooseQueue 0 Sample.t0 Sample.t0 1000 (fun _ => 500) Sample.countChars
    SampleRouter.queuesByProvider SampleRouter.clientsByProvider
    "constructor" "m" (Some "hello"%string) = Some ThrowsTypeError
  /\ Throwing.bestTarget 0 Sample.t0 Sample.t0 1000 (fun _ => 500) Sample.countChars
       SampleRouter.queuesByProvider SampleRouter.clientsByProvider
       (Some "hello"%string) None
       [("mistral"%string, "m"%string); ("constructor"%string, "m"%string)]
     = Some ThrowsTypeError.
Proof. vm_compute. split; reflexivity. Qed.

(* --------------------------------------------------------------------- *)
(** ** More on the estimator *)
(* --------------------------------------------------------------------- *)

Lemma simLoop_nonneg tz opts clk now perItemExecMs fuel :
  forall simQueue sim t e,
    simLoop tz opts clk now perItemExecMs fuel simQueue sim t = Some e -> 0 <= e.
Proof.
  induction fuel as [| fuel IH]; intros simQueue sim t e; cbn [simLoop]; [done |].
  destruct simQueue as [| x rest]; [intros [= <-]; lia |].
  destruct (simScan tz opts clk now t 0 Infinity (x :: rest) sim) as [[[i |] mw] sim'].
  - destruct (splice i (x :: rest)) as [[next |] rest']; [| done].
    destruct (sim_hypothetical next); [intros [= <-]; lia | apply IH].
  - apply IH.
Qed.

(** X10.  The estimate of the wait is never negative. *)
Theorem estimateWaitMs_never_negative tz opts clk now perItemExecMs
    (fuel : nat) (q : RequestQueuer) (m : option string) (tokensNeeded e : Z) :
  estimateWaitMs tz opts clk now perItemExecMs fuel q m tokensNeeded = Some e ->
  0 <= e.
Proof.
  unfold estimateWaitMs. destruct (_ && _); [intros [= <-]; lia |].
  apply simLoop_nonneg.
Qed.

Lemma estimateWaitMs_never_negative_witness :
  let q := Sample.queuerOf [Sample.item "1" "A" 100]
             (RAMUsageStrategy {[ "A"%string := Sample.windowNearlyOver ]}) in
  estimateWaitMs 0 Sample.tokenLimited Sample.t0 Sample.t0 500 1000 q
    (Some "A"%string) 10 = Some 3600000
  /\ 0 <= 3600000.
Proof.
  intros q.
  assert (estimateWaitMs 0 Sample.tokenLimited Sample.t0 Sample.t0 500 1000 q
            (Some "A"%string) 10 = Some 3600000) as He by (vm_compute; reflexivity).
  split; [exact He |].
  exact (estimateWaitMs_never_negative 0 Sample.tokenLimited Sample.t0 Sample.t0 500
           1000 q (Some "A"%string) 10 3600000 He).
Defined.

Lemma computeWaitSim_no_limits tz opts clk now t m tokens sim a :
  Throwing.getActiveLimits opts m = Returns a -> noLimits a = true ->
  Throwing.computeWaitSim tz opts clk now t m tokens sim = Returns (Num 0, sim).
Proof.
  intros Hret Hno. unfold Throwing.computeWaitSim. rewrite Hret.
  cbn [mbind Completion_bind]. by destruct a as [[| ? ?] |].
Qed.

Lemma simLoop_unlimited tz opts clk now perItemExecMs d (H : SimItem) aH :
  truthyNumber (fallbackDelayMs opts) = Some d ->
  sim_hypothetical H = true ->
  Throwing.getActiveLimits opts (sim_modelName H) = Returns aH ->
  noLimits aH = true ->
  forall pre fuel sim t,
    Forall (fun x => sim_hypothetical x = false
                     /\ exists a, Throwing.getActiveLimits opts (sim_modelName x)
                                  = Returns a
                                  /\ noLimits a = true) pre ->
    (length pre < fuel)%nat ->
    Throwing.simLoop tz opts clk now perItemExecMs fuel (pre ++ [H]) sim t
    = Some (Returns
              (Z.max 0 (t + Z.of_nat (length pre) * (Z.max 0 perItemExecMs + d) - now))).
Proof.
  intros Hd HH HretH HnoH. induction pre as [| x pre IH]; intros fuel sim t Hpre Hfuel.
  - destruct fuel as [| fuel]; [cbn in Hfuel; lia |].
    cbn [Throwing.simLoop app Throwing.simScan].
    rewrite (computeWaitSim_no_limits _ _ _ _ _ _ _ _ _ HretH HnoH).
    cbn [mbind Completion_bind le0 Z.leb Z.compare splice]. rewrite HH.
    cbn [length Z.of_nat]. do 3 f_equal. lia.
  - destruct fuel as [| fuel]; [cbn in Hfuel; lia |].
    apply Forall_cons in Hpre as [[Hx (a & Hret & Hno)] Hpre].
    cbn [Throwing.simLoop app Throwing.simScan].
    rewrite (computeWaitSim_no_limits _ _ _ _ _ _ _ _ _ Hret Hno).
    cbn [mbind Completion_bind le0 Z.leb Z.compare splice]. rewrite Hx, Hd.
    destruct (pre ++ [H]) as [| y rest] eqn:E; [by destruct pre |].
    rewrite IH; [| done | cbn in Hfuel; lia].
    do 2 f_equal. cbn [length]. f_equal. lia.
Qed.

(** X11.  On a queuer whose estimate of the execution time is a whole number
    of milliseconds, with a fallback delay, when [getActiveLimits] returns
    no limit for the model of every queued request and of the new one:
    the estimate for the new request is the number of queued requests
    times the estimated execution time plus the delay; a replay of one
    turn per queued request and one more gives it. *)
Theorem estimateWaitMs_without_limits tz opts clk now perItemExecMs
    (fuel : nat) (q : RequestQueuer) (m : option string) (tokensNeeded d : Z) :
  (getEstimatedExecMs q == inject_Z perItemExecMs)%Q ->
  truthyNumber (fallbackDelayMs opts) = Some d ->
  (forall item, item ∈ queue q ->
     exists a, Throwing.getActiveLimits opts (modelName item) = Returns a
               /\ noLimits a = true) ->
  (exists a, Throwing.getActiveLimits opts m = Returns a /\ noLimits a = true) ->
  (length (queue q) < fuel)%nat ->
  Throwing.estimateWaitMs tz opts clk now perItemExecMs fuel q m tokensNeeded
  = Some (Returns
            (Z.max 0 (Z.of_nat (length (queue q)) * (Z.max 0 perItemExecMs + d)))).
Proof.
  intros _ Hd Hq (a & Hret & Hno) Hfuel. unfold Throwing.estimateWaitMs.
  rewrite Hret, Hno, Hd.
  cbn [andb negb]. rewrite bool_decide_eq_true_2 by (by eexists). cbn [andb negb].
  unfold simQueueOf.
  rewrite (simLoop_unlimited tz opts clk now perItemExecMs d
             {| sim_modelName := m; sim_tokens := Z.max 0 tokensNeeded;
                sim_hypothetical := true |} a Hd eq_refl Hret Hno).
  - rewrite length_map. do 2 f_equal. lia.
  - apply Forall_forall. intros x Hx.
    apply list_elem_of_In, in_map_iff in Hx as (item & <- & Hitem).
    split; [done |]. cbn. by apply Hq, list_elem_of_In.
  - by rewrite length_map.
Qed.

Lemma estimateWaitMs_without_limits_witness :
  let opts := {| defaultLimits := None; modelLimits := None;
                 fallbackDelayMs := Some 250; label := None |} in
  let q := Sample.queuerOf [Sample.item "a" "m" 7; Sample.item "b" "n" 9]
             (RAMUsageStrategy ∅) in
  Throwing.estimateWaitMs 0 opts Sample.t0 Sample.t0 500 3 q (Some "m"%string) 12
  = Some (Returns (Z.max 0 (Z.of_nat (length (queue q)) * (Z.max 0 500 + 250)))).
Proof.
  intros opts q.
  apply (estimateWaitMs_without_limits 0 opts Sample.t0 Sample.t0 500 3 q
           (Some "m"%string) 12 250).
  - reflexivity.
  - reflexivity.
  - intros item Hitem. exists None.
    apply elem_of_cons in Hitem as [-> | Hitem];
      [| apply list_elem_of_singleton in Hitem as ->]; vm_compute; split; reflexivity.
  - exists None. vm_compute. split; reflexivity.
  - cbn. lia.
Defined.

Lemma maintain_live tz clk now b :
  now - minuteTokenWindowStart b < 60000 ->
  maintain tz clk now b = maintainSim tz clk now b.
Proof.
  intros Hlive. rewrite maintain_unfold, maintainSim_unfold.
  destruct (Z.leb_spec 60000 (now - minuteTokenWindowStart b)); [lia | done].
Qed.

(** X12.  On a bucket whose minute window of tokens is still running, the
    admission check of the estimator computes the wait that the admission
    check of the dispatch loop computes at the same instant. *)
Theorem estimator_check_agrees tz opts clk now t (m : option string) (tokens : Z)
    (sim : gmap string UsageBucket) (u : UsageStrategy) (b : UsageBucket) :
  sim !! bucketKey m = Some b ->
  peek (bucketKey m) u = Some b ->
  t - minuteTokenWindowStart b < 60000 ->
  fst (computeWaitSim tz opts clk now t m tokens sim)
  = fst (computeWaitMs tz opts clk t m tokens u).
Proof.
  intros Hsim Hu Hlive. rewrite computeWaitMs_fst, computeWaitSim_eq, Hsim, Hu.
  cbn [fst]. unfold waitSimOf, waitOf. cbn [from_option Datatypes.id].
  by rewrite maintain_live.
Qed.

Lemma estimator_check_agrees_witness :
  fst (computeWaitSim 0 Sample.onePerSecond Sample.t0 Sample.t0 (Sample.t0 + 500)
         (Some "m"%string) 7 {[ "m"%string := Sample.justUsed ]})
  = fst (computeWaitMs 0 Sample.onePerSecond Sample.t0 (Sample.t0 + 500)
           (Some "m"%string) 7 (RAMUsageStrategy {[ "m"%string := Sample.justUsed ]})).
Proof.
  apply (estimator_check_agrees 0 Sample.onePerSecond Sample.t0 Sample.t0
           (Sample.t0 + 500) (Some "m"%string) 7 _ _ Sample.justUsed).
  - reflexivity.
  - reflexivity.
  - vm_compute. reflexivity.
Defined.

(* --------------------------------------------------------------------- *)
(** ** The usage strategies *)
(* --------------------------------------------------------------------- *)

Lemma stripPrefix_append p k : stripPrefix p (String.append p k) = Some k.
Proof.
  induction p as [| a p IH]; [by destruct k |].
  simpl. by rewrite bool_decide_eq_true_2.
Qed.

Lemma append_assoc (a b c : string) :
  String.append (String.append a b) c = String.append a (String.append b c).
Proof.
  induction a as [| x a IH]; [done |].
  change (String x (String.append (String.append a b) c)
          = String x (String.append a (String.append b c))).
  by f_equal.
Qed.

Lemma stripPrefix_Some p key k : stripPrefix p key = Some k -> key = String.append p k.
Proof.
  revert key. induction p as [| a p IH]; intros key; simpl.
  - by intros [= ->].
  - destruct key as [| b key]; [done |].
    destruct (bool_decide_reflect (a = b)) as [-> |]; [| done].
    intros H%IH. by rewrite H.
Qed.

Lemma plainKey_makeKey label k : plainKey label (makeKey label k) = k.
Proof.
  unfold plainKey, makeKey. destruct (truthyString label) as [l |]; [| done].
  by rewrite <- append_assoc, stripPrefix_append.
Qed.

Lemma copyUsage_lookup (es : list (string * UsageBucket)) k v :
  NoDup es.*1 -> copyUsage es !! k = Some v <-> (k, v) ∈ es.
Proof.
  unfold copyUsage. induction es as [| [k0 v0] es IH] using rev_ind; intros Hnd.
  - cbn. rewrite lookup_empty. split; [done | by intros ?%elem_of_nil].
  - rewrite fold_left_app. cbn [fold_left fst snd].
    rewrite fmap_app in Hnd. apply NoDup_app in Hnd as (Hnd & Hdis & _).
    rewrite elem_of_app, list_elem_of_singleton.
    destruct (decide (k0 = k)) as [-> | Hne].
    + rewrite lookup_insert_eq. split.
      * intros [= ->]. by right.
      * intros [Hin | [= ->]]; [| done]. exfalso.
        apply (Hdis k); [| cbn; apply elem_of_cons; by left].
        apply list_elem_of_fmap. by exists (k, v).
    + rewrite lookup_insert_ne by done. rewrite (IH Hnd). split; [by left |].
      intros [Hin | [= -> ->]]; done.
Qed.

Lemma entries_lookup u k v :
  keysLabelled u -> (k, v) ∈ entries u <-> peek k u = Some v.
Proof.
  destruct u as [map | pb]; cbn [entries peek keysLabelled]; intros Hlab.
  - apply elem_of_map_to_list.
  - rewrite <- elem_of_map_to_list. split.
    + intros ([key v'] & [= <- <-] & Hin)%list_elem_of_In%in_map_iff.
      apply list_elem_of_In in Hin. cbn [fst snd].
      pose proof Hin as Hin'. apply elem_of_map_to_list in Hin'.
      destruct (Hlab key) as [mk ->]; [by eexists |].
      by rewrite plainKey_makeKey.
    + intros Hin. apply list_elem_of_In, in_map_iff.
      exists (makeKey (pb_label pb) k, v). cbn [fst snd].
      rewrite plainKey_makeKey. split; [done | by apply list_elem_of_In].
Qed.

Lemma entries_NoDup u : keysLabelled u -> NoDup (entries u).*1.
Proof.
  destruct u as [map | pb]; cbn [entries keysLabelled]; intros Hlab.
  - apply NoDup_fst_map_to_list.
  - assert ((List.map (fun kv : string * UsageBucket =>
                         (plainKey (pb_label pb) (fst kv), snd kv))
               (map_to_list (pb_map pb))).*1
            = plainKey (pb_label pb) <$> (map_to_list (pb_map pb)).*1) as ->.
    { generalize (map_to_list (pb_map pb)). intros l.
      induction l as [| [a b] l IH]; [done |]. cbn. by rewrite <- IH. }
    apply NoDup_fmap_2_strong; [| apply NoDup_fst_map_to_list].
    intros k1 k2 H1 H2 Heq.
    apply list_elem_of_fmap in H1 as ([k1' v1] & -> & H1).
    apply list_elem_of_fmap in H2 as ([k2' v2] & -> & H2).
    apply elem_of_map_to_list in H1, H2. cbn [fst] in *.
    destruct (Hlab k1') as [m1 ->]; [by eexists |].
    destruct (Hlab k2') as [m2 ->]; [by eexists |].
    rewrite !plainKey_makeKey in Heq. by rewrite Heq.
Qed.

(** X13.  The copy of the usage store from which the estimator starts holds,
    under every model key, the bucket that the store holds under it. *)
Theorem estimator_starts_from_the_store (u : UsageStrategy) (k : string) :
  keysLabelled u -> copyUsage (entries u) !! k = peek k u.
Proof.
  intros Hlab. apply option_eq. intros v.
  rewrite copyUsage_lookup by (by apply entries_NoDup).
  by apply entries_lookup.
Qed.

Lemma estimator_starts_from_the_store_witness :
  copyUsage (entries (pocketbaseUsageStrategy SamplePocketbase.bootstrapped)) !! "m"%string
  = peek "m" (pocketbaseUsageStrategy SamplePocketbase.bootstrapped).
Proof.
  apply (estimator_starts_from_the_store
           (pocketbaseUsageStrategy SamplePocketbase.bootstrapped) "m").
  intros key [b Hb]. exists "m"%string.
  destruct (decide (key = "q1::m"%string)) as [-> | Hne]; [reflexivity |].
  exfalso. cbn [pb_map SamplePocketbase.bootstrapped] in Hb.
  rewrite lookup_singleton_ne in Hb by done. discriminate.
Defined.

Lemma keysLabelled_insert pb key b pb' :
  keysLabelled (pocketbaseUsageStrategy pb) ->
  pb_map pb' = <[key := b]> (pb_map pb) ->
  pb_label pb' = pb_label pb ->
  (exists modelKey, key = makeKey (pb_label pb) modelKey) ->
  keysLabelled (pocketbaseUsageStrategy pb').
Proof.
  cbn [keysLabelled]. intros Hlab Hmap Hlabel Hkey key' Hsome.
  rewrite Hlabel. rewrite Hmap in Hsome.
  destruct (decide (key = key')) as [<- | Hne]; [done |].
  rewrite lookup_insert_ne in Hsome by done. by apply Hlab.
Qed.

Lemma keysLabelled_loadRecord pb it :
  keysLabelled (pocketbaseUsageStrategy pb) ->
  keysLabelled (pocketbaseUsageStrategy (loadRecord pb it))
  /\ pb_changed (loadRecord pb it) = pb_changed pb
  /\ pb_label (loadRecord pb it) = pb_label pb.
Proof.
  intros Hlab. unfold loadRecord.
  destruct (truthyString (item_key it)) as [key |]; [| done].
  destruct (item_data it) as [bucket |]; [| done].
  destruct (truthyString (pb_label pb)) as [l |] eqn:El.
  - unfold startsWith. destruct (stripPrefix (String.append l "::") key) as [k |] eqn:Es.
    + rewrite bool_decide_eq_true_2 by (by eexists). cbn [negb].
      split; [| done]. eapply keysLabelled_insert; [exact Hlab | done | done |].
      exists k. unfold makeKey. rewrite El.
      apply stripPrefix_Some in Es. by rewrite Es, append_assoc.
    + rewrite bool_decide_eq_false_2 by (by intros [? ?]). done.
  - split; [| done]. eapply keysLabelled_insert; [exact Hlab | done | done |].
    exists key. unfold makeKey. by rewrite El.
Qed.

Lemma keysLabelled_loadRecords items :
  forall pb,
    keysLabelled (pocketbaseUsageStrategy pb) ->
    keysLabelled (pocketbaseUsageStrategy (loadRecords items pb))
    /\ pb_changed (loadRecords items pb) = pb_changed pb
    /\ pb_label (loadRecords items pb) = pb_label pb.
Proof.
  unfold loadRecords. induction items as [| it items IH]; intros pb Hlab; [done |].
  cbn [fold_left]. destruct (keysLabelled_loadRecord pb it Hlab) as (H1 & H2 & H3).
  destruct (IH _ H1) as (H4 & H5 & H6). split; [done |].
  split; [by rewrite H5 | by rewrite H6].
Qed.

Lemma pb_map_persist net pb :
  pb_map (snd (persistPocketbase net pb)) = pb_map pb
  /\ pb_label (snd (persistPocketbase net pb)) = pb_label pb.
Proof.
  unfold persistPocketbase. destruct (pb_disposed pb); [done |].
  destruct (match truthyString (pb_auth pb) with
            | Some token => Some token
            | None => match Net.authReply net with
                      | Net.AuthToken token => truthyString (Some token)
                      | Net.AuthFailed => None
                      end
            end); [| done].
  by destruct (fold_left _ _ _).
Qed.

(** X14.  Every method of a usage strategy, and the loading of the remote
    records, keeps the keys of the map under the label of the queue; the
    loading marks no key as changed. *)
Theorem keys_stay_labelled (u : UsageStrategy) (init b : UsageBucket) (k : string)
    (net : Net.Oracle) :
  keysLabelled u ->
  keysLabelled (snd (getBucket init k u))
  /\ keysLabelled (setBucket k b u)
  /\ keysLabelled (assign k b u)
  /\ keysLabelled (snd (persist net u))
  /\ forall pb items,
       u = pocketbaseUsageStrategy pb ->
       keysLabelled (pocketbaseUsageStrategy (loadRecords items pb))
       /\ pb_changed (loadRecords items pb) = pb_changed pb.
Proof.
  intros Hlab. destruct u as [map | pb].
  - cbn. repeat split; try done. by destruct (map !! k).
  - split; [| split; [| split; [| split]]].
    + cbn [getBucket]. destruct (pb_map pb !! makeKey (pb_label pb) k); [done |].
      eapply keysLabelled_insert; [exact Hlab | done | done | by eexists].
    + eapply keysLabelled_insert; [exact Hlab | done | done | by eexists].
    + eapply keysLabelled_insert; [exact Hlab | done | done | by eexists].
    + cbn [persist]. destruct (pb_map_persist net pb) as [Hm Hl].
      destruct (persistPocketbase net pb) as [[o evs] pb']. cbn [snd fst] in *.
      intros key Hkey. cbn [keysLabelled] in Hlab. rewrite Hl.
      apply Hlab. by rewrite <- Hm.
    + intros pb0 items [= <-].
      destruct (keysLabelled_loadRecords items pb Hlab) as (H1 & H2 & _). done.
Qed.

Lemma keys_stay_labelled_witness :
  let u := pocketbaseUsageStrategy
             {| pb_map := ∅; pb_recordIds := ∅; pb_changed := [];
                pb_auth := None; pb_disposed := false;
                pb_label := Some "q1"%string |} in
  keysLabelled (snd (getBucket Sample.emptyBucket "m" u))
  /\ keysLabelled (setBucket "m" Sample.justUsed u)
  /\ keysLabelled (assign "m" Sample.justUsed u)
  /\ keysLabelled (snd (persist SamplePocketbase.healthy u))
  /\ forall pb items,
       u = pocketbaseUsageStrategy pb ->
       keysLabelled (pocketbaseUsageStrategy (loadRecords items pb))
       /\ pb_changed (loadRecords items pb) = pb_changed pb.
Proof.
  intros u.
  apply (keys_stay_labelled u Sample.emptyBucket Sample.justUsed "m"
           SamplePocketbase.healthy).
  intros key [b Hb]. cbn [pb_map] in Hb. by rewrite lookup_empty in Hb.
Defined.

(** X15.  Asking for the bucket of a key a second time gives the bucket of the
    first time and changes nothing; the first time leaves the other keys
    as they were and, in a pocketbase strategy, marks the key as changed
    exactly when it had to be created. *)
Theorem getBucket_gets_or_creates (init init' : UsageBucket) (k : string)
    (u : UsageStrategy) :
  let b := fst (getBucket init k u) in
  let u1 := snd (getBucket init k u) in
  getBucket init' k u1 = (b, u1)
  /\ b = default init (peek k u)
  /\ (forall k', k <> k' -> peek k' u1 = peek k' u)
  /\ (forall k', k <> k' -> isDirty k' u1 = isDirty k' u)
  /\ (is_Some (peek k u) -> u1 = u)
  /\ forall pb, u = pocketbaseUsageStrategy pb -> peek k u = None ->
                isDirty k u1 = true.
Proof.
  intros b u1. subst b u1.
  split.
  { rewrite (getBucket_hit init' k _ _ (getBucket_peek_eq init k u)).
    by rewrite <- getBucket_fst, <- surjective_pairing. }
  split; [apply getBucket_fst |].
  split; [intros k' Hne; by apply getBucket_peek_ne |].
  split.
  { intros k' Hne. destruct u as [map | pb]; [cbn; by destruct (map !! k) |].
    cbn [getBucket]. destruct (pb_map pb !! makeKey (pb_label pb) k); [done |].
    cbn [snd isDirty pb_changed pb_label]. unfold setAdd.
    destruct (bool_decide (makeKey (pb_label pb) k ∈ pb_changed pb)); [done |].
    apply bool_decide_ext. rewrite elem_of_app, list_elem_of_singleton.
    split; [| by left]. intros [H | H]; [done |].
    apply makeKey_inj in H. by subst. }
  split.
  { intros [b Hb]. by rewrite (getBucket_hit _ _ _ _ Hb). }
  intros pb -> Hnone. cbn [peek] in Hnone. cbn [getBucket]. rewrite Hnone.
  cbn [snd isDirty pb_changed pb_label]. apply bool_decide_eq_true_2.
  unfold setAdd. destruct (bool_decide_reflect (makeKey (pb_label pb) k ∈ pb_changed pb));
    [done |].
  apply elem_of_app. right. by apply list_elem_of_singleton.
Qed.

(** X16.  A bucket that was set under a key is the bucket that is got under
    it; setting leaves the other keys as they were and, in a pocketbase
    strategy, marks the key as changed. *)
Theorem setBucket_then_getBucket (init b : UsageBucket) (k : string)
    (u : UsageStrategy) :
  getBucket init k (setBucket k b u) = (b, setBucket k b u)
  /\ (forall k', k <> k' -> peek k' (setBucket k b u) = peek k' u)
  /\ (forall k', k <> k' -> isDirty k' (setBucket k b u) = isDirty k' u)
  /\ forall pb, u = pocketbaseUsageStrategy pb -> isDirty k (setBucket k b u) = true.
Proof.
  assert (Hpeek : peek k (setBucket k b u) = Some b).
  { destruct u; cbn; apply lookup_insert_eq. }
  split; [by apply getBucket_hit |].
  split.
  { intros k' Hne. destruct u as [map | pb]; cbn.
    - by rewrite lookup_insert_ne.
    - rewrite lookup_insert_ne; [done |]. by intros ?%makeKey_inj. }
  split.
  { intros k' Hne. destruct u as [map | pb]; [done |].
    cbn [setBucket isDirty pb_changed pb_label]. unfold setAdd.
    destruct (bool_decide (makeKey (pb_label pb) k ∈ pb_changed pb)); [done |].
    apply bool_decide_ext. rewrite elem_of_app, list_elem_of_singleton.
    split; [| by left]. intros [H | H]; [done |].
    apply makeKey_inj in H. by subst. }
  intros pb ->. cbn [setBucket isDirty pb_changed pb_label].
  apply bool_decide_eq_true_2. unfold setAdd.
  destruct (bool_decide_reflect (makeKey (pb_label pb) k ∈ pb_changed pb)); [done |].
  apply elem_of_app. right. by apply list_elem_of_singleton.
Qed.

(* --------------------------------------------------------------------- *)
(** ** What [persist] sends *)
(* --------------------------------------------------------------------- *)

Lemma persistKey_sends net map events recordIds key :
  exists evs,
    fst (persistKey net map (events, recordIds) key) = events ++ evs
    /\ forall ev, ev ∈ evs ->
         eventKey ev = key
         /\ forall data, eventData ev = Some data -> map !! key = Some data.
Proof.
  unfold persistKey. destruct (map !! key) as [bucket |] eqn:Hb.
  2: { exists []. split; [by rewrite app_nil_r | by intros ev ?%elem_of_nil]. }
  unfold createRecord.
  destruct (truthyString (recordIds !! key)) as [recId |];
    [destruct (Net.patchReply net key) |];
    try destruct (Net.postReply net key) as [[id |] | |];
    cbn [fst snd app]; eexists; (split; [reflexivity |]);
    intros ev Hev;
    repeat (apply elem_of_cons in Hev as [-> | Hev]; [cbn; split; [done |]; by intros ? [= <-] |]);
    by apply elem_of_nil in Hev.
Qed.

Lemma fold_persistKey_sends net map keys :
  forall events recordIds,
    exists evs,
      fst (fold_left (persistKey net map) keys (events, recordIds)) = events ++ evs
      /\ forall ev, ev ∈ evs ->
           eventKey ev ∈ keys
           /\ forall data, eventData ev = Some data -> map !! eventKey ev = Some data.
Proof.
  induction keys as [| key keys IH]; intros events recordIds; cbn [fold_left].
  - exists []. split; [by rewrite app_nil_r | by intros ev ?%elem_of_nil].
  - destruct (persistKey_sends net map events recordIds key) as (evs1 & H1 & H2).
    destruct (persistKey net map (events, recordIds) key) as [events1 ids1].
    cbn [fst] in H1. subst events1.
    destruct (IH (events ++ evs1) ids1) as (evs2 & H3 & H4).
    exists (evs1 ++ evs2). split; [by rewrite H3, app_assoc |].
    intros ev [Hev | Hev]%elem_of_app.
    + destruct (H2 ev Hev) as [Hk Hd]. split.
      * rewrite Hk. apply elem_of_cons. by left.
      * intros data Hdata. rewrite Hk. by apply Hd.
    + destruct (H4 ev Hev) as [Hk Hd]. split; [| done].
      apply elem_of_cons. by right.
Qed.

(** X17.  A run of [persist] sends and logs nothing about a key that was not
    marked as changed, and what it sends for a key is the bucket that the
    map holds under it. *)
Theorem persist_sends_only_changed_keys (net : Net.Oracle) (pb : PocketbaseState)
    (ev : Net.Event) :
  ev ∈ snd (fst (persistPocketbase net pb)) ->
  eventKey ev ∈ pb_changed pb
  /\ forall data, eventData ev = Some data -> pb_map pb !! eventKey ev = Some data.
Proof.
  unfold persistPocketbase. destruct (pb_disposed pb); [by intros ?%elem_of_nil |].
  destruct (match truthyString (pb_auth pb) with
            | Some token => Some token
            | None => match Net.authReply net with
                      | Net.AuthToken token => truthyString (Some token)
                      | Net.AuthFailed => None
                      end
            end); [| by intros ?%elem_of_nil].
  destruct (fold_persistKey_sends net (pb_map pb) (pb_changed pb) [] (pb_recordIds pb))
    as (evs & H1 & H2).
  destruct (fold_left _ _ _) as [events ids]. cbn [fst snd] in *. subst events.
  cbn [app]. apply H2.
Qed.

Lemma persist_sends_only_changed_keys_witness :
  eventKey (Net.Patched "rec1" "q1::m" SamplePocketbase.loaded)
    ∈ pb_changed SamplePocketbase.dirty
  /\ forall data,
       eventData (Net.Patched "rec1" "q1::m" SamplePocketbase.loaded) = Some data ->
       pb_map SamplePocketbase.dirty
         !! eventKey (Net.Patched "rec1" "q1::m" SamplePocketbase.loaded) = Some data.
Proof.
  apply (persist_sends_only_changed_keys SamplePocketbase.healthy
           SamplePocketbase.dirty).
  assert (snd (fst (persistPocketbase SamplePocketbase.healthy SamplePocketbase.dirty))
          = [Net.Patched "rec1" "q1::m" SamplePocketbase.loaded]) as ->
    by (vm_compute; reflexivity).
  apply elem_of_cons. by left.
Defined.

(** X18.  After a run of [persist] that was not rejected, another run sends
    nothing and changes nothing, whatever the remote end would answer. *)
Theorem persist_again_sends_nothing (net net' : Net.Oracle) (pb : PocketbaseState) :
  fst (fst (persistPocketbase net pb)) = PersistDone ->
  persistPocketbase net' (snd (persistPocketbase net pb))
  = (PersistDone, [], snd (persistPocketbase net pb)).
Proof.
  unfold persistPocketbase at 1 3 4. destruct (pb_disposed pb) eqn:Hd.
  { intros _. cbn [snd]. unfold persistPocketbase. by rewrite Hd. }
  destruct (match truthyString (pb_auth pb) with
            | Some token => Some token
            | None => match Net.authReply net with
                      | Net.AuthToken token => truthyString (Some token)
                      | Net.AuthFailed => None
                      end
            end) as [token |] eqn:Hauth; [| done].
  intros _. destruct (fold_left _ _ _) as [events ids]. cbn [fst snd].
  assert (truthyString (Some token) = Some token) as Htok.
  { destruct (truthyString (pb_auth pb)) as [t |] eqn:Ht.
    - injection Hauth as <-. destruct (pb_auth pb) as [[| ? ?] |]; try done.
      by injection Ht as <-.
    - destruct (Net.authReply net) as [t |]; [| done].
      destruct t; [done |]. by injection Hauth as <-. }
  unfold persistPocketbase. cbn [pb_disposed pb_auth pb_changed pb_map pb_recordIds
                                   pb_label fold_left].
  rewrite Htok. reflexivity.
Qed.

Lemma persist_again_sends_nothing_witness :
  persistPocketbase SamplePocketbase.writesFail
    (snd (persistPocketbase SamplePocketbase.healthy SamplePocketbase.dirty))
  = (PersistDone, [],
     snd (persistPocketbase SamplePocketbase.healthy SamplePocketbase.dirty)).
Proof.
  apply (persist_again_sends_nothing SamplePocketbase.healthy
           SamplePocketbase.writesFail SamplePocketbase.dirty).
  reflexivity.
Defined.

Lemma persistKey_other net map events recordIds key key' :
  key <> key' ->
  snd (persistKey net map (events, recordIds) key) !! key' = recordIds !! key'.
Proof.
  intros Hne. unfold persistKey. destruct (map !! key) as [bucket |]; [| done].
  unfold createRecord.
  destruct (truthyString (recordIds !! key)) as [recId |];
    [destruct (Net.patchReply net key) |];
    try destruct (Net.postReply net key) as [[id |] | |];
    cbn [fst snd]; try done; by rewrite lookup_insert_ne.
Qed.

Lemma persistKey_keeps_created net map events recordIds key key' recId :
  Net.postReply net key' = Net.PostOk (Some recId) ->
  recordIds !! key' = Some recId ->
  snd (persistKey net map (events, recordIds) key) !! key' = Some recId.
Proof.
  intros Hpost Hid. destruct (decide (key = key')) as [-> | Hne].
  2: { by rewrite persistKey_other. }
  unfold persistKey. destruct (map !! key') as [bucket |]; [| done].
  unfold createRecord. rewrite Hpost.
  destruct (truthyString (recordIds !! key')) as [r |];
    [destruct (Net.patchReply net key') |];
    cbn [fst snd]; try done; by rewrite lookup_insert_eq.
Qed.

Lemma fold_persistKey_other net map keys key' :
  forall events recordIds,
    key' ∉ keys ->
    snd (fold_left (persistKey net map) keys (events, recordIds)) !! key'
    = recordIds !! key'.
Proof.
  induction keys as [| key keys IH]; intros events recordIds Hnot; [done |].
  cbn [fold_left]. apply not_elem_of_cons in Hnot as [Hne Hnot].
  pose proof (persistKey_other net map events recordIds key key' (not_eq_sym Hne)) as H.
  destruct (persistKey net map (events, recordIds) key) as [events1 ids1].
  cbn [snd] in H. by rewrite IH, H.
Qed.

Lemma fold_persistKey_keeps_created net map keys key' recId :
  Net.postReply net key' = Net.PostOk (Some recId) ->
  forall events recordIds,
    recordIds !! key' = Some recId ->
    snd (fold_left (persistKey net map) keys (events, recordIds)) !! key' = Some recId.
Proof.
  intros Hpost. induction keys as [| key keys IH]; intros events recordIds Hid; [done |].
  cbn [fold_left].
  pose proof (persistKey_keeps_created net map events recordIds key key' recId Hpost Hid)
    as H.
  destruct (persistKey net map (events, recordIds) key) as [events1 ids1].
  cbn [snd] in H. by apply IH.
Qed.

Lemma fold_persistKey_creates net map keys key' bucket recId :
  Net.postReply net key' = Net.PostOk (Some recId) ->
  map !! key' = Some bucket ->
  forall events recordIds,
    key' ∈ keys ->
    truthyString (recordIds !! key') = None ->
    let r := fold_left (persistKey net map) keys (events, recordIds) in
    snd r !! key' = Some recId /\ Net.Created key' bucket ∈ fst r.
Proof.
  intros Hpost Hb. induction keys as [| key keys IH]; intros events recordIds Hin Hnone r;
    subst r; [by apply elem_of_nil in Hin |].
  cbn [fold_left]. destruct (decide (key = key')) as [-> | Hne].
  - assert (persistKey net map (events, recordIds) key'
            = (events ++ [Net.Created key' bucket], <[key' := recId]> recordIds)) as ->.
    { unfold persistKey, createRecord. rewrite Hb, Hnone, Hpost. reflexivity. }
    split.
    + apply fold_persistKey_keeps_created; [done | apply lookup_insert_eq].
    + destruct (fold_persistKey_sends net map keys (events ++ [Net.Created key' bucket])
                  (<[key' := recId]> recordIds)) as (evs & -> & _).
      rewrite !elem_of_app, list_elem_of_singleton. left. by right.
  - apply elem_of_cons in Hin as [-> | Hin]; [done |].
    pose proof (persistKey_other net map events recordIds key key' Hne) as H.
    destruct (persistKey net map (events, recordIds) key) as [events1 ids1].
    cbn [snd] in H. apply IH; [done |]. by rewrite H.
Qed.

(** X19.  A changed key that has no record yet is created at the remote end, and
    the id of the answer is remembered for it; the ids of the keys that
    were not marked as changed stay as they were. *)
Theorem created_record_id_is_remembered (net : Net.Oracle) (pb : PocketbaseState)
    (key recId : string) (bucket : UsageBucket) :
  fst (fst (persistPocketbase net pb)) = PersistDone ->
  pb_disposed pb = false ->
  key ∈ pb_changed pb ->
  pb_map pb !! key = Some bucket ->
  truthyString (pb_recordIds pb !! key) = None ->
  Net.postReply net key = Net.PostOk (Some recId) ->
  let events := snd (fst (persistPocketbase net pb)) in
  let pb' := snd (persistPocketbase net pb) in
  Net.Created key bucket ∈ events
  /\ pb_recordIds pb' !! key = Some recId
  /\ forall key', key' ∉ pb_changed pb ->
                  pb_recordIds pb' !! key' = pb_recordIds pb !! key'.
Proof.
  intros Hdone Hd Hin Hb Hnone Hpost. revert Hdone. unfold persistPocketbase.
  rewrite Hd.
  destruct (match truthyString (pb_auth pb) with
            | Some token => Some token
            | None => match Net.authReply net with
                      | Net.AuthToken token => truthyString (Some token)
                      | Net.AuthFailed => None
                      end
            end) as [token |]; [| done].
  intros _.
  destruct (fold_persistKey_creates net (pb_map pb) (pb_changed pb) key bucket recId
              Hpost Hb [] (pb_recordIds pb) Hin Hnone) as [H1 H2].
  pose proof (fun key' => fold_persistKey_other net (pb_map pb) (pb_changed pb) key'
                            [] (pb_recordIds pb)) as H3.
  destruct (fold_left _ _ _) as [events ids]. cbn [fst snd pb_recordIds] in *.
  done.
Qed.

Lemma created_record_id_is_remembered_witness :
  let pb := {| pb_map := {[ "q1::m"%string := SamplePocketbase.loaded ]};
               pb_recordIds := ∅;
               pb_changed := [ "q1::m"%string ];
               pb_auth := None;
               pb_disposed := false;
               pb_label := Some "q1"%string |} in
  let events := snd (fst (persistPocketbase SamplePocketbase.healthy pb)) in
  let pb' := snd (persistPocketbase SamplePocketbase.healthy pb) in
  Net.Created "q1::m" SamplePocketbase.loaded ∈ events
  /\ pb_recordIds pb' !! "q1::m"%string = Some "new"%string
  /\ forall key', key' ∉ pb_changed pb ->
                  pb_recordIds pb' !! key' = pb_recordIds pb !! key'.
Proof.
  intros pb.
  apply (created_record_id_is_remembered SamplePocketbase.healthy pb "q1::m" "new"
           SamplePocketbase.loaded).
  - reflexivity.
  - reflexivity.
  - apply list_elem_of_singleton. reflexivity.
  - apply lookup_singleton_eq.
  - reflexivity.
  - reflexivity.
Defined.

(* --------------------------------------------------------------------- *)
(** ** The usage snapshot *)
(* --------------------------------------------------------------------- *)

Lemma copyUsage_entries u k : keysLabelled u -> copyUsage (entries u) !! k = peek k u.
Proof.
  intros Hlab. apply option_eq. intros v.
  rewrite copyUsage_lookup by (by apply entries_NoDup).
  by apply entries_lookup.
Qed.

Lemma snapshot_fold (f : UsageBucket -> ModelUsage) (es : list (string * UsageBucket))
    (k : string) :
  fold_left
    (fun out kv =>
       if bool_decide (fst kv = "__proto__"%string) then out
       else <[fst kv := f (snd kv)]> out) es (∅ : gmap string ModelUsage) !! k
  = if bool_decide (k = "__proto__"%string) then None
    else f <$> copyUsage es !! k.
Proof.
  unfold copyUsage. induction es as [| [k0 v] es IH] using rev_ind.
  - cbn. rewrite !lookup_empty. by destruct (bool_decide _).
  - rewrite !fold_left_app. cbn [fold_left fst snd].
    destruct (bool_decide_reflect (k0 = "__proto__"%string)) as [-> | Hk0].
    + rewrite IH. destruct (bool_decide_reflect (k = "__proto__"%string)); [done |].
      by rewrite lookup_insert_ne.
    + destruct (decide (k0 = k)) as [<- | Hne].
      * rewrite !lookup_insert_eq. by rewrite bool_decide_eq_false_2.
      * rewrite !lookup_insert_ne by done. apply IH.
Qed.

Lemma peek_maintainEntries tz clk now u k :
  peek k (maintainEntries tz clk now u) = maintain tz clk now <$> peek k u.
Proof. destruct u; cbn; apply lookup_fmap. Qed.

Lemma keysLabelled_maintainEntries tz clk now u :
  keysLabelled u -> keysLabelled (maintainEntries tz clk now u).
Proof.
  destruct u as [map | pb]; [done |]. cbn. intros Hlab key Hkey.
  apply Hlab. rewrite lookup_fmap in Hkey. by apply fmap_is_Some in Hkey.
Qed.

Lemma isDirty_maintainEntries tz clk now u k :
  isDirty k (maintainEntries tz clk now u) = isDirty k u.
Proof. by destruct u. Qed.

Lemma maintainEntries_idem tz clk now u :
  maintainEntries tz clk now (maintainEntries tz clk now u) = maintainEntries tz clk now u.
Proof.
  assert (H : forall m : gmap string UsageBucket,
             maintain tz clk now <$> (maintain tz clk now <$> m)
             = maintain tz clk now <$> m).
  { intros m. rewrite <- map_fmap_compose. apply map_fmap_ext.
    intros i x _. cbn. apply maintain_idem. }
  destruct u as [map | pb]; cbn; by rewrite H.
Qed.

(** X20.  The report of a snapshot has an entry for every model key of the
    store but [__proto__], and no other: the entry of a model has the
    figures of its bucket after the maintenance of the instant of the
    call, and a bucket stored under [__proto__] is not reported. *)
Theorem getUsageSnapshot_reports_the_store tz clk now (u : UsageStrategy) (k : string) :
  keysLabelled u ->
  fst (getUsageSnapshot tz clk now u) !! k
  = if bool_decide (k = "__proto__"%string) then None
    else (fun b => usageOf now (maintain tz clk now b)) <$> peek k u.
Proof.
  intros Hlab. unfold getUsageSnapshot. cbn [fst].
  rewrite snapshot_fold. destruct (bool_decide _); [done |].
  rewrite copyUsage_entries by (by apply keysLabelled_maintainEntries).
  rewrite peek_maintainEntries. by destruct (peek k u).
Qed.

Lemma getUsageSnapshot_reports_the_store_witness :
  (fst (getUsageSnapshot 0 Sample.t0 Sample.t0
          (pocketbaseUsageStrategy SamplePocketbase.bootstrapped)) !! "m"%string
   = if bool_decide ("m"%string = "__proto__"%string) then None
     else (fun b => usageOf Sample.t0 (maintain 0 Sample.t0 Sample.t0 b))
            <$> peek "m" (pocketbaseUsageStrategy SamplePocketbase.bootstrapped))
  /\ fst (getUsageSnapshot 0 Sample.t0 Sample.t0
            (RAMUsageStrategy {[ "__proto__"%string := Sample.justUsed ]}))
       !! "__proto__"%string
     = if bool_decide ("__proto__"%string = "__proto__"%string) then None
       else (fun b => usageOf Sample.t0 (maintain 0 Sample.t0 Sample.t0 b))
              <$> peek "__proto__"
                    (RAMUsageStrategy {[ "__proto__"%string := Sample.justUsed ]}).
Proof.
  split.
  - apply (getUsageSnapshot_reports_the_store 0 Sample.t0 Sample.t0
             (pocketbaseUsageStrategy SamplePocketbase.bootstrapped) "m").
    intros key [b Hb]. exists "m"%string.
    destruct (decide (key = "q1::m"%string)) as [-> | Hne]; [reflexivity |].
    exfalso. cbn [pb_map SamplePocketbase.bootstrapped] in Hb.
    rewrite lookup_singleton_ne in Hb by done. discriminate.
  - apply (getUsageSnapshot_reports_the_store 0 Sample.t0 Sample.t0
             (RAMUsageStrategy {[ "__proto__"%string := Sample.justUsed ]})
             "__proto__").
    exact I.
Defined.

(** X21.  Taking a snapshot changes no admission decision of the instant of the
    call and marks no key as changed, and a second snapshot at that
    instant reports the same and leaves the store as the first left it. *)
Theorem getUsageSnapshot_changes_no_wait tz opts clk now (u : UsageStrategy)
    (model : option string) (tokens : Z) (k : string) :
  let u' := snd (getUsageSnapshot tz clk now u) in
  fst (computeWaitMs tz opts clk now model tokens u')
  = fst (computeWaitMs tz opts clk now model tokens u)
  /\ isDirty k u' = isDirty k u
  /\ getUsageSnapshot tz clk now u' = getUsageSnapshot tz clk now u.
Proof.
  intros u'. subst u'. unfold getUsageSnapshot. cbn [snd].
  split; [| split].
  - rewrite !computeWaitMs_fst, peek_maintainEntries. unfold waitOf.
    destruct (getActiveLimits opts model) as [[| l ls] |]; try done.
    destruct (peek (bucketKey model) u) as [b |]; cbn [fmap option_fmap option_map
      from_option Datatypes.id]; [| done].
    by rewrite maintain_idem.
  - apply isDirty_maintainEntries.
  - by rewrite maintainEntries_idem.
Qed.

(* --------------------------------------------------------------------- *)
(** ** The router *)
(* --------------------------------------------------------------------- *)

Lemma leastLoadedFrom_spec queues :
  forall i min idx,
    let lens := List.map (fun q => getQueueLength (q_state q)) queues in
    let r := leastLoadedFrom i min idx queues in
    (r = idx /\ forall k len, lens !! k = Some len -> min <= len)
    \/ (exists k len, r = (i + k)%nat /\ len < min /\ firstLeast lens k len).
Proof.
  induction queues as [| q rest IH]; intros i min idx; cbn zeta.
  - left. split; [done |]. by intros k len.
  - cbn [leastLoadedFrom List.map].
    destruct (Z.ltb_spec (getQueueLength (q_state q)) min) as [Hlt | Hge].
    + right. destruct (IH (S i) (getQueueLength (q_state q)) i)
        as [[-> Hall] | (k & len & -> & Hlen & Hk & Hmin)].
      * exists 0%nat, (getQueueLength (q_state q)).
        split; [lia |]. split; [done |]. split; [done |].
        intros [| k] w' Hw; cbn in Hw.
        -- injection Hw as <-. lia.
        -- apply Hall in Hw. lia.
      * exists (S k), len. split; [lia |]. split; [lia |]. split; [done |].
        intros [| k'] w' Hw; cbn in Hw.
        -- injection Hw as <-. lia.
        -- apply Hmin in Hw. lia.
    + destruct (IH (S i) min idx) as [[-> Hall] | (k & len & -> & Hlen & Hk & Hmin)].
      * left. split; [done |]. intros [| k] w' Hw; cbn in Hw.
        -- injection Hw as <-. lia.
        -- by apply Hall in Hw.
      * right. exists (S k), len. split; [lia |]. split; [lia |]. split; [done |].
        intros [| k'] w' Hw; cbn in Hw.
        -- injection Hw as <-. lia.
        -- apply Hmin in Hw. lia.
Qed.

(** X22.  For a list of queuers that is not empty, the index returned is
    that of the first queuer with the fewest pending requests. *)
Theorem getLeastLoadedIndex_first_shortest (queues : list Queuer) :
  queues <> [] ->
  Forall (fun q => getQueueLength (q_state q) < MAX_SAFE_INTEGER) queues ->
  exists i len,
    getLeastLoadedIndex queues = Some i
    /\ firstLeast (List.map (fun q => getQueueLength (q_state q)) queues) i len.
Proof.
  intros Hne Hall. destruct queues as [| q rest]; [done |].
  cbn [getLeastLoadedIndex].
  destruct (leastLoadedFrom_spec (q :: rest) 0 MAX_SAFE_INTEGER 0)
    as [[_ Hmin] | (k & len & -> & _ & Hk)].
  - exfalso. apply Forall_cons in Hall as [Hq _].
    specialize (Hmin 0%nat _ eq_refl). lia.
  - by exists k, len.
Qed.

Lemma getLeastLoadedIndex_first_shortest_witness :
  let busy := {| q_opts := Sample.onePerSecond;
                 q_state := Sample.queuerOf [Sample.item "a" "m" 7]
                              (RAMUsageStrategy ∅) |} in
  let idle := {| q_opts := Sample.onePerSecond;
                 q_state := Sample.queuerOf [] (RAMUsageStrategy ∅) |} in
  exists i len,
    getLeastLoadedIndex [busy; idle; idle] = Some i
    /\ firstLeast (List.map (fun q => getQueueLength (q_state q)) [busy; idle; idle])
         i len.
Proof.
  intros busy idle.
  apply (getLeastLoadedIndex_first_shortest [busy; idle; idle]).
  - discriminate.
  - repeat constructor.
Defined.

Section RouterFacts.

Variables tz clk now : Z.
Variable fuel : nat.
Variable execMs : RequestQueuer -> Z.
Variable estimateTokenCount : string -> Z.
Variable Client : Type.

Local Abbreviation estimateOf model tokensNeeded q :=
  (estimateWaitMs tz (q_opts q) clk now (execMs (q_state q)) fuel (q_state q)
     (Some model) tokensNeeded).

Lemma bestFrom_spec model tokensNeeded queues waits :
  Forall2 (fun q w => estimateOf model tokensNeeded q = Some w) queues waits ->
  forall i bestIdx bestWait,
    exists rIdx rWait,
      bestFrom tz clk now fuel execMs model tokensNeeded i bestIdx bestWait queues
      = Some (rIdx, rWait)
      /\ ((rIdx = bestIdx /\ rWait = bestWait
           /\ forall k w', waits !! k = Some w' -> ltMin (Num w') bestWait = false)
          \/ (exists k w,
                rIdx = Some (i + k)%nat /\ rWait = Finite w
                /\ ltMin (Num w) bestWait = true
                /\ firstLeast waits k w)).
Proof.
  induction 1 as [| q w0 queues waits Hq Hrest IH]; intros i bestIdx bestWait.
  - exists bestIdx, bestWait. split; [done |]. left. by repeat split.
  - cbn [bestFrom]. rewrite Hq.
    destruct (ltMin (Num w0) bestWait) eqn:Hlt.
    + destruct (IH (S i) (Some i) (Finite w0))
        as (rIdx & rWait & -> & [(-> & -> & Hall) | (k & w & -> & -> & Hw & Hk & Hmin)]).
      * eexists _, _. split; [reflexivity |]. right. exists 0%nat, w0.
        split; [f_equal; lia |]. split; [done |]. split; [done |]. split; [done |].
        intros [| k] w' Hw'; cbn in Hw'.
        -- injection Hw' as <-. lia.
        -- apply Hall in Hw'. cbn in Hw'. apply Z.ltb_ge in Hw'. lia.
      * eexists _, _. split; [reflexivity |]. right. exists (S k), w.
        cbn in Hw. apply Z.ltb_lt in Hw.
        split; [f_equal; lia |]. split; [done |]. split.
        { destruct bestWait as [| y]; [done |]. cbn in *.
          apply Z.ltb_lt in Hlt. apply Z.ltb_lt. lia. }
        split; [done |].
        intros [| k'] w' Hw'; cbn in Hw'.
        -- injection Hw' as <-. lia.
        -- apply Hmin in Hw'. lia.
    + destruct (IH (S i) bestIdx bestWait)
        as (rIdx & rWait & -> & [(-> & -> & Hall) | (k & w & -> & -> & Hw & Hk & Hmin)]).
      * eexists _, _. split; [reflexivity |]. left. repeat split.
        intros [| k] w' Hw'; cbn in Hw'.
        -- by injection Hw' as <-.
        -- by apply Hall in Hw'.
      * eexists _, _. split; [reflexivity |]. right. exists (S k), w.
        split; [f_equal; lia |]. split; [done |]. split; [done |]. split; [done |].
        intros [| k'] w' Hw'; cbn in Hw'.
        -- injection Hw' as <-. destruct bestWait as [| y]; [done |]. cbn in *.
           apply Z.ltb_lt in Hw. apply Z.ltb_ge in Hlt. lia.
        -- apply Hmin in Hw'. lia.
Qed.

(** X23.  For a provider that has queues and clients, when the replay of every
    queue gives its estimate, the selection is the first queue with the
    least estimate, with the client of the same index and that estimate:
    the fallback on the queue lengths is never taken. *)
Theorem chooseQueue_picks_least_estimate
    (queuesByProvider : gmap string (list Queuer))
    (clientsByProvider : gmap string (list Client))
    (provider model : string) (tokenText : option string)
    (queues : list Queuer) (clients : list Client) (waits : list Z) :
  queuesByProvider !! provider = Some queues ->
  clientsByProvider !! provider = Some clients ->
  queues <> [] ->
  clients <> [] ->
  let tokensNeeded :=
    match truthyString tokenText with
    | Some text => estimateTokenCount text
    | None => 0
    end in
  Forall2 (fun q w => estimateOf model tokensNeeded q = Some w) queues waits ->
  exists i w,
    firstLeast waits i w
    /\ chooseQueue tz clk now fuel execMs estimateTokenCount
         queuesByProvider clientsByProvider provider model tokenText
       = Some (Some {| sel_client := clients !! i;
                       sel_index := i;
                       sel_estimatedWaitMs := Finite w |}).
Proof.
  intros Hq Hc Hqne Hcne tokensNeeded Hwaits. unfold chooseQueue. rewrite Hq, Hc.
  destruct queues as [| q qs]; [done |]. destruct clients as [| c cs]; [done |].
  fold tokensNeeded.
  destruct (bestFrom_spec model tokensNeeded (q :: qs) waits Hwaits 0 None Infinity)
    as (rIdx & rWait & -> & [(_ & _ & Hall) | (k & w & -> & -> & _ & Hk)]).
  - exfalso. inversion Hwaits as [| ? w0 ? ws ? ? ]; subst.
    by specialize (Hall 0%nat w0 eq_refl).
  - exists k, w. split; [done |]. reflexivity.
Qed.

Lemma ltMinWait_cases (a b c : MinWait) :
  (ltMinWait a b = false -> ltMinWait c b = true -> ltMinWait c a = true)
  /\ (ltMinWait a b = true -> ltMinWait b c = true -> ltMinWait a c = true)
  /\ (ltMinWait a b = true -> ltMinWait c b = false -> ltMinWait c a = false)
  /\ (ltMinWait a b = true -> ltMinWait b a = false)
  /\ ltMinWait a a = false.
Proof.
  destruct a as [| x], b as [| y], c as [| z]; cbn; repeat split; try done;
    rewrite ?Z.ltb_lt, ?Z.ltb_ge; lia.
Qed.

Lemma bestTarget_spec (queuesByProvider : gmap string (list Queuer))
    (clientsByProvider : gmap string (list Client)) (tokenText : option string)
    (targets : list (string * string)) (choices : list (option (Selection Client))) :
  Forall2 (fun t c => Throwing.chooseQueue tz clk now fuel execMs estimateTokenCount
                        queuesByProvider clientsByProvider (fst t) (snd t) tokenText
                      = Some (Returns c)) targets choices ->
  forall best,
    exists r,
      Throwing.bestTarget tz clk now fuel execMs estimateTokenCount
        queuesByProvider clientsByProvider tokenText best targets = Some (Returns r)
      /\ ((r = best
           /\ forall k sel', choices !! k = Some (Some sel') ->
                match best with
                | None => False
                | Some (_, _, b) =>
                    ltMinWait (sel_estimatedWaitMs sel') (sel_estimatedWaitMs b) = false
                end)
          \/ (exists k p m sel,
                r = Some (p, m, sel)
                /\ targets !! k = Some (p, m)
                /\ choices !! k = Some (Some sel)
                /\ match best with
                   | None => True
                   | Some (_, _, b) =>
                       ltMinWait (sel_estimatedWaitMs sel) (sel_estimatedWaitMs b) = true
                   end
                /\ forall k' sel', choices !! k' = Some (Some sel') ->
                     ltMinWait (sel_estimatedWaitMs sel') (sel_estimatedWaitMs sel) = false
                     /\ ((k' < k)%nat ->
                         ltMinWait (sel_estimatedWaitMs sel) (sel_estimatedWaitMs sel')
                         = true))).
Proof.
  induction 1 as [| [p m] c targets choices Hc Hrest IH]; intros best.
  - exists best. split; [done |]. left. split; [done |]. by intros k sel'.
  - cbn [Throwing.bestTarget]. cbn [fst snd] in Hc. rewrite Hc.
    destruct c as [sel |].
    2: { destruct (IH best) as (r & -> & [(-> & Hall) | (k & p' & m' & s & -> & Ht & Hs & Hb & Hmin)]).
         - eexists. split; [reflexivity |]. left. split; [done |].
           intros [| k] sel' Hsel; cbn in Hsel; [done |]. by apply (Hall k).
         - eexists. split; [reflexivity |]. right. exists (S k), p', m', s.
           repeat (split; [done |]).
           intros [| k'] sel' Hsel; cbn in Hsel; [done |].
           destruct (Hmin k' sel' Hsel) as [H1 H2]. split; [done |].
           intros Hlt. apply H2. lia. }
    set (better := match best with
                   | None => true
                   | Some (_, _, b) =>
                       ltMinWait (sel_estimatedWaitMs sel) (sel_estimatedWaitMs b)
                   end).
    destruct better eqn:Hbetter; subst better.
    + destruct (IH (Some (p, m, sel)))
        as (r & -> & [(-> & Hall) | (k & p' & m' & s & -> & Ht & Hs & Hb & Hmin)]).
      * eexists. split; [reflexivity |]. right. exists 0%nat, p, m, sel.
        repeat (split; [done |]).
        split; [by destruct best as [[[? ?] ?] |] |].
        intros [| k'] sel' Hsel; cbn in Hsel.
        -- injection Hsel as <-. split; [apply ltMinWait_cases; exact Infinity | lia].
        -- split; [by apply (Hall k') | lia].
      * eexists. split; [reflexivity |]. right. exists (S k), p', m', s.
        repeat (split; [done |]). split.
        { destruct best as [[[? ?] b] |]; [| done].
          by apply (ltMinWait_cases _ (sel_estimatedWaitMs sel)). }
        intros [| k'] sel' Hsel; cbn in Hsel.
        -- injection Hsel as <-.
           pose proof (ltMinWait_cases (sel_estimatedWaitMs s) (sel_estimatedWaitMs sel)
                         Infinity) as (_ & _ & _ & H4 & _).
           split; [by apply H4 | done].
        -- destruct (Hmin k' sel' Hsel) as [H1 H2]. split; [done |].
           intros Hlt. apply H2. lia.
    + destruct best as [[[bp bm] b] |]; [| done].
      destruct (IH (Some (bp, bm, b)))
        as (r & -> & [(-> & Hall) | (k & p' & m' & s & -> & Ht & Hs & Hb & Hmin)]).
      * eexists. split; [reflexivity |]. left. split; [done |].
        intros [| k'] sel' Hsel; cbn in Hsel.
        -- by injection Hsel as <-.
        -- by apply (Hall k').
      * eexists. split; [reflexivity |]. right. exists (S k), p', m', s.
        repeat (split; [done |]).
        intros [| k'] sel' Hsel; cbn in Hsel.
        -- injection Hsel as <-.
           pose proof (ltMinWait_cases (sel_estimatedWaitMs sel) (sel_estimatedWaitMs b)
                         (sel_estimatedWaitMs s)) as (H1 & _).
           pose proof (ltMinWait_cases (sel_estimatedWaitMs s) (sel_estimatedWaitMs b)
                         (sel_estimatedWaitMs sel)) as (_ & _ & H3 & _).
           split; [by apply H3 | intros _; by apply H1].
        -- destruct (Hmin k' sel' Hsel) as [H1 H2]. split; [done |].
           intros Hlt. apply H2. lia.
Qed.

(** X24.  When [chooseQueue] returns for every target of a request, the
    loop of the handlers over the targets returns, and it keeps the first
    of the targets with a selection whose estimate is the least, passing
    over those for which [chooseQueue] returned [null]; no target is
    kept exactly when it returned [null] for every target. *)
Theorem handler_keeps_first_least_target
    (queuesByProvider : gmap string (list Queuer))
    (clientsByProvider : gmap string (list Client)) (tokenText : option string)
    (targets : list (string * string)) (choices : list (option (Selection Client))) :
  Forall2 (fun t c => Throwing.chooseQueue tz clk now fuel execMs estimateTokenCount
                        queuesByProvider clientsByProvider (fst t) (snd t) tokenText
                      = Some (Returns c)) targets choices ->
  exists r,
    Throwing.bestTarget tz clk now fuel execMs estimateTokenCount
      queuesByProvider clientsByProvider tokenText None targets = Some (Returns r)
    /\ match r with
       | None => Forall (fun c => c = None) choices
       | Some (p, m, sel) =>
           exists k,
             targets !! k = Some (p, m)
             /\ choices !! k = Some (Some sel)
             /\ forall k' sel', choices !! k' = Some (Some sel') ->
                  ltMinWait (sel_estimatedWaitMs sel') (sel_estimatedWaitMs sel) = false
                  /\ ((k' < k)%nat ->
                      ltMinWait (sel_estimatedWaitMs sel) (sel_estimatedWaitMs sel')
                      = true)
       end.
Proof.
  intros Hch.
  destruct (bestTarget_spec _ _ _ _ _ Hch None)
    as (r & -> & [(-> & Hall) | (k & p & m & sel & -> & Ht & Hs & _ & Hmin)]).
  - eexists. split; [reflexivity |]. apply Forall_forall. intros c Hc.
    apply list_elem_of_lookup in Hc as [k Hk]. destruct c as [sel |]; [| done].
    destruct (Hall k sel Hk).
  - eexists. split; [reflexivity |]. by exists k.
Qed.

End RouterFacts.

Lemma chooseQueue_picks_least_estimate_witness :
  exists i w,
    firstLeast [990; 0] i w
    /\ chooseQueue 0 Sample.t0 Sample.t0 1000 (fun _ => 500) Sample.countChars
         SampleRouter.queuesByProvider SampleRouter.clientsByProvider
         "mistral" "m" (Some "hello"%string)
       = Some (Some {| sel_client := ["key-1"%string; "key-2"%string] !! i;
                       sel_index := i;
                       sel_estimatedWaitMs := Finite w |}).
Proof.
  apply (chooseQueue_picks_least_estimate 0 Sample.t0 Sample.t0 1000 (fun _ => 500)
           Sample.countChars string
           SampleRouter.queuesByProvider SampleRouter.clientsByProvider
           "mistral" "m" (Some "hello"%string)
           [SampleRouter.busy; SampleRouter.idle] ["key-1"%string; "key-2"%string]
           [990; 0]).
  - reflexivity.
  - reflexivity.
  - discriminate.
  - discriminate.
  - repeat constructor; vm_compute; reflexivity.
Defined.

Lemma handler_keeps_first_least_target_witness :
  exists r,
    Throwing.bestTarget 0 Sample.t0 Sample.t0 1000 (fun _ => 500) Sample.countChars
      SampleRouter.queuesByProvider SampleRouter.clientsByProvider
      (Some "hello"%string) None
      [("gemini"%string, "m"%string); ("mistral"%string, "m"%string)]
    = Some (Returns r)
    /\ match r with
       | None =>
           Forall (fun c => c = None)
             [None; Some {| sel_client := Some "key-2"%string; sel_index := 1%nat;
                            sel_estimatedWaitMs := Finite 0 |}]
       | Some (p, m, sel) =>
           exists k,
             [("gemini"%string, "m"%string); ("mistral"%string, "m"%string)] !! k
             = Some (p, m)
             /\ [None; Some {| sel_client := Some "key-2"%string; sel_index := 1%nat;
                               sel_estimatedWaitMs := Finite 0 |}] !! k
                = Some (Some sel)
             /\ forall k' sel',
                  [None; Some {| sel_client := Some "key-2"%string; sel_index := 1%nat;
                                 sel_estimatedWaitMs := Finite 0 |}] !! k'
                  = Some (Some sel') ->
                  ltMinWait (sel_estimatedWaitMs sel') (sel_estimatedWaitMs sel) = false
                  /\ ((k' < k)%nat ->
                      ltMinWait (sel_estimatedWaitMs sel) (sel_estimatedWaitMs sel')
                      = true)
       end.
Proof.
  apply (handler_keeps_first_least_target 0 Sample.t0 Sample.t0 1000 (fun _ => 500)
           Sample.countChars string
           SampleRouter.queuesByProvider SampleRouter.clientsByProvider
           (Some "hello"%string)
           [("gemini"%string, "m"%string); ("mistral"%string, "m"%string)]
           [None; Some {| sel_client := Some "key-2"%string; sel_index := 1%nat;
                          sel_estimatedWaitMs := Finite 0 |}]).
  repeat constructor; vm_compute; reflexivity.
Defined.

Lemma getActiveLimits_none opts :
  default [] (defaultLimits opts) = [] ->
  default ∅ (modelLimits opts) = ∅ ->
  forall m, getActiveLimits opts m = None.
Proof.
  intros Hd Hm m. unfold getActiveLimits. rewrite Hd, Hm.
  destruct (truthyString m) as [s |]; cbn; [| done]. by rewrite lookup_empty.
Qed.

(** X25.  A queuer built from a key configuration is named, and it never has
    both limits and a fallback delay: when [getActiveLimits] returns a
    limit for some model the delay is not set, and on a queuer that has a
    delay, the delay of the configuration, [getActiveLimits] returns
    [undefined] for every model for which it returns. *)
Theorem built_queuer_has_limits_or_delay (kc : KeyConfig) :
  let o := queuerOptionsOf kc in
  (exists l, label o = Some l /\ l <> ""%string)
  /\ (forall m active,
        Throwing.getActiveLimits o m = Returns active ->
        noLimits active = false -> fallbackDelayMs o = None)
  /\ (forall d, fallbackDelayMs o = Some d ->
                fallbackDelayMs o = kc_delayMs kc
                /\ forall m active,
                     Throwing.getActiveLimits o m = Returns active -> active = None).
Proof.
  intros o. subst o. unfold queuerOptionsOf.
  split.
  { exists (default "default"%string (truthyString (kc_label kc))).
    split; [by repeat destruct (_ || _), (kc_delayMs kc); try destruct (kc_delayMs kc) |].
    by destruct (kc_label kc) as [[| ? ?] |]. }
  destruct (_ || _).
  - split; [done |]. by intros d.
  - destruct (kc_delayMs kc) as [d |].
    + split.
      * intros m active Hret%getActiveLimits_returns.
        rewrite getActiveLimits_none in Hret by done. by subst active.
      * intros d' _. split; [done |].
        intros m active Hret%getActiveLimits_returns.
        by rewrite getActiveLimits_none in Hret.
    + split; [done |]. by intros d.
Qed.

(* --------------------------------------------------------------------- *)
(** ** The month of the monthly counters, in UTC *)
(* --------------------------------------------------------------------- *)

Module CalendarBoundary.
Import Calendar CalendarFacts.

Lemma MakeDay_next clk :
  let y := YearFromDay (Day clk) in
  let m := getUTCMonth clk in
  0 <= m <= 11
  /\ MakeDay (getUTCFullYear clk) (m + 1) 1
     = DayFromYear y + monthStart (InLeapYear y) (m + 1).
Proof.
  intros y m.
  pose proof (YearFromDay_spec (Day clk)) as Hy. fold y in Hy.
  assert (Hdiy : 0 <= Day clk - DayFromYear y < monthStart (InLeapYear y) 12).
  { rewrite <- DaysInYear_monthStart. unfold DaysInYear. lia. }
  pose proof (monthStart_bracket _ _ Hdiy) as [Hm1 Hm2]. cbn zeta in Hm1, Hm2.
  change (MonthFromDayInYear (InLeapYear y) (Day clk - DayFromYear y)) with m in *.
  split; [done |].
  unfold MakeDay, getUTCFullYear. fold y.
  destruct (Z.eq_dec m 11) as [E | NE].
  - rewrite E. change ((11 + 1) / 12) with 1. change ((11 + 1) mod 12) with 0.
    change (monthStart (InLeapYear (y + 1)) 0) with 0.
    change (11 + 1) with 12. rewrite <- DaysInYear_monthStart. unfold DaysInYear. lia.
  - assert ((m + 1) / 12 = 0) as -> by (Z.div_mod_to_equations; lia).
    assert ((m + 1) mod 12 = m + 1) as -> by (Z.div_mod_to_equations; lia).
    rewrite Z.add_0_r. lia.
Qed.

Lemma startOfNextUTCMonth_other_month clk t :
  startOfNextUTCMonth clk <= t ->
  ~ (getUTCFullYear t = getUTCFullYear clk /\ getUTCMonth t = getUTCMonth clk).
Proof.
  unfold startOfNextUTCMonth, utcMidnight. intros Ht [Hyear Hmonth].
  destruct (MakeDay_next clk) as [Hm HN]. cbn zeta in Hm, HN. rewrite HN in Ht.
  set (y := YearFromDay (Day clk)) in *. set (m := getUTCMonth clk) in *.
  unfold getUTCFullYear in Hyear. fold y in Hyear.
  pose proof (Day_bounds t) as Hd.
  assert (DayFromYear y + monthStart (InLeapYear y) (m + 1) <= Day t) as Hdt
    by (unfold msPerDay in *; nia).
  pose proof (YearFromDay_spec (Day t)) as Hy. rewrite Hyear in Hy.
  assert (Hdiy : 0 <= Day t - DayFromYear y < monthStart (InLeapYear y) 12).
  { rewrite <- DaysInYear_monthStart. unfold DaysInYear. lia. }
  pose proof (monthStart_bracket _ _ Hdiy) as [_ Hb]. cbn zeta in Hb.
  unfold getUTCMonth in Hmonth. rewrite Hyear in Hmonth. fold y in Hmonth.
  rewrite Hmonth in Hb. lia.
Qed.

End CalendarBoundary.

(** X26.  In a process whose zone is UTC, the instants from the clock reading on
    that are before the value of [startOfNextMonth] are exactly those of
    the UTC year and month of the reading: the monthly counters of a
    bucket made at that reading are kept by every admission check of the
    rest of the month and are reset by the first check after it. *)
Theorem startOfNextMonth_bounds_the_utc_month (clk t : Z) :
  clk <= t ->
  (t < startOfNextMonth 0 clk
   <-> Calendar.getUTCFullYear t = Calendar.getUTCFullYear clk
       /\ Calendar.getUTCMonth t = Calendar.getUTCMonth clk)
  /\ (t < startOfNextMonth 0 clk ->
      monthRequestCount (maintain 0 t t (recordInto clk 0 (makeInitial 0 clk))) = 1)
  /\ (startOfNextMonth 0 clk <= t ->
      monthRequestCount (maintain 0 t t (recordInto clk 0 (makeInitial 0 clk))) = 0).
Proof.
  intros Hle. destruct (startOfNextMonth_in_UTC clk) as [Heq Hafter].
  split; [| split].
  - rewrite Heq. split.
    + intros Hlt. by apply CalendarFacts.startOfNextUTCMonth_same_month.
    + intros Hsame. destruct (Z.lt_ge_cases t (startOfNextUTCMonth clk)) as [| Hge];
        [done |].
      by destruct (CalendarBoundary.startOfNextUTCMonth_other_month clk t Hge).
  - intros Hlt. rewrite maintain_unfold. fields.
    unfold recordInto, pruneWindows, makeInitial. fields.
    destruct (Z.leb_spec (startOfNextMonth 0 clk) t); [lia | done].
  - intros Hge. rewrite maintain_unfold. fields.
    unfold recordInto, pruneWindows, makeInitial. fields.
    destruct (Z.leb_spec (startOfNextMonth 0 clk) t); [done | lia].
Qed.

Lemma startOfNextMonth_bounds_the_utc_month_witness :
  (Sample.t0 + 1000 < startOfNextMonth 0 Sample.t0
   <-> Calendar.getUTCFullYear (Sample.t0 + 1000) = Calendar.getUTCFullYear Sample.t0
       /\ Calendar.getUTCMonth (Sample.t0 + 1000) = Calendar.getUTCMonth Sample.t0)
  /\ (Sample.t0 + 1000 < startOfNextMonth 0 Sample.t0 ->
      monthRequestCount
        (maintain 0 (Sample.t0 + 1000) (Sample.t0 + 1000)
           (recordInto Sample.t0 0 (makeInitial 0 Sample.t0))) = 1)
  /\ (startOfNextMonth 0 Sample.t0 <= Sample.t0 + 1000 ->
      monthRequestCount
        (maintain 0 (Sample.t0 + 1000) (Sample.t0 + 1000)
           (recordInto Sample.t0 0 (makeInitial 0 Sample.t0))) = 0).
Proof.
  apply (startOfNextMonth_bounds_the_utc_month Sample.t0 (Sample.t0 + 1000)).
  unfold Sample.t0. lia.
Defined.

(* --------------------------------------------------------------------- *)
(** ** Waiting for the computed wait is enough *)
(* --------------------------------------------------------------------- *)

Lemma servable_positive tokens limits :
  Forall (servable tokens) limits -> windowLimitsPositive limits.
Proof.
  unfold windowLimitsPositive. intros H. eapply Forall_impl; [exact H |].
  intros l. unfold servable. by destruct (type l).
Qed.

Lemma fold_right_max_bounds (a : Z) (cs : list Z) :
  a <= fold_right Z.max a cs /\ forall c, c ∈ cs -> c <= fold_right Z.max a cs.
Proof.
  induction cs as [| x cs [IH1 IH2]]; cbn.
  - split; [lia | by intros c ?%elem_of_nil].
  - split; [lia |]. intros c [-> | Hc]%elem_of_cons; [lia |].
    specialize (IH2 c Hc). lia.
Qed.

Lemma candidate_le_table now tokens b limits l c :
  l ∈ limits -> candidateWait now tokens b l = Some c ->
  c <= tableWaitMs now tokens b limits.
Proof.
  intros Hl Hc. unfold tableWaitMs.
  destruct (fold_right_max_bounds 0 (omap (candidateWait now tokens b) limits))
    as [_ H].
  assert (c ∈ omap (candidateWait now tokens b) limits) as Hin.
  { apply list_elem_of_omap. by exists l. }
  specialize (H c Hin). lia.
Qed.

Lemma table_zero now tokens b limits :
  (forall l, l ∈ limits -> candidateWait now tokens b l = None) ->
  tableWaitMs now tokens b limits = 0.
Proof.
  intros H. unfold tableWaitMs.
  assert (omap (candidateWait now tokens b) limits = []) as ->; [| done].
  induction limits as [| l limits IH]; [done |]. cbn.
  rewrite (H l) by (apply elem_of_cons; by left).
  apply IH. intros l' Hl'. apply H, elem_of_cons. by right.
Qed.

Lemma shiftExpired_drops_head cut arr e :
  head arr = Some e -> e <= cut ->
  (S (length (shiftExpired cut arr)) <= length arr)%nat.
Proof.
  destruct arr as [| x rest]; [done |]. cbn. intros [= ->] Hle.
  destruct (Z.leb_spec e cut); [| lia].
  pose proof (shiftExpired_length cut rest). lia.
Qed.

Lemma window_clears len now w (lim : Z) arr :
  1 <= lim -> Z.of_nat (length arr) <= lim -> 0 <= w ->
  (lim <= Z.of_nat (length arr) ->
   forall e, head arr = Some e -> len - (now - e) <= w) ->
  Z.of_nat (length (shiftExpired (now + w - len) arr)) < lim.
Proof.
  intros Hlim Hresp Hw Hc.
  pose proof (shiftExpired_length (now + w - len) arr) as Hl.
  destruct (Z.le_gt_cases lim (Z.of_nat (length arr))) as [Hfull | Hfree]; [| lia].
  destruct arr as [| e rest]; [cbn in Hfull; lia |].
  specialize (Hc Hfull e eq_refl).
  pose proof (shiftExpired_drops_head (now + w - len) (e :: rest) e eq_refl) as Hd.
  cbn [length] in *. lia.
Qed.

Lemma candidate_clears tz clk now tokens b l w :
  servable tokens l -> respects b l -> 0 <= w ->
  (forall c, candidateWait now tokens b l = Some c -> c <= w) ->
  candidateWait (now + w) tokens (maintain tz clk (now + w) b) l = None.
Proof.
  unfold servable, respects, candidateWait. rewrite maintain_unfold. fields.
  destruct (type l); intros Hserv Hresp Hw Hc.
  - rewrite decide_False; [done |]. apply Z.lt_nge.
    apply (window_clears 1000 now w); try done. intros Hfull e He.
    apply Hc. rewrite decide_True by done. by rewrite He.
  - rewrite decide_False; [done |]. apply Z.lt_nge.
    apply (window_clears 60000 now w); try done. intros Hfull e He.
    apply Hc. rewrite decide_True by done. by rewrite He.
  - rewrite decide_False; [done |]. apply Z.lt_nge.
    apply (window_clears 86400000 now w); try done. intros Hfull e He.
    apply Hc. rewrite decide_True by done. by rewrite He.
  - rewrite decide_False; [done |].
    destruct (Z.leb_spec (monthTokenResetAt b) (now + w)); [lia |].
    destruct (decide (limit l < monthTokenCount b + Z.max 0 tokens)) as [Hb | Hb]; [| lia].
    specialize (Hc _ eq_refl). lia.
  - rewrite decide_False; [done |].
    destruct (Z.leb_spec 60000 (now + w - minuteTokenWindowStart b)); [lia |].
    destruct (decide (now - minuteTokenWindowStart b < 60000
                      /\ limit l < minuteTokenCount b + Z.max 0 tokens)) as [Hb | Hb];
      [| lia].
    specialize (Hc _ eq_refl). lia.
  - rewrite decide_False; [done |].
    destruct (Z.leb_spec (monthRequestResetAt b) (now + w)); [lia |].
    destruct (decide (limit l < monthRequestCount b + 1)) as [Hb | Hb]; [| lia].
    specialize (Hc _ eq_refl). lia.
Qed.

(** X27.  When every active limit can admit the request at all and the bucket
    is within it, the wait is a number that is not negative, and after
    that wait the admission check lets the request through. *)
Theorem waiting_the_wait_is_enough tz clk now tokens (b : UsageBucket)
    (active : list RateLimitConfig) :
  Forall (servable tokens) active ->
  Forall (respects b) active ->
  exists w,
    waitLoop now tokens b active = Num w
    /\ 0 <= w
    /\ waitLoop (now + w) tokens (maintain tz clk (now + w) b) active = Num 0.
Proof.
  intros Hserv Hresp. pose proof (servable_positive _ _ Hserv) as Hpos.
  exists (tableWaitMs now tokens b active).
  rewrite !waitLoop_table by done.
  split; [done |].
  assert (0 <= tableWaitMs now tokens b active) as Hw by (unfold tableWaitMs; lia).
  split; [done |]. f_equal. apply table_zero. intros l Hl.
  rewrite Forall_forall in Hserv, Hresp.
  apply candidate_clears; [by apply Hserv | by apply Hresp | done |].
  intros c Hc. by apply (candidate_le_table _ _ _ _ l).
Qed.

Lemma waiting_the_wait_is_enough_witness :
  exists w,
    waitLoop Sample.t0 7 Sample.justUsed [ {| type := RPS; limit := 1 |} ] = Num w
    /\ 0 <= w
    /\ waitLoop (Sample.t0 + w) 7
         (maintain 0 Sample.t0 (Sample.t0 + w) Sample.justUsed)
         [ {| type := RPS; limit := 1 |} ] = Num 0.
Proof.
  apply (waiting_the_wait_is_enough 0 Sample.t0 Sample.t0 7 Sample.justUsed
           [ {| type := RPS; limit := 1 |} ]).
  - repeat constructor. cbn. lia.
  - repeat constructor. cbn. lia.
Defined.

(* --------------------------------------------------------------------- *)
(** ** The estimate for an idle queuer *)
(* --------------------------------------------------------------------- *)

Lemma candidate_clears_sim tz clk now tokens b l w :
  servable tokens l -> respects b l -> 0 <= w ->
  (forall c, candidateWait now tokens b l = Some c -> c <= w) ->
  candidateWait (now + w) tokens (maintainSim tz clk (now + w) b) l = None.
Proof.
  unfold servable, respects, candidateWait. rewrite maintainSim_unfold. fields.
  destruct (type l); intros Hserv Hresp Hw Hc.
  - rewrite decide_False; [done |]. apply Z.lt_nge.
    apply (window_clears 1000 now w); try done. intros Hfull e He.
    apply Hc. rewrite decide_True by done. by rewrite He.
  - rewrite decide_False; [done |]. apply Z.lt_nge.
    apply (window_clears 60000 now w); try done. intros Hfull e He.
    apply Hc. rewrite decide_True by done. by rewrite He.
  - rewrite decide_False; [done |]. apply Z.lt_nge.
    apply (window_clears 86400000 now w); try done. intros Hfull e He.
    apply Hc. rewrite decide_True by done. by rewrite He.
  - rewrite decide_False; [done |].
    destruct (Z.leb_spec (monthTokenResetAt b) (now + w)); [lia |].
    destruct (decide (limit l < monthTokenCount b + Z.max 0 tokens)) as [Hb | Hb]; [| lia].
    specialize (Hc _ eq_refl). lia.
  - rewrite decide_False; [done |].
    destruct (decide (now - minuteTokenWindowStart b < 60000
                      /\ limit l < minuteTokenCount b + Z.max 0 tokens)) as [Hb | Hb];
      [| lia].
    specialize (Hc _ eq_refl). lia.
  - rewrite decide_False; [done |].
    destruct (Z.leb_spec (monthRequestResetAt b) (now + w)); [lia |].
    destruct (decide (limit l < monthRequestCount b + 1)) as [Hb | Hb]; [| lia].
    specialize (Hc _ eq_refl). lia.
Qed.

Lemma respects_maintainSim tz clk t tokens b l :
  servable tokens l -> respects b l -> respects (maintainSim tz clk t b) l.
Proof.
  unfold servable, respects. rewrite maintainSim_unfold. fields.
  destruct (type l); intros Hserv Hresp;
    try (match goal with
         | |- context [shiftExpired ?cut ?arr] =>
             pose proof (shiftExpired_length cut arr); lia
         end);
    try (match goal with |- context [if ?c then _ else _] => destruct c end; lia);
    done.
Qed.

Lemma limitWait_max0 now tokens b acc l :
  limitWait now (Z.max 0 tokens) b acc l = limitWait now tokens b acc l.
Proof. unfold limitWait. by rewrite (Z.max_r 0 (Z.max 0 tokens)) by lia. Qed.

Lemma waitLoop_max0 now tokens b active :
  waitLoop now (Z.max 0 tokens) b active = waitLoop now tokens b active.
Proof.
  unfold waitLoop. f_equal. generalize (Num 0).
  induction active as [| l active IH]; intros acc; [done |].
  cbn [fold_left]. by rewrite limitWait_max0, IH.
Qed.

Lemma servable_max0 tokens l : servable tokens l -> servable (Z.max 0 tokens) l.
Proof. unfold servable. destruct (type l); lia. Qed.

(** X28.  For a queuer with nothing pending, on a bucket that is within the
    active limits and whose minute window of tokens is running: when the
    admission check of the dispatch loop computes a wait of at most five
    seconds, that wait is the estimate; two turns of the replay give
    it. *)
Theorem estimate_of_idle_queuer tz opts clk now perItemExecMs (fuel : nat)
    (q : RequestQueuer) (m : option string) (tokensNeeded : Z)
    (active : list RateLimitConfig) (b : UsageBucket) (w : Z) :
  queue q = [] ->
  getActiveLimits opts m = Some active ->
  active <> [] ->
  keysLabelled (usage q) ->
  peek (bucketKey m) (usage q) = Some b ->
  now - minuteTokenWindowStart b < 60000 ->
  Forall (servable tokensNeeded) active ->
  Forall (respects b) active ->
  fst (computeWaitMs tz opts clk now m tokensNeeded (usage q)) = Num w ->
  w <= 5000 ->
  (2 <= fuel)%nat ->
  estimateWaitMs tz opts clk now perItemExecMs fuel q m tokensNeeded = Some w.
Proof.
  intros Hq Hactive Hne Hlab Hb Hlive Hserv Hresp Hwait Hw Hfuel.
  destruct active as [| l0 ls]; [done |]. set (active := l0 :: ls) in *.
  set (tok := Z.max 0 tokensNeeded).
  set (b1 := maintainSim tz clk now b).
  assert (Hserv' : Forall (servable tok) active).
  { eapply Forall_impl; [exact Hserv |]. intros l. apply servable_max0. }
  pose proof (servable_positive _ _ Hserv') as Hpos.
  assert (Hw1 : waitLoop now tok b1 active = Num w).
  { rewrite computeWaitMs_fst, Hb in Hwait. unfold waitOf in Hwait.
    rewrite Hactive in Hwait. cbn [from_option Datatypes.id] in Hwait.
    subst b1 tok. by rewrite waitLoop_max0, <- maintain_live. }
  assert (Htab : tableWaitMs now tok b1 active = w).
  { rewrite waitLoop_table in Hw1 by done. by injection Hw1. }
  assert (H0 : 0 <= w) by (rewrite <- Htab; unfold tableWaitMs; lia).
  assert (Hw2 : waitLoop (now + w) tok (maintainSim tz clk (now + w) b1) active = Num 0).
  { rewrite waitLoop_table by done. f_equal. apply table_zero. intros l Hl.
    rewrite Forall_forall in Hserv', Hresp.
    apply candidate_clears_sim; [by apply Hserv' | | done |].
    - apply (respects_maintainSim _ _ _ tok); [by apply Hserv' | by apply Hresp].
    - intros c Hc. rewrite <- Htab. by apply (candidate_le_table _ _ _ _ l). }
  subst active. unfold estimateWaitMs. rewrite Hactive. cbn [noLimits andb].
  rewrite Hq. unfold simQueueOf. cbn [List.map app]. fold tok.
  destruct fuel as [| [| fuel]]; [lia | lia |].
  assert (Hsim : copyUsage (entries (usage q)) !! bucketKey m = Some b).
  { by rewrite copyUsage_entries. }
  cbn [simLoop simScan sim_modelName sim_tokens].
  rewrite computeWaitSim_eq, Hsim. unfold waitSimOf. rewrite Hactive.
  cbn [from_option Datatypes.id]. fold b1. rewrite !Hw1. cbn [le0].
  destruct (Z.leb_spec w 0) as [Hz | Hpos'].
  - cbn [splice sim_hypothetical]. f_equal. lia.
  - assert (Hs : sleepMs (Finite w) = w) by (unfold sleepMs; lia).
    cbn [lower ltMin]. rewrite Hs.
    cbn [simLoop simScan sim_modelName sim_tokens].
    rewrite computeWaitSim_eq. unfold waitSimOf, settleSim. rewrite Hactive.
    rewrite Hsim. cbn [from_option Datatypes.id]. fold b1.
    rewrite lookup_insert_eq. cbn [from_option Datatypes.id].
    rewrite Hw2. cbn [le0 Z.leb Z.compare splice sim_hypothetical].
    f_equal. lia.
Qed.

Lemma estimate_of_idle_queuer_witness :
  estimateWaitMs 0 Sample.onePerSecond Sample.t0 Sample.t0 500 2
    (Sample.queuerOf [] (RAMUsageStrategy {[ "m"%string := Sample.justUsed ]}))
    (Some "m"%string) 7
  = Some 990.
Proof.
  apply (estimate_of_idle_queuer 0 Sample.onePerSecond Sample.t0 Sample.t0 500 2
           (Sample.queuerOf [] (RAMUsageStrategy {[ "m"%string := Sample.justUsed ]}))
           (Some "m"%string) 7 [ {| type := RPS; limit := 1 |} ] Sample.justUsed 990).
  - reflexivity.
  - reflexivity.
  - discriminate.
  - exact I.
  - reflexivity.
  - vm_compute. reflexivity.
  - repeat constructor. cbn. lia.
  - repeat constructor. cbn. lia.
  - vm_compute. reflexivity.
  - lia.
  - lia.
Defined.
